(** * Maze generation (mazes.py): a shallow embedding and its properties

    The Python module keeps every [Cell] as a mutable object that is
    shared between the grid, its neighbours and the algorithms' work
    lists.  The embedding therefore has an explicit object store: a cell
    object is named by a reference, and the store maps references to
    cell records.  A [Grid] creates exactly one [Cell] per position, so
    the reference of the cell built by [Cell(i, j)] is the pair [(i, j)].

    Python exceptions, and loops that may run for ever, are results of a
    small state monad; the pseudo-random generator is an infinite tape of
    draws carried in the state.  [print] calls are left out, except where
    their arguments can raise. *)

From Stdlib Require Import ZArith Lia Bool String.
From Corelib Require Import PrimFloat SpecFloat FloatOps Uint63Axioms.
From stdpp Require Import base option list gmap.

Set Warnings "-clear-no-such-hyp".

Local Open Scope Z_scope.

(** ** Exceptions, results and the state monad *)

Inductive exn :=
  | AssertionError | KeyError | IndexError | AttributeError
  | ValueError | ZeroDivisionError | OverflowError.

(** [Diverge] is the result of a loop that used up its fuel. *)
Inductive outcome (A : Type) :=
  | Ret (a : A)
  | Raise (e : exn)
  | Diverge.
Arguments Ret {A} a.
Arguments Raise {A} e.
Arguments Diverge {A}.

Definition M (S A : Type) : Type := S → outcome A * S.

#[global] Instance M_ret {S} : MRet (M S) := λ A a s, (Ret a, s).
#[global] Instance M_bind {S} : MBind (M S) := λ A B f m s,
  match m s with
  | (Ret a, s') => f a s'
  | (Raise e, s') => (Raise e, s')
  | (Diverge, s') => (Diverge, s')
  end.

#[global] Instance outcome_ret : MRet outcome := λ A a, Ret a.
#[global] Instance outcome_bind : MBind outcome := λ A B f o,
  match o with
  | Ret a => f a
  | Raise e => Raise e
  | Diverge => Diverge
  end.

Definition raise {S A} (e : exn) : M S A := λ s, (Raise e, s).
Definition diverge {S A} : M S A := λ s, (Diverge, s).
Definition get_state {S} : M S S := λ s, (Ret s, s).
Definition modify {S} (f : S → S) : M S unit := λ s, (Ret tt, f s).
Definition lift_outcome {S A} (o : outcome A) : M S A := λ s, (o, s).
Definition assert {S} (b : bool) : M S unit :=
  if b then mret tt else raise AssertionError.

(** [for x in l: body] *)
Fixpoint for_ {S A} (l : list A) (body : A → M S unit) : M S unit :=
  match l with
  | [] => mret tt
  | x :: l' => body x;; for_ l' body
  end.

(** A [for] loop that updates local variables [acc]. *)
Fixpoint foldM {S A B} (l : list A) (acc : B) (body : B → A → M S B) : M S B :=
  match l with
  | [] => mret acc
  | x :: l' => acc' ← body acc x; foldM l' acc' body
  end.

(** The same without state. *)
Fixpoint foldO {A B} (l : list A) (acc : B) (body : B → A → outcome B) : outcome B :=
  match l with
  | [] => Ret acc
  | x :: l' => acc' ← body acc x; foldO l' acc' body
  end.

(** A list comprehension whose element expression has effects. *)
Fixpoint collect {S A B} (l : list A) (f : A → M S B) : M S (list B) :=
  match l with
  | [] => mret []
  | x :: l' => y ← f x; ys ← collect l' f; mret (y :: ys)
  end.

(** [range(n)] and [range(a, b)] *)
Definition range (n : Z) : list Z := Z.of_nat <$> seq 0 (Z.to_nat n).
Definition range2 (a b : Z) : list Z := (λ k, a + Z.of_nat k) <$> seq 0 (Z.to_nat (b - a)).

(** [l[i]] with Python's negative indices. *)
Definition py_index {A} (l : list A) (i : Z) : outcome A :=
  let n := Z.of_nat (length l) in
  let k := if i <? 0 then n + i else i in
  if (k <? 0) || (n <=? k) then Raise IndexError
  else match l !! Z.to_nat k with
       | Some x => Ret x
       | None => Raise IndexError
       end.

(** [del l[i]], [l.remove(x)] and [l.pop(i)] *)
Definition py_del {A} (l : list A) (i : Z) : outcome (list A) :=
  let n := Z.of_nat (length l) in
  let k := if i <? 0 then n + i else i in
  if (k <? 0) || (n <=? k) then Raise IndexError
  else Ret (delete (Z.to_nat k) l).

Fixpoint py_remove `{EqDecision A} (x : A) (l : list A) : outcome (list A) :=
  match l with
  | [] => Raise ValueError
  | y :: l' =>
      if bool_decide (y = x) then Ret l'
      else l'' ← py_remove x l'; Ret (y :: l'')
  end.

Definition len {A} (l : list A) : Z := Z.of_nat (length l).

(** ** Python values that the code compares with [==] *)

Abbreviation ref := (Z * Z)%type.

Inductive pyval :=
  | PyNone
  | PyBool (b : bool)
  | PyInt (z : Z)
  | PyCell (r : ref)            (* a Cell object *)
  | PyRow (l : list ref)        (* a list of cells *)
  | PyMethod (r : ref).         (* the bound method [cell.link_count] *)

(** [==]: [Cell] defines no [__eq__], so cells are equal only to
    themselves; [bool] is a subclass of [int]. *)
Definition py_eq (x y : pyval) : bool :=
  match x, y with
  | PyNone, PyNone => true
  | PyBool a, PyBool b => eqb a b
  | PyInt a, PyInt b => a =? b
  | PyBool a, PyInt b | PyInt b, PyBool a => (if a then 1 else 0) =? b
  | PyCell a, PyCell b => bool_decide (a = b)
  | PyRow a, PyRow b => bool_decide (a = b)
  | PyMethod a, PyMethod b => bool_decide (a = b)
  | _, _ => false
  end.

(** ** class Cell *)

Record Cell := mkCell {
  row : Z;
  column : Z;
  links : gmap ref bool;
  north : option ref;
  south : option ref;
  east : option ref;
  west : option ref
}.

#[global] Instance Cell_inhabited : Inhabited Cell :=
  populate (mkCell 0 0 ∅ None None None None).

Abbreviation Heap := (gmap ref Cell).

Definition with_links (f : gmap ref bool → gmap ref bool) (c : Cell) : Cell :=
  mkCell (row c) (column c) (f (links c)) (north c) (south c) (east c) (west c).
Definition with_north (v : option ref) (c : Cell) : Cell :=
  mkCell (row c) (column c) (links c) v (south c) (east c) (west c).
Definition with_south (v : option ref) (c : Cell) : Cell :=
  mkCell (row c) (column c) (links c) (north c) v (east c) (west c).
Definition with_east (v : option ref) (c : Cell) : Cell :=
  mkCell (row c) (column c) (links c) (north c) (south c) v (west c).
Definition with_west (v : option ref) (c : Cell) : Cell :=
  mkCell (row c) (column c) (links c) (north c) (south c) (east c) v.

(** Assignment to an attribute of the object behind [self].  A Python
    reference always names a live object; the store of a grid holds
    every cell of the grid. *)
Definition update (self : ref) (f : Cell → Cell) (h : Heap) : Heap :=
  <[self := f (h !!! self)]> h.

(** [Cell(row, column)] *)
Definition Cell_init (r c : Z) : M Heap ref :=
  assert (0 <=? r);;
  assert (0 <=? c);;
  modify (insert (r, c) (mkCell r c ∅ None None None None));;
  mret (r, c).

(** [self.links[cell] = v] *)
Definition set_link (self cell : ref) (v : bool) : Heap → Heap :=
  update self (with_links (insert cell v)).

(** [self.link(cell, bidirectional)]: the recursive call has
    [bidirectional=False], so it is unrolled once. *)
Definition link (self cell : ref) (bidirectional : bool) (h : Heap) : Heap :=
  let h := set_link self cell true h in
  if bidirectional then set_link cell self true h else h.

Definition unlink (self cell : ref) (bidirectional : bool) (h : Heap) : Heap :=
  let h := set_link self cell false h in
  if bidirectional then set_link cell self false h else h.

(** [self.is_linked(cell)]: [self.links[cell]] raises [KeyError] on a
    missing key. *)
Definition is_linked (self cell : ref) (h : Heap) : outcome bool :=
  match links (h !!! self) !! cell with
  | Some b => Ret b
  | None => Raise KeyError
  end.

Definition all_links (self : ref) (h : Heap) : gmap ref bool := links (h !!! self).

(** [link_count]: the loop runs over the dictionary itself, that is over
    its keys, and compares each key with [True]. *)
Definition link_count (self : ref) (h : Heap) : Z :=
  foldl (λ i item, if py_eq (PyCell item) (PyBool true) then i + 1 else i)
        0 (map_to_list (links (h !!! self))).*1.

(** The number the docstring of [link_count] describes. *)
Definition true_entries (self : ref) (h : Heap) : Z :=
  Z.of_nat (length (filter (λ kv, kv.2 = true) (map_to_list (links (h !!! self))))).

Definition neighbors (self : ref) (h : Heap) : list ref :=
  let c := h !!! self in
  let result := [] in
  let result := match north c with Some n => result ++ [n] | None => result end in
  let result := match south c with Some n => result ++ [n] | None => result end in
  let result := match east c with Some n => result ++ [n] | None => result end in
  let result := match west c with Some n => result ++ [n] | None => result end in
  result.

(** ** class Grid *)

Record Grid := mkGrid {
  num_rows : Z;
  num_columns : Z;
  grid : list (list ref)
}.

(** [self.grid[i][j]] *)
Definition grid_get (self : Grid) (i j : Z) : outcome ref :=
  match py_index (grid self) i with
  | Ret r => py_index r j
  | Raise e => Raise e
  | Diverge => Diverge
  end.

(** [create_cells]: the source fills a list of lists with [0] and then
    stores [Cell(i, j)] at every [grid[i][j]], rows first. *)
Definition create_cells (nr nc : Z) : M Heap (list (list ref)) :=
  collect (range nr) (λ i, collect (range nc) (λ j, Cell_init i j)).

Definition connect_cells (self : Grid) : M Heap unit :=
  for_ (range (num_rows self)) (λ i,
    for_ (range (num_columns self)) (λ j,
      (if bool_decide (i ≠ num_rows self - 1) then
         a ← lift_outcome (grid_get self i j);
         b ← lift_outcome (grid_get self (i + 1) j);
         modify (link a b true);;
         modify (update a (with_south (Some b)))
       else mret tt);;
      (if bool_decide (i ≠ 0) then
         a ← lift_outcome (grid_get self i j);
         b ← lift_outcome (grid_get self (i - 1) j);
         modify (link a b true);;
         modify (update a (with_north (Some b)))
       else mret tt);;
      (if bool_decide (j ≠ num_columns self - 1) then
         a ← lift_outcome (grid_get self i j);
         b ← lift_outcome (grid_get self i (j + 1));
         modify (link a b true);;
         modify (update a (with_east (Some b)))
       else mret tt);;
      (if bool_decide (j ≠ 0) then
         a ← lift_outcome (grid_get self i j);
         b ← lift_outcome (grid_get self i (j - 1));
         modify (link a b true);;
         modify (update a (with_west (Some b)))
       else mret tt))).

(** [Grid(num_rows, num_columns)] *)
Definition Grid_init (nr nc : Z) : M Heap Grid :=
  assert (0 <? nr);;
  assert (0 <? nc);;
  g ← create_cells nr nc;
  let self := mkGrid nr nc g in
  connect_cells self;;
  mret self.

Definition unlink_all (self : Grid) : M Heap unit :=
  for_ (range (num_rows self)) (λ i,
    for_ (range (num_columns self)) (λ j,
      (if bool_decide (i ≠ num_rows self - 1) then
         a ← lift_outcome (grid_get self i j);
         b ← lift_outcome (grid_get self (i + 1) j);
         modify (unlink a b true)
       else mret tt);;
      (if bool_decide (i ≠ 0) then
         a ← lift_outcome (grid_get self i j);
         b ← lift_outcome (grid_get self (i - 1) j);
         modify (unlink a b true)
       else mret tt);;
      (if bool_decide (j ≠ num_columns self - 1) then
         a ← lift_outcome (grid_get self i j);
         b ← lift_outcome (grid_get self i (j + 1));
         modify (unlink a b true)
       else mret tt);;
      (if bool_decide (j ≠ 0) then
         a ← lift_outcome (grid_get self i j);
         b ← lift_outcome (grid_get self i (j - 1));
         modify (unlink a b true)
       else mret tt))).

Definition cell_at (self : Grid) (r c : Z) : outcome ref := grid_get self r c.

(** [deadends]: the loop variable ranges over [self.grid], whose items
    are rows, and the attribute [link_count] is read, not called. *)
Definition getattr_link_count (o : pyval) : outcome pyval :=
  match o with
  | PyCell r => Ret (PyMethod r)
  | _ => Raise AttributeError
  end.

Fixpoint deadends_loop (items : list (list ref)) (result : list pyval)
  : outcome (list pyval) :=
  match items with
  | [] => Ret result
  | item :: rest =>
      match getattr_link_count (PyRow item) with
      | Ret a =>
          if py_eq a (PyInt 1) then deadends_loop rest (result ++ [PyRow item])
          else deadends_loop rest result
      | Raise e => Raise e
      | Diverge => Diverge
      end
  end.

Definition deadends (self : Grid) : outcome (list pyval) :=
  deadends_loop (grid self) [].

(** [for c in self.each_cell(): body]: the generator calls [cell_at]
    for one position at a time, rows first. *)
Definition for_each_cell {S} (self : Grid) (body : ref → M S unit) : M S unit :=
  for_ (range (num_rows self)) (λ r,
    for_ (range (num_columns self)) (λ c,
      x ← lift_outcome (cell_at self r c);
      body x)).

Definition grid_size (self : Grid) : Z := num_columns self * num_rows self.

(** A new grid, built in an empty store. *)
Definition fresh (nr nc : Z) : outcome Grid * Heap := Grid_init nr nc ∅.

(** ** class Markup and its subclasses *)

(** A [dict] keeps its keys in insertion order, which [max] depends on. *)
Fixpoint dict_set {V} (k : ref) (v : V) (d : list (ref * V)) : list (ref * V) :=
  match d with
  | [] => [(k, v)]
  | (k', v') :: d' =>
      if bool_decide (k' = k) then (k, v) :: d' else (k', v') :: dict_set k v d'
  end.

Fixpoint dict_get {V} (k : ref) (d : list (ref * V)) : option V :=
  match d with
  | [] => None
  | (k', v') :: d' => if bool_decide (k' = k) then Some v' else dict_get k d'
  end.

(** A markup of numbers (distances). *)
Record Markup := mkMarkup {
  m_grid : Grid;
  marks : list (ref * Z);
  default : Z
}.

Definition Markup_getitem (self : Markup) (cell : ref) : Z :=
  match dict_get cell (marks self) with
  | Some v => v
  | None => default self
  end.

(** [max(self.marks.keys(), key=self.__getitem__)]: the first key of
    greatest value; [ValueError] on an empty dictionary. *)
Definition Markup_max (self : Markup) : outcome ref :=
  match (marks self).*1 with
  | [] => Raise ValueError
  | k :: ks =>
      Ret (foldl (λ best k',
                    if Markup_getitem self best <? Markup_getitem self k'
                    then k' else best) k ks)
  end.

(** [DijkstraMarkup(grid, root_cell)]: the body of [__init__] is
    [super().__init__(grid, default)] and [pass]. *)
Definition DijkstraMarkup_init (g : Grid) (root_cell : ref) : Markup :=
  mkMarkup g [] 0.

Record ColorizedMarkup := mkColorized {
  cm_grid : Grid;
  cm_marks : list (ref * list Z);
  channel : string
}.

(** [assert channel in 'RGB']: a substring test. *)
Definition ColorizedMarkup_init (g : Grid) (ch : string) : outcome ColorizedMarkup :=
  if bool_decide (ch ∈ [""; "R"; "G"; "B"; "RG"; "GB"; "RGB"]%string)
  then Ret (mkColorized g [] ch)
  else Raise AssertionError.

(** *** Python numbers

    [int / int] is a binary64 float, [n * x] multiplies floats and
    [round(x)] rounds a float to the nearest integer, ties to even.  The
    conversion below is exact for integers below [2^53] in magnitude. *)
Definition float_of_Z (z : Z) : float :=
  match z with
  | Z0 => PrimFloat.zero
  | Zpos p => PrimFloat.of_uint63 (Uint63Axioms.of_Z (Zpos p))
  | Zneg p => PrimFloat.opp (PrimFloat.of_uint63 (Uint63Axioms.of_Z (Zpos p)))
  end.

Definition py_truediv (a b : Z) : outcome float :=
  if b =? 0 then Raise ZeroDivisionError
  else Ret (PrimFloat.div (float_of_Z a) (float_of_Z b)).

Definition py_round (x : float) : outcome Z :=
  match Prim2SF x with
  | S754_zero _ => Ret 0
  | S754_finite s m e =>
      let m := Zpos m in
      let v := if 0 <=? e then m * 2 ^ e
               else let d := 2 ^ (- e) in
                    let q := m / d in
                    let r := m mod d in
                    if 2 * r <? d then q
                    else if d <? 2 * r then q + 1
                    else if Z.even q then q else q + 1 in
      Ret (if s then - v else v)
  | S754_infinity _ => Raise OverflowError
  | S754_nan => Raise ValueError
  end.

Definition cm_set (c : ref) (rgb : list Z) (self : ColorizedMarkup) : ColorizedMarkup :=
  mkColorized (cm_grid self) (dict_set c rgb (cm_marks self)) (channel self).

Definition intensity_colorize (markup : Markup) : M ColorizedMarkup unit :=
  max ← lift_outcome (Markup_max markup);
  let max_value := Markup_getitem markup max in
  self ← get_state;
  for_each_cell (cm_grid self) (λ c,
    let cell_value := Markup_getitem markup c in
    intensity ← lift_outcome (py_truediv (max_value - cell_value) max_value);
    dark ← lift_outcome (py_round (PrimFloat.mul (float_of_Z 255) intensity));
    r ← lift_outcome (py_round (PrimFloat.mul (float_of_Z 127) intensity));
    let bright := r + 128 in
    if String.eqb (channel self) "R" then modify (cm_set c [bright; dark; dark])
    else if String.eqb (channel self) "G" then modify (cm_set c [dark; bright; dark])
    else modify (cm_set c [dark; dark; bright])).

(** [not x] for an argument that is [None] or an integer. *)
Definition py_not (x : option Z) : bool :=
  match x with
  | None => true
  | Some z => z =? 0
  end.

(** The cell that [colorize_dijkstra] hands to [DijkstraMarkup]. *)
Definition start_cell (g : Grid) (start_row start_column : option Z) : outcome ref :=
  let start_row :=
    match start_row with
    | Some r => if py_not (Some r) then num_rows g / 2 else r
    | None => num_rows g / 2
    end in
  let start_column :=
    match start_column with
    | Some c => if py_not (Some c) then num_columns g / 2 else c
    | None => num_columns g / 2
    end in
  cell_at g start_row start_column.

Definition colorize_dijkstra (start_row start_column : option Z)
  : M ColorizedMarkup unit :=
  self ← get_state;
  c ← lift_outcome (start_cell (cm_grid self) start_row start_column);
  let dm := DijkstraMarkup_init (cm_grid self) c in
  intensity_colorize dm.

(** ** The random module

    The generator is a tape of draws; each call takes the next draw and
    reduces it into the range the call asks for, so that every result
    the call can return comes from some tape. *)

Record World := mkWorld {
  heap : Heap;
  rnd : nat → nat
}.

Definition liftH {A} (m : M Heap A) : M World A := λ w,
  let '(o, h) := m (heap w) in (o, mkWorld h (rnd w)).

Definition get_heap : M World Heap := λ w, (Ret (heap w), w).

Definition draw : M World Z := λ w,
  (Ret (Z.of_nat (rnd w 0%nat)), mkWorld (heap w) (λ k, rnd w (S k))).

(** [random.randint(a, b)]: an integer in [a..b]. *)
Definition randint (a b : Z) : M World Z :=
  if b <? a then raise ValueError
  else x ← draw; mret (a + x mod (b - a + 1)).

(** [random.randrange(a, b)]: an integer in [a..b-1]. *)
Definition randrange (a b : Z) : M World Z :=
  if b <=? a then raise ValueError
  else x ← draw; mret (a + x mod (b - a)).

(** [random.choice(l)] *)
Definition choice {A} (l : list A) : M World A :=
  match l with
  | [] => raise IndexError
  | _ => x ← draw; lift_outcome (py_index l (x mod len l))
  end.

Definition random_cell (self : Grid) : M World ref :=
  i ← randint 0 (num_rows self - 1);
  j ← randint 0 (num_columns self - 1);
  lift_outcome (grid_get self i j).

(** [self.link(o)] and [self.unlink(o)] where [o] is an attribute that
    may hold [None]: the method asserts [isinstance(cell, Cell)]. *)
Definition link_obj (self : ref) (o : option ref) : M World unit :=
  match o with
  | Some cell => liftH (modify (link self cell true))
  | None => raise AssertionError
  end.

Definition unlink_obj (self : ref) (o : option ref) : M World unit :=
  match o with
  | Some cell => liftH (modify (unlink self cell true))
  | None => raise AssertionError
  end.

(** ** binary_tree

    The two [while] loops count [i] from [num_rows-1] down to [0] and
    [j] from [0] up to [num_columns-1]. *)
Definition binary_tree (g : Grid) : M World unit :=
  for_ (reverse (range (num_rows g))) (λ i,
    for_ (range (num_columns g)) (λ j,
      if bool_decide (i = 0) && bool_decide (j = num_columns g - 1) then mret tt
      else if bool_decide (i = 0) then
        a ← lift_outcome (cell_at g i j);
        b ← lift_outcome (cell_at g i (j + 1));
        liftH (modify (link a b true))
      else if bool_decide (j = num_columns g - 1) then
        a ← lift_outcome (cell_at g i j);
        b ← lift_outcome (cell_at g (i - 1) j);
        liftH (modify (link a b true))
      else
        r ← randint 0 1;
        (if r =? 0 then
           a ← lift_outcome (cell_at g i j);
           b ← lift_outcome (cell_at g i (j + 1));
           liftH (modify (unlink a b true))
         else mret tt);;
        (if r =? 1 then
           a ← lift_outcome (cell_at g i j);
           b ← lift_outcome (cell_at g (i - 1) j);
           liftH (modify (unlink a b true))
         else mret tt))).

(** Reading an attribute of the object behind [r]. *)
Definition attr {X} (f : Cell → X) (r : ref) : M World X :=
  h ← get_heap; mret (f (h !!! r)).

(** ** sidewinder

    [i] counts from [num_rows-1] down to [1], [j] from [0] up to
    [num_columns-1]; [run] is the list the inner loop appends to and
    clears. *)
Definition sidewinder (g : Grid) (odds : float) : M World unit :=
  assert (PrimFloat.leb PrimFloat.zero odds);;
  assert (PrimFloat.ltb odds PrimFloat.one);;
  for_ (reverse (range2 1 (num_rows g))) (λ i,
    foldM (range (num_columns g)) [] (λ run j,
      k ← randrange 0 10;
      let r := PrimFloat.div (float_of_Z k) (float_of_Z 10) in
      if PrimFloat.leb r odds && bool_decide (j ≠ num_columns g - 1) then
        c ← lift_outcome (cell_at g i j);
        mret (run ++ [c])
      else
        c ← lift_outcome (cell_at g i j);
        let run := run ++ [c] in
        r1 ← randrange 0 (len run);
        for_ (range (len run)) (λ a,
          (if bool_decide (j ≠ num_columns g - 1) then
             x ← lift_outcome (py_index run a);
             e ← attr east x;
             link_obj x e
           else mret tt);;
          (if bool_decide (a ≠ r1) then
             x ← lift_outcome (py_index run a);
             n ← attr north x;
             unlink_obj x n
           else
             x ← lift_outcome (py_index run a);
             n ← attr north x;
             link_obj x n));;
        last ← lift_outcome (py_index run (len run - 1));
        col ← attr column last;
        (if bool_decide (col ≠ num_columns g - 1) then
           e ← attr east last;
           unlink_obj last e
         else mret tt);;
        x ← lift_outcome (py_index run r1);
        n ← attr north x;
        link_obj x n;;
        mret []);;
    mret tt).

(** ** aldous_broder

    [fuel] bounds the iterations of the outer loop and, separately, of
    every run of the inner [while again] loop.  The result is
    [iteration_count], which the function prints. *)

(** [linked_cells.get(cell, 1) == 1] *)
Definition not_yet_linked (linked_cells : gmap ref ref) (cell : ref) : bool :=
  py_eq (match linked_cells !! cell with Some c => PyCell c | None => PyInt 1 end)
        (PyInt 1).

Fixpoint ab_direction (fuel : nat) (linked_cells : gmap ref ref) (next_cell : ref)
  : M World ref :=
  match fuel with
  | O => diverge
  | S fuel' =>
      r ← randint 1 4;
      let cell := next_cell in
      c ← attr id cell;
      let move (n : ref) : M World ref :=
        (if not_yet_linked linked_cells n
         then liftH (modify (link cell n true)) else mret tt);;
        mret n in
      match (if r =? 1 then north c else None) with
      | Some n => move n
      | None =>
      match (if r =? 2 then south c else None) with
      | Some n => move n
      | None =>
      match (if r =? 3 then east c else None) with
      | Some n => move n
      | None =>
      match (if r =? 4 then west c else None) with
      | Some n => move n
      | None => ab_direction fuel' linked_cells next_cell
      end end end end
  end.

Fixpoint ab_loop (fuel again_fuel : nat) (g : Grid) (linked_cells : gmap ref ref)
    (iteration_count : Z) (next_cell : ref) : M World Z :=
  match fuel with
  | O => diverge
  | S fuel' =>
      if Z.of_nat (size linked_cells) <=? grid_size g then
        let iteration_count := iteration_count + 1 in
        if Z.of_nat (size linked_cells) =? grid_size g then mret iteration_count
        else
          let linked_cells :=
            if not_yet_linked linked_cells next_cell
            then <[next_cell := next_cell]> linked_cells else linked_cells in
          next_cell ← ab_direction again_fuel linked_cells next_cell;
          ab_loop fuel' again_fuel g linked_cells iteration_count next_cell
      else mret iteration_count
  end.

Definition aldous_broder (fuel : nat) (g : Grid) : M World Z :=
  liftH (unlink_all g);;
  r1 ← randrange 0 (num_rows g);
  r2 ← randrange 0 (num_columns g);
  next_cell ← lift_outcome (cell_at g r1 r2);
  ab_loop fuel fuel g ∅ 0 next_cell.

(** ** wilson

    [fuel] bounds each of the three [while] loops.  The result is the
    pair [(random_choices, loops_removed)], which the function prints. *)

(** The [while redo] loop: one more cell is appended to [path]. *)
Fixpoint wilson_redo (fuel : nat) (path : list ref) (i random_choices : Z)
  : M World (list ref * Z) :=
  match fuel with
  | O => diverge
  | S fuel' =>
      r ← randint 1 4;
      let random_choices := random_choices + 1 in
      temp ← lift_outcome (py_index path (i - 1));
      c ← attr id temp;
      match (if r =? 1 then north c else None) with
      | Some n => mret (path ++ [n], random_choices)
      | None =>
      match (if r =? 2 then south c else None) with
      | Some n => mret (path ++ [n], random_choices)
      | None =>
      match (if r =? 3 then east c else None) with
      | Some n => mret (path ++ [n], random_choices)
      | None =>
      match (if r =? 4 then west c else None) with
      | Some n => mret (path ++ [n], random_choices)
      | None => wilson_redo fuel' path i random_choices
      end end end end
  end.

(** [for t in range(len(path))]: at the first [t] with
    [path[t] == path[i]] the cells after [t] are deleted and the loop
    is left. *)
Fixpoint wilson_erase (ts : list Z) (path : list ref) (i loops_removed : Z)
  : outcome (list ref * Z * Z) :=
  match ts with
  | [] => Ret (path, i, loops_removed)
  | t :: ts' =>
      pt ← py_index path t;
      pi ← py_index path i;
      if py_eq (PyCell pt) (PyCell pi) then
        path ← foldO (range2 (t + 1) (i + 1)) path (λ path _, py_del path (t + 1));
        Ret (path, t, loops_removed + 1)
      else wilson_erase ts' path i loops_removed
  end.

(** [for item in visited: if path[i] == item: q = True; break] *)
Fixpoint wilson_hit (visited : list ref) (path : list ref) (i : Z) : outcome bool :=
  match visited with
  | [] => Ret false
  | item :: rest =>
      pi ← py_index path i;
      if py_eq (PyCell pi) (PyCell item) then Ret true
      else wilson_hit rest path i
  end.

(** The [while q == False] loop. *)
Fixpoint wilson_walk (fuel redo_fuel : nat) (visited path : list ref)
    (i random_choices loops_removed : Z) : M World (list ref * Z * Z) :=
  match fuel with
  | O => diverge
  | S fuel' =>
      let i := i + 1 in
      '(path, random_choices) ← wilson_redo redo_fuel path i random_choices;
      '(path, i, loops_removed) ←
        lift_outcome (wilson_erase (range (len path)) path i loops_removed);
      q ← lift_outcome (wilson_hit visited path i);
      if q : bool then mret (path, random_choices, loops_removed)
      else wilson_walk fuel' redo_fuel visited path i random_choices loops_removed
  end.

Fixpoint wilson_loop (fuel inner_fuel : nat) (g : Grid) (unvisited visited : list ref)
    (random_choices loops_removed : Z) : M World (Z * Z) :=
  match fuel with
  | O => diverge
  | S fuel' =>
      if len visited <=? grid_size g then
        if len visited =? grid_size g then mret (random_choices, loops_removed)
        else
          start ← choice unvisited;
          let path := [start] in
          '(path, random_choices, loops_removed) ←
            wilson_walk inner_fuel inner_fuel visited path 0
                        random_choices loops_removed;
          '(unvisited, visited) ←
            foldM (range2 0 (len path - 1)) (unvisited, visited)
              (λ '(unvisited, visited) t,
                 pt ← lift_outcome (py_index path t);
                 let visited := visited ++ [pt] in
                 pt ← lift_outcome (py_index path t);
                 unvisited ← lift_outcome (py_remove pt unvisited);
                 a ← lift_outcome (py_index path t);
                 b ← lift_outcome (py_index path (t + 1));
                 liftH (modify (link a b true));;
                 mret (unvisited, visited));
          wilson_loop fuel' inner_fuel g unvisited visited random_choices loops_removed
      else mret (random_choices, loops_removed)
  end.

Definition wilson (fuel : nat) (g : Grid) : M World (Z * Z) :=
  liftH (unlink_all g);;
  unvisited ←
    foldM (range (num_rows g)) [] (λ unvisited i,
      foldM (range (num_columns g)) unvisited (λ unvisited j,
        c ← lift_outcome (cell_at g i j);
        mret (unvisited ++ [c])));
  a ← choice unvisited;
  unvisited ← lift_outcome (py_remove a unvisited);
  let visited := [a] in
  wilson_loop fuel fuel g unvisited visited 0 0.

(** ** recursive_backtracker *)

(** [x == item or x == None] for an attribute [x]. *)
Definition is_or_none (x : option ref) (item : ref) : bool :=
  py_eq (from_option PyCell PyNone x) (PyCell item)
  || py_eq (from_option PyCell PyNone x) PyNone.

(** The loop over [visited] that sets the flags [N], [S], [E] and [W]: every
    test that succeeds ends the iteration with [continue]. *)
Definition rb_flags (visited : list ref) (c : Cell) : bool * bool * bool * bool :=
  foldl (λ '(N_, S_, E_, W_) item,
           if is_or_none (north c) item then (true, S_, E_, W_)
           else if is_or_none (south c) item then (N_, true, E_, W_)
           else if is_or_none (east c) item then (N_, S_, true, W_)
           else if is_or_none (west c) item then (N_, S_, E_, true)
           else (N_, S_, E_, W_))
        (false, false, false, false) visited.

Fixpoint rb_loop (fuel : nat) (g : Grid) (stack visited : list ref) (i : Z)
  : M World unit :=
  match fuel with
  | O => diverge
  | S fuel' =>
      if len visited <=? grid_size g then
        if len visited =? grid_size g then mret tt
        else
          (* [print(... stack[i])]; the loop below reads [stack[i]] again *)
          top ← lift_outcome (py_index stack i);
          c ← attr id top;
          let '(N_, S_, E_, W_) := rb_flags visited c in
          if N_ && S_ && E_ && W_ then
            stack ← lift_outcome (py_del stack i);
            let i := len stack - 1 in
            (* [print(... stack[i])] *)
            _ ← lift_outcome (py_index stack i);
            rb_loop fuel' g stack visited i
          else
            r ← randint 1 4;
            let i := len stack - 1 in
            top ← lift_outcome (py_index stack i);
            c ← attr id top;
            let push (n : ref) : M World unit :=
              let stack := stack ++ [n] in
              let visited := visited ++ [n] in
              liftH (modify (link top n true));;
              rb_loop fuel' g stack visited (len stack - 1) in
            match (if (r =? 1) && negb N_ then north c else None) with
            | Some n => push n
            | None =>
            match (if (r =? 2) && negb S_ then south c else None) with
            | Some n => push n
            | None =>
            match (if (r =? 3) && negb E_ then east c else None) with
            | Some n => push n
            | None =>
            match (if (r =? 4) && negb W_ then west c else None) with
            | Some n => push n
            | None => rb_loop fuel' g stack visited (len stack - 1)
            end end end end
      else mret tt
  end.

Definition recursive_backtracker (fuel : nat) (g : Grid) (start_cell : option ref)
  : M World unit :=
  start_cell ← match start_cell with
               | None => random_cell g
               | Some c => mret c
               end;
  let i := 0 in
  let stack := [start_cell] in
  let visited := [start_cell] in
  liftH (unlink_all g);;
  rb_loop fuel g stack visited i.

(** ** Notions used in the statements *)

(** The entry for [b] in the link table of [a]. *)
Definition entry (h : Heap) (a b : ref) : option bool := links (h !!! a) !! b.

(** [a] has a carved passage to [b]. *)
Definition linked (h : Heap) (a b : ref) : Prop := entry h a b = Some true.

Definition cells (g : Grid) : list ref := concat (grid g).

(** Every cell is reachable from every other cell through links whose
    state is [True]. *)
Definition connected (g : Grid) (h : Heap) : Prop :=
  ∀ a b, a ∈ cells g → b ∈ cells g → rtc (linked h) a b.

(** Link tables agree in both directions. *)
Definition symmetric (h : Heap) : Prop := ∀ a b, entry h a b = entry h b a.

(** The rows that [create_cells] builds. *)
Definition grid_rows (nr nc : Z) : list (list ref) :=
  (λ i, (λ j, (i, j)) <$> range nc) <$> range nr.

Definition in_grid (nr nc : Z) (a : ref) : Prop :=
  0 ≤ a.1 < nr ∧ 0 ≤ a.2 < nc.

(** Geographic neighbours: one step north, south, east or west. *)
Definition adjacent (nr nc : Z) (a b : ref) : Prop :=
  in_grid nr nc a ∧ in_grid nr nc b ∧ Z.abs (a.1 - b.1) + Z.abs (a.2 - b.2) = 1.

(** Calls of [link] and [unlink] made from outside the class. *)
Inductive call :=
  | Link (self cell : ref) (bidirectional : bool)
  | Unlink (self cell : ref) (bidirectional : bool).

Definition run_call (h : Heap) (c : call) : Heap :=
  match c with
  | Link self cell d => link self cell d h
  | Unlink self cell d => unlink self cell d h
  end.

Definition run_calls (cs : list call) (h : Heap) : Heap := foldl run_call h cs.

Definition is_bidirectional (c : call) : bool :=
  match c with Link _ _ d | Unlink _ _ d => d end.

(** [other] is passed to [link] or [unlink] on [self], by the caller or
    by the inner call that a bidirectional call on [other] makes. *)
Definition passed (self other : ref) (c : call) : Prop :=
  match c with
  | Link a b d | Unlink a b d =>
      (a = self ∧ b = other) ∨ (d = true ∧ a = other ∧ b = self)
  end.

(** The tape that starts with the draws [l] and goes on with [0]. *)
Definition tape (l : list nat) : nat → nat := λ k, nth k l 0%nat.

(** A computation returns normally, in a state and with a value that
    satisfy [Q]. *)
Definition returns {S A} (m : M S A) (s : S) (Q : A → S → Prop) : Prop :=
  ∃ a s', m s = (Ret a, s') ∧ Q a s'.

#[global] Instance passed_dec self other c : Decision (passed self other c).
Proof. destruct c; apply _. Defined.

(** The position that a Python index names in a list of length [n]. *)
Definition wrap (n i : Z) : Z := if decide (i < 0) then n + i else i.

(** The table of [a] exists and holds [False] for [b]. *)
Definition unlinked (h : Heap) (a b : ref) : Prop :=
  ∃ c, h !! a = Some c ∧ links c !! b = Some false.

(** What one round of the loop body of [unlink_all] does to the store. *)
Definition unlink_around (nr nc : Z) (p : ref) (h : Heap) : Heap :=
  let '(i, j) := p in
  let h := if bool_decide (i ≠ nr - 1) then unlink (i, j) (i + 1, j) true h else h in
  let h := if bool_decide (i ≠ 0) then unlink (i, j) (i - 1, j) true h else h in
  let h := if bool_decide (j ≠ nc - 1) then unlink (i, j) (i, j + 1) true h else h in
  if bool_decide (j ≠ 0) then unlink (i, j) (i, j - 1) true h else h.

(** Tables hold geographic neighbours only, and agree in both
    directions. *)
Definition tidy (nr nc : Z) (h : Heap) : Prop :=
  symmetric h ∧ ∀ x y, is_Some (entry h x y) → adjacent nr nc x y.

(** The state after one draw. *)
Definition next (w : World) : World := mkWorld (heap w) (λ k, rnd w (S k)).

(** A cell without geographic neighbours. *)
Definition isolated (c : Cell) : Prop :=
  north c = None ∧ south c = None ∧ east c = None ∧ west c = None.

(** What [binary_tree] has settled once the cells [done] are visited:
    a visited cell of the top row is linked to its east neighbour, a
    visited cell of the last column to its north neighbour, and every
    table still holds geographic neighbours only. *)
Definition bt_settled (nr nc : Z) (done : list ref) (h : Heap) : Prop :=
  (∀ j, (0, j) ∈ done → j ≠ nc - 1 →
     entry h (0, j) (0, j + 1) = Some true ∧ entry h (0, j + 1) (0, j) = Some true)
  ∧ (∀ i, (i, nc - 1) ∈ done → i ≠ 0 →
       entry h (i, nc - 1) (i - 1, nc - 1) = Some true
       ∧ entry h (i - 1, nc - 1) (i, nc - 1) = Some true)
  ∧ (∀ x y, is_Some (entry h x y) → adjacent nr nc x y).

(** Every pair of geographic neighbours is linked. *)
Definition fully_linked (nr nc : Z) (h : Heap) : Prop :=
  ∀ a b, adjacent nr nc a b → linked h a b.

(** The passage that [binary_tree] leaves to a cell: north or east,
    except for the cell in the top right corner. *)
Definition bt_parent (nc : Z) (h : Heap) (p : ref) : Prop :=
  p = (0, nc - 1)
  ∨ (p.1 ≠ 0 ∧ linked h p (p.1 - 1, p.2))
  ∨ (p.2 ≠ nc - 1 ∧ linked h p (p.1, p.2 + 1)).

(** The state of the carving once the cells [done] are visited: a
    visited cell has kept one passage, a cell still to visit has both. *)
Definition bt_carved (nr nc : Z) (done : list ref) (h : Heap) : Prop :=
  symmetric h
  ∧ (∀ p, p ∈ done → bt_parent nc h p)
  ∧ (∀ p, in_grid nr nc p → p ∉ done →
       (p.1 ≠ 0 → linked h p (p.1 - 1, p.2))
       ∧ (p.2 ≠ nc - 1 → linked h p (p.1, p.2 + 1))).

#[global] Instance linked_dec h a b : Decision (linked h a b).
Proof. unfold linked. apply _. Defined.

(** A search over the links whose state is [True]: [n] rounds from the
    cells [seen], each adding the cells that a seen cell is linked to. *)
Fixpoint reach (n : nat) (g : Grid) (h : Heap) (seen : list ref) : list ref :=
  match n with
  | O => seen
  | S n' =>
      reach n' g h
        (seen ++ List.filter
                   (λ b, negb (bool_decide (b ∈ seen))
                         && existsb (λ a, bool_decide (linked h a b)) seen)
                   (cells g))
  end.

Definition connectedb (g : Grid) (h : Heap) : bool :=
  forallb (λ a,
    let found := reach (length (cells g)) g h [a] in
    forallb (λ b, bool_decide (b ∈ found)) (cells g))
    (cells g).

(** The positions of a grid in the order of the loops of [unlink_all],
    and the store after the loop body has run at each of [l]. *)
Definition positions (nr nc : Z) : list ref :=
  i ← range nr; j ← range nc; [(i, j)].

Definition unlink_pass (nr nc : Z) (h : Heap) (l : list ref) : Heap :=
  foldl (λ h p, unlink_around nr nc p h) h l.

(** The grid that [Grid(nr, nc)] returns. *)
Abbreviation rect nr nc := (mkGrid nr nc (grid_rows nr nc)).

(** ** Grid.each_cell, Grid.each_row and the attributes of the cells of a grid *)

(** [list(self.each_cell())]: the cells the generator yields. *)
Definition each_cell (self : Grid) : outcome (list ref) :=
  foldO (range (num_rows self)) [] (λ acc r,
    foldO (range (num_columns self)) acc (λ acc c,
      x ← cell_at self r c; Ret (acc ++ [x]))).

(** [list(self.each_row())] *)
Definition each_row (self : Grid) : list (list ref) := grid self.

(** The cell that [Cell(r, c)] builds. *)
Definition blank (p : ref) : Cell := mkCell p.1 p.2 ∅ None None None None.

(** The attributes of the cell at [p] once [connect_cells] is done. *)
Definition placed (nr nc : Z) (p : ref) (c : Cell) : Prop :=
  row c = p.1 ∧ column c = p.2
  ∧ north c = (if decide (p.1 = 0) then None else Some (p.1 - 1, p.2))
  ∧ south c = (if decide (p.1 = nr - 1) then None else Some (p.1 + 1, p.2))
  ∧ east c = (if decide (p.2 = nc - 1) then None else Some (p.1, p.2 + 1))
  ∧ west c = (if decide (p.2 = 0) then None else Some (p.1, p.2 - 1)).

(** The store holds every cell of the grid, with its attributes. *)
Definition wired (nr nc : Z) (h : Heap) : Prop :=
  ∀ p, in_grid nr nc p → is_Some (h !! p) ∧ placed nr nc p (h !!! p).

(** The attributes of a cell apart from its link table. *)
Definition geometry (c : Cell) : Z * Z * option ref * option ref * option ref * option ref :=
  (row c, column c, north c, south c, east c, west c).

(** The attributes while [connect_cells] runs: not yet assigned, or final. *)
Definition half_placed (nr nc : Z) (p : ref) (c : Cell) : Prop :=
  row c = p.1 ∧ column c = p.2
  ∧ (north c = None ∨ north c = (if decide (p.1 = 0) then None else Some (p.1 - 1, p.2)))
  ∧ (south c = None ∨ south c = (if decide (p.1 = nr - 1) then None else Some (p.1 + 1, p.2)))
  ∧ (east c = None ∨ east c = (if decide (p.2 = nc - 1) then None else Some (p.1, p.2 + 1)))
  ∧ (west c = None ∨ west c = (if decide (p.2 = 0) then None else Some (p.1, p.2 - 1))).

(** ** Methods of Markup *)

(** [Markup(grid, default)] *)
Definition Markup_init (g : Grid) (d : Z) : Markup := mkMarkup g [] d.

(** [self.reset()] *)
Definition Markup_reset (self : Markup) : Markup :=
  mkMarkup (m_grid self) [] (default self).

(** [self[cell] = value] *)
Definition Markup_setitem (cell : ref) (value : Z) (self : Markup) : Markup :=
  mkMarkup (m_grid self) (dict_set cell value (marks self)) (default self).

(** [set_item_at]: [if cell:] holds for every [Cell] object, since the
    class defines neither [__bool__] nor [__len__]; the [else] branch
    is never taken. *)
Definition set_item_at (r c value : Z) : M Markup unit :=
  self ← get_state;
  assert ((0 <=? r) && (r <? num_rows (m_grid self)));;
  assert ((0 <=? c) && (c <? num_columns (m_grid self)));;
  cell ← lift_outcome (cell_at (m_grid self) r c);
  modify (Markup_setitem cell value).

(** [get_item_at]: [self.marks.get(cell)] is [None] for a cell without
    a mark. *)
Definition get_item_at (r c : Z) : M Markup (option Z) :=
  self ← get_state;
  assert ((0 <=? r) && (r <? num_rows (m_grid self)));;
  assert ((0 <=? c) && (c <? num_columns (m_grid self)));;
  cell ← lift_outcome (cell_at (m_grid self) r c);
  mret (dict_get cell (marks self)).

(** [min(self.marks.keys(), key=self.__getitem__)]: the first key of
    least value. *)
Definition Markup_min (self : Markup) : outcome ref :=
  match (marks self).*1 with
  | [] => Raise ValueError
  | k :: ks =>
      Ret (foldl (λ best k',
                    if Markup_getitem self k' <? Markup_getitem self best
                    then k' else best) k ks)
  end.

(** ** Invariants of the algorithms

    *** binary_tree *)

(** An inner cell that [binary_tree] has visited has given up its north
    or its east passage. *)
Definition bt_dropped (nc : Z) (done : list ref) (h : Heap) : Prop :=
  ∀ p, p ∈ done → p.1 ≠ 0 → p.2 ≠ nc - 1 →
    entry h p (p.1 - 1, p.2) = Some false ∨ entry h p (p.1, p.2 + 1) = Some false.

(** *** Results that may be exceptions, and the stores of a grid *)

(** A result of the computation is a value and a state that satisfy
    [Q], an exception that [E] allows, or a loop that ran out of fuel. *)
Definition ensures {S A} (E : exn → Prop) (m : M S A) (s : S) (Q : A → S → Prop)
  : Prop :=
  match m s with
  | (Ret a, s') => Q a s'
  | (Raise e, _) => E e
  | (Diverge, _) => True
  end.

(** What a carving algorithm works on: the store of a grid whose cells
    are wired, with link tables that agree in both directions and hold
    geographic neighbours only. *)
Definition maze (nr nc : Z) (h : Heap) : Prop := wired nr nc h ∧ tidy nr nc h.

(** *** wilson *)

(** Consecutive cells of a path are geographic neighbours. *)
Definition chain (nr nc : Z) (path : list ref) : Prop :=
  ∀ (k : nat) x y, path !! k = Some x → path !! S k = Some y → adjacent nr nc x y.

(** The path of a loop-erased walk that has not yet met a visited cell. *)
Definition walking (nr nc : Z) (visited path : list ref) : Prop :=
  path ≠ [] ∧ NoDup path ∧ Forall (in_grid nr nc) path ∧ chain nr nc path
  ∧ Forall (λ x, x ∉ visited) path.

(** The path of a walk that has ended: its last cell, and no other, is
    visited. *)
Definition arrived (nr nc : Z) (visited path : list ref) : Prop :=
  NoDup path ∧ Forall (in_grid nr nc) path ∧ chain nr nc path
  ∧ ∃ pre x, path = pre ++ [x] ∧ x ∈ visited ∧ Forall (λ y, y ∉ visited) pre.

(** *** sidewinder *)

(** The cell [(i, j)] lies in a run [a..b] of row [i] whose cells are
    linked eastwards, one of which is linked to the north; the run ends
    before column [hi]. *)
Definition escape (h : Heap) (i j hi : Z) : Prop :=
  ∃ a b r, 0 ≤ a ∧ a ≤ j ∧ j ≤ b ∧ b < hi ∧ a ≤ r ∧ r ≤ b
    ∧ (∀ k, a ≤ k < b → linked h (i, k) (i, k + 1))
    ∧ linked h (i, r) (i - 1, r).

(** The state of [sidewinder] while it works on row [i] with an open
    run that starts at column [s]: the rows above and the rest of the
    row still have their east links, the cells before [s] and the rows
    below have been carved. *)
Definition sw_inv (nr nc i s : Z) (h : Heap) : Prop :=
  maze nr nc h
  ∧ (∀ i' j, 0 ≤ i' < i → 0 ≤ j < nc - 1 → linked h (i', j) (i', j + 1))
  ∧ (∀ j, s ≤ j < nc - 1 → linked h (i, j) (i, j + 1))
  ∧ (∀ j, 0 ≤ j < s → escape h i j s)
  ∧ (∀ i' j, i < i' < nr → 0 ≤ j < nc → escape h i' j nc).

(** The cells of row [i] from column [s] up to column [j-1]. *)
Definition run_cells (i s j : Z) : list ref := (λ k, (i, k)) <$> range2 s j.

(** *** recursive_backtracker *)

(** What [recursive_backtracker] keeps while it carves from [start]:
    the cells on the stack are visited, the visited cells are cells of
    the grid that the passages join to [start], every passage lies
    between visited cells, and every visited cell has a cell of its
    column, itself or one further north, on the stack. *)
Definition rb_inv (nr nc : Z) (start : ref) (stack visited : list ref) (h : Heap)
  : Prop :=
  maze nr nc h
  ∧ (∀ x, x ∈ stack → x ∈ visited)
  ∧ (∀ x, x ∈ visited → in_grid nr nc x ∧ rtc (linked h) start x)
  ∧ (∀ x y, linked h x y → x ∈ visited ∧ y ∈ visited)
  ∧ start ∈ visited
  ∧ (∀ x, x ∈ visited → ∃ y, y ∈ stack ∧ y.2 = x.2 ∧ y.1 ≤ x.1).

(** * Properties *)

Ltac decide_cases :=
  repeat match goal with
         | |- context [decide ?P] => destruct (decide P)
         end.

#[local] Arguments unlink : simpl never.
#[local] Arguments link : simpl never.
#[local] Arguments fresh : simpl never.

(** ** The monad and its loops *)

Section monad.
Context {S : Type}.

Lemma bind_eq {A B} (m : M S A) (f : A → M S B) s :
  (m ≫= f) s = match m s with
               | (Ret a, s') => f a s'
               | (Raise e, s') => (Raise e, s')
               | (Diverge, s') => (Diverge, s')
               end.
Proof. reflexivity. Qed.

Lemma bind_ret_l {A B} (a : A) (f : A → M S B) s : (mret a ≫= f) s = f a s.
Proof. reflexivity. Qed.

Lemma bind_step {A B} (m : M S A) (f : A → M S B) s a s' :
  m s = (Ret a, s') → (m ≫= f) s = f a s'.
Proof. intros H. rewrite bind_eq, H. reflexivity. Qed.

Lemma returns_ret {A} (a : A) s (Q : A → S → Prop) :
  Q a s → returns (mret a) s Q.
Proof. intros. exists a, s. auto. Qed.

Lemma returns_bind {A B} (m : M S A) (f : A → M S B) s (Q : B → S → Prop) :
  returns m s (λ a s', returns (f a) s' Q) → returns (m ≫= f) s Q.
Proof.
  intros (a & s' & Hm & b & s'' & Hf & HQ).
  exists b, s''. split; [|done]. by rewrite (bind_step _ _ _ _ _ Hm).
Qed.

Lemma returns_modify (f : S → S) s (Q : unit → S → Prop) :
  Q tt (f s) → returns (modify f) s Q.
Proof. intros. exists tt, (f s). auto. Qed.

Lemma returns_lift {A} (o : outcome A) a s (Q : A → S → Prop) :
  o = Ret a → Q a s → returns (lift_outcome o) s Q.
Proof. intros -> ?. exists a, s. auto. Qed.

Lemma returns_mono {A} (m : M S A) s (Q Q' : A → S → Prop) :
  returns m s Q → (∀ a s', Q a s' → Q' a s') → returns m s Q'.
Proof. intros (a & s' & ? & ?) HQ. exists a, s'. auto. Qed.

Lemma for_app {A} (l l' : list A) (body : A → M S unit) s :
  for_ (l ++ l') body s = (for_ l body;; for_ l' body) s.
Proof.
  revert s. induction l as [|x l IH]; intros s; simpl; [done|].
  rewrite !bind_eq. destruct (body x s) as [[[]| |] s1]; auto.
Qed.

(** Two nested loops are one loop over the pairs of indices. *)
Lemma for_nested {A B} (l1 : list A) (l2 : list B) (body : A → B → M S unit) s :
  for_ l1 (λ i, for_ l2 (body i)) s
  = for_ (i ← l1; j ← l2; [(i, j)]) (λ p, body p.1 p.2) s.
Proof.
  revert s. induction l1 as [|i l1 IH]; intros s; simpl; [done|].
  rewrite for_app, !bind_eq.
  assert (∀ s, for_ (j ← l2; [(i, j)]) (λ p, body p.1 p.2) s = for_ l2 (body i) s) as ->.
  { clear. induction l2 as [|j l2 IH2]; intros s; simpl; [done|].
    rewrite !bind_eq. destruct (body i j s) as [[[]| |] s1]; auto. }
  destruct (for_ l2 (body i) s) as [[[]| |] s1]; auto.
Qed.

(** A loop keeps an invariant that may mention the items done so far. *)
Lemma returns_for {A} (I : list A → S → Prop) (l : list A) (body : A → M S unit) s :
  I [] s →
  (∀ pre x post s, l = pre ++ x :: post → I pre s →
     returns (body x) s (λ _ s', I (pre ++ [x]) s')) →
  returns (for_ l body) s (λ _ s', I l s').
Proof.
  intros H0 Hbody.
  enough (∀ post pre s, l = pre ++ post → I pre s →
            returns (for_ post body) s (λ _ s', I l s')) as Hgen.
  { by apply (Hgen l [] s). }
  clear s H0. induction post as [|x post IH]; intros pre s Hl Hpre; simpl.
  - apply returns_ret. by rewrite Hl, app_nil_r.
  - apply returns_bind. eapply returns_mono; [by eapply Hbody|].
    intros [] s' Hs'. simpl in Hs'. apply (IH (pre ++ [x])); [|done].
    by rewrite <- app_assoc.
Qed.

Lemma returns_for_inv {A} (I : S → Prop) (l : list A) (body : A → M S unit) s :
  I s →
  (∀ x s, x ∈ l → I s → returns (body x) s (λ _ s', I s')) →
  returns (for_ l body) s (λ _ s', I s').
Proof.
  intros H0 Hbody. apply (returns_for (λ _, I)); [done|].
  intros pre x post s' -> Hs'. apply Hbody; [|done].
  apply elem_of_app. right. apply list_elem_of_here.
Qed.
End monad.

(** ** Link tables *)

Section link_tables.
Implicit Types (h : Heap) (a b x y : ref) (v d : bool).

Lemma entry_update_links a (f : gmap ref bool → gmap ref bool) h x y :
  entry (update a (with_links f) h) x y
  = if decide (x = a) then f (links (h !!! a)) !! y else entry h x y.
Proof.
  unfold entry, update. case_decide as Hx.
  - subst x. by rewrite lookup_total_insert_eq.
  - by rewrite lookup_total_insert_ne.
Qed.

Lemma entry_set_link a b v h x y :
  entry (set_link a b v h) x y
  = if decide (x = a ∧ y = b) then Some v else entry h x y.
Proof.
  unfold set_link. rewrite entry_update_links.
  destruct (decide (x = a)) as [->|Hx].
  - destruct (decide (y = b)) as [->|Hy].
    + rewrite lookup_insert_eq. by rewrite decide_True.
    + rewrite lookup_insert_ne by done. rewrite decide_False by tauto. done.
  - by rewrite decide_False by tauto.
Qed.

(** Assigning [north], [south], [east] or [west] leaves the links. *)
Lemma entry_update_other a (f : Cell → Cell) h x y :
  (∀ c, links (f c) = links c) →
  entry (update a f h) x y = entry h x y.
Proof.
  intros Hf. unfold entry, update.
  destruct (decide (x = a)) as [->|Hx].
  - by rewrite lookup_total_insert_eq, Hf.
  - by rewrite lookup_total_insert_ne.
Qed.

Lemma entry_link a b d h x y :
  entry (link a b d h) x y
  = if decide ((x = a ∧ y = b) ∨ (d = true ∧ x = b ∧ y = a))
    then Some true else entry h x y.
Proof.
  unfold link. destruct d; rewrite ?entry_set_link;
    decide_cases; try done; naive_solver.
Qed.

Lemma entry_unlink a b d h x y :
  entry (unlink a b d h) x y
  = if decide ((x = a ∧ y = b) ∨ (d = true ∧ x = b ∧ y = a))
    then Some false else entry h x y.
Proof.
  unfold unlink. destruct d; rewrite ?entry_set_link;
    decide_cases; try done; naive_solver.
Qed.

Lemma entry_run_call c h x y :
  entry (run_call h c) x y
  = if decide (passed x y c)
    then Some (match c with Link _ _ _ => true | Unlink _ _ _ => false end)
    else entry h x y.
Proof.
  destruct c as [a b d|a b d]; simpl; [rewrite entry_link|rewrite entry_unlink];
    decide_cases; try done; naive_solver.
Qed.

Lemma is_linked_entry a b h :
  is_linked a b h = match entry h a b with Some v => Ret v | None => Raise KeyError end.
Proof. reflexivity. Qed.

Lemma run_calls_snoc cs c h : run_calls (cs ++ [c]) h = run_call (run_calls cs h) c.
Proof. unfold run_calls. by rewrite foldl_app. Qed.

(** An entry, once written, stays in the table. *)
Lemma entry_run_calls_is_Some cs h x y :
  is_Some (entry h x y) → is_Some (entry (run_calls cs h) x y).
Proof.
  induction cs as [|c cs IH] using rev_ind; [done|].
  intros H. rewrite run_calls_snoc, entry_run_call. case_decide; eauto.
Qed.

Lemma entry_run_calls_None cs h x y :
  entry h x y = None →
  entry (run_calls cs h) x y = None ↔ ¬ ∃ c, c ∈ cs ∧ passed x y c.
Proof.
  intros Hh. induction cs as [|c cs IH] using rev_ind.
  - simpl. split; [|done]. intros _ (c & Hc & _). by apply elem_of_nil in Hc.
  - rewrite run_calls_snoc, entry_run_call. case_decide as Hp.
    + split; [done|]. intros []. exists c. split; [|done].
      apply elem_of_app. right. apply list_elem_of_here.
    + rewrite IH. split; intros Hn (c' & Hc' & Hp'); apply Hn.
      * apply elem_of_app in Hc' as [Hc'|Hc']; [by eauto|].
        apply list_elem_of_singleton in Hc' as ->. done.
      * exists c'. split; [|done]. apply elem_of_app. by left.
Qed.

Lemma symmetric_run_call c h :
  is_bidirectional c = true → symmetric h → symmetric (run_call h c).
Proof.
  intros Hd Hs x y. rewrite !entry_run_call, (Hs x y).
  destruct c as [a b d|a b d]; simpl in *; subst d;
    decide_cases; try done; naive_solver.
Qed.

Lemma symmetric_run_calls cs h :
  Forall (λ c, is_bidirectional c = true) cs → symmetric h →
  symmetric (run_calls cs h).
Proof.
  induction cs as [|c cs IH] using rev_ind; [done|].
  intros [Hcs Hc]%Forall_app Hs. rewrite run_calls_snoc.
  apply symmetric_run_call; [|by apply IH].
  by apply Forall_inv in Hc.
Qed.

Lemma entry_empty x y : entry ∅ x y = None.
Proof. unfold entry. rewrite lookup_total_empty. done. Qed.
End link_tables.

(** ** Ranges and indexing *)

Lemma length_range n : length (range n) = Z.to_nat n.
Proof. unfold range. by rewrite length_fmap, length_seq. Qed.

Lemma range_lookup n (k : nat) : (k < Z.to_nat n)%nat → range n !! k = Some (Z.of_nat k).
Proof.
  intros Hk. unfold range. rewrite list_lookup_fmap, lookup_seq_lt by done. done.
Qed.

Lemma elem_of_range n i : i ∈ range n ↔ 0 ≤ i < n.
Proof.
  unfold range. rewrite list_elem_of_fmap. setoid_rewrite elem_of_seq. split.
  - intros (k & -> & Hk). lia.
  - intros Hi. exists (Z.to_nat i). lia.
Qed.

Lemma range_pos n : 0 < n → range n = 0 :: ((λ k, 1 + Z.of_nat k) <$> seq 0 (Z.to_nat (n - 1))).
Proof.
  intros Hn. unfold range. replace (Z.to_nat n) with (S (Z.to_nat (n - 1))) by lia.
  simpl. f_equal. rewrite <- fmap_S_seq, <- list_fmap_compose.
  apply list_fmap_ext. intros _ k _. simpl. lia.
Qed.

(** Indexing the list [f 0, ..., f (n-1)], negative indices included. *)
Lemma py_index_fmap_range {A} (f : Z → A) n i :
  0 ≤ n →
  py_index (f <$> range n) i
  = if decide (- n ≤ i < n) then Ret (f (if decide (i < 0) then n + i else i))
    else Raise IndexError.
Proof.
  intros Hn. unfold py_index. rewrite length_fmap, length_range, Z2Nat.id by done.
  destruct (Z.ltb_spec i 0); destruct (decide (i < 0)); try lia;
    (match goal with |- context [?k <? 0] => destruct (Z.ltb_spec k 0) end);
    (match goal with |- context [n <=? ?k] => destruct (Z.leb_spec n k) end);
    destruct (decide (- n ≤ i < n)); simpl; try lia; try done;
    rewrite list_lookup_fmap, range_lookup by lia; simpl;
    by rewrite Z2Nat.id by lia.
Qed.

(** Indexing the rows of a grid. *)
Lemma grid_get_rows_wrap nr nc i j :
  0 ≤ nr → 0 ≤ nc →
  grid_get (rect nr nc) i j
  = if decide (- nr ≤ i < nr ∧ - nc ≤ j < nc) then Ret (wrap nr i, wrap nc j)
    else Raise IndexError.
Proof.
  intros Hnr Hnc. unfold grid_get, grid_rows, wrap. simpl.
  rewrite py_index_fmap_range by done.
  destruct (decide (- nr ≤ i < nr)) as [Hi|Hi].
  - rewrite py_index_fmap_range by done.
    destruct (decide (- nc ≤ j < nc)); destruct (decide (_ ∧ _)); done || tauto.
  - destruct (decide (_ ∧ _)); done || tauto.
Qed.

Lemma grid_get_rows nr nc i j :
  0 ≤ i < nr → 0 ≤ j < nc →
  grid_get (rect nr nc) i j = Ret (i, j).
Proof.
  intros Hi Hj. rewrite grid_get_rows_wrap by lia. unfold wrap.
  destruct (decide (_ ∧ _)); [|lia]. by rewrite !decide_False by lia.
Qed.

Lemma elem_of_index_pairs nr nc (p : Z * Z) :
  p ∈ (i ← range nr; j ← range nc; [(i, j)]) ↔ in_grid nr nc p.
Proof.
  unfold in_grid. rewrite list_elem_of_bind. setoid_rewrite list_elem_of_bind.
  setoid_rewrite elem_of_range. setoid_rewrite list_elem_of_singleton.
  destruct p as [i j]. simpl. split.
  - intros (i' & (j' & [= -> ->] & ?) & ?). done.
  - intros [? ?]. exists i. split; [|done]. exists j. done.
Qed.

Lemma cells_grid_rows nr nc :
  cells (rect nr nc) = (i ← range nr; j ← range nc; [(i, j)]).
Proof.
  unfold cells, grid_rows. simpl. generalize (range nr) as l.
  induction l as [|i l IH]; [done|]. rewrite fmap_cons, concat_cons, IH.
  change ((i :: l) ≫= ?f) with (f i ++ (l ≫= f)). f_equal.
Qed.

Ltac mstep :=
  lazymatch goal with
  | |- returns (mret _) _ _ => apply returns_ret
  | |- returns (_ ≫= _) _ _ => apply returns_bind
  | |- returns (modify _) _ _ => apply returns_modify
  | |- returns (lift_outcome (grid_get _ _ _)) _ _ =>
      eapply returns_lift; [apply grid_get_rows; lia|]
  | |- returns (if bool_decide ?P then _ else _) _ _ =>
      destruct (bool_decide_reflect P)
  end; cbv beta.

Lemma returns_collect {S A B} (I : S → Prop) (f' : A → B) (l : list A)
    (f : A → M S B) s :
  I s →
  (∀ x s, x ∈ l → I s → returns (f x) s (λ y s', y = f' x ∧ I s')) →
  returns (collect l f) s (λ ys s', ys = f' <$> l ∧ I s').
Proof.
  revert s. induction l as [|x l IH]; intros s Hs Hf; simpl.
  - by apply returns_ret.
  - apply returns_bind. eapply returns_mono.
    { apply Hf; [apply list_elem_of_here|done]. }
    intros y s1 [-> Hs1]. simpl. apply returns_bind. eapply returns_mono.
    { apply IH; [done|]. intros. apply Hf; [by apply list_elem_of_further|done]. }
    intros ys s2 [-> Hs2]. simpl. by apply returns_ret.
Qed.

Lemma for_eq {S A} (F : S → A → S) (l : list A) (body : A → M S unit) s :
  (∀ x s, x ∈ l → body x s = (Ret tt, F s x)) →
  for_ l body s = (Ret tt, foldl F s l).
Proof.
  revert s. induction l as [|x l IH]; intros s Hbody; simpl; [done|].
  rewrite bind_eq, Hbody by apply list_elem_of_here.
  apply IH. intros. apply Hbody. by apply list_elem_of_further.
Qed.

Section grid.
Context (nr nc : Z).
Implicit Types (h : Heap) (a b x y : ref).

(** *** Construction *)

Lemma Cell_init_returns r c h :
  0 ≤ r → 0 ≤ c →
  Cell_init r c h = (Ret (r, c), <[(r, c) := mkCell r c ∅ None None None None]> h).
Proof.
  intros Hr Hc. unfold Cell_init, assert.
  rewrite (proj2 (Z.leb_le 0 r)), (proj2 (Z.leb_le 0 c)) by done. reflexivity.
Qed.

Lemma entry_insert_new a cl h x y :
  links cl = ∅ → entry h a y = None →
  entry (<[a := cl]> h) x y = entry h x y.
Proof.
  intros Hcl Ha. unfold entry in *. destruct (decide (x = a)) as [->|].
  - by rewrite lookup_total_insert_eq, Hcl, Ha.
  - by rewrite lookup_total_insert_ne.
Qed.

Lemma create_cells_returns h :
  (∀ x y, entry h x y = None) →
  returns (create_cells nr nc) h (λ rows h',
    rows = grid_rows nr nc ∧ ∀ x y, entry h' x y = None).
Proof.
  intros Hh. unfold create_cells, grid_rows.
  apply (returns_collect (λ h, ∀ x y, entry h x y = None)); [done|].
  intros i h1 Hi%elem_of_range Hh1.
  apply (returns_collect (λ h, ∀ x y, entry h x y = None)); [done|].
  intros j h2 Hj%elem_of_range Hh2.
  exists (i, j). eexists. split; [apply Cell_init_returns; lia|].
  split; [done|]. intros x y. by rewrite entry_insert_new.
Qed.

Lemma tidy_link a b h : adjacent nr nc a b → tidy nr nc h → tidy nr nc (link a b true h).
Proof.
  intros Hab [Hs Ha]. split.
  - apply (symmetric_run_call (Link a b true)); done.
  - intros x y. rewrite entry_link. case_decide as Hd; [|by auto].
    intros _. unfold adjacent in *.
    destruct Hd as [[-> ->]|(_ & -> & ->)]; [done|].
    destruct Hab as (? & ? & ?). split_and!; [done..|lia].
Qed.

Lemma tidy_update a (f : Cell → Cell) h :
  (∀ c, links (f c) = links c) → tidy nr nc h → tidy nr nc (update a f h).
Proof.
  intros Hf [Hs Ha]. split.
  - intros x y. by rewrite !entry_update_other.
  - intros x y. rewrite entry_update_other by done. auto.
Qed.

Lemma linked_link x y d h a b : linked h a b → linked (link x y d h) a b.
Proof. unfold linked. rewrite entry_link. intros ->. by decide_cases. Qed.

Lemma linked_link_eq x y d h : linked (link x y d h) x y.
Proof. unfold linked. rewrite entry_link. rewrite decide_True; [done|by left]. Qed.

Lemma linked_update x (f : Cell → Cell) h a b :
  (∀ c, links (f c) = links c) → linked h a b → linked (update x f h) a b.
Proof. intros Hf. unfold linked. by rewrite entry_update_other. Qed.

Lemma connect_cells_links h :
  tidy nr nc h →
  returns (connect_cells (rect nr nc)) h (λ _ h', tidy nr nc h' ∧ fully_linked nr nc h').
Proof.
  intros Hh. unfold connect_cells, returns. rewrite for_nested.
  match goal with
  | |- ∃ _ _, for_ ?L ?B _ = _ ∧ _ =>
      destruct (returns_for (λ done h, tidy nr nc h
                  ∧ ∀ a b, a ∈ done → adjacent nr nc a b → linked h a b) L B h)
        as ([] & h' & Hrun & Ht & Hd)
  end.
  - split; [done|]. by intros a b []%elem_of_nil.
  - intros done [i j] post h1 Hl [Hh1 Hdone].
    assert (in_grid nr nc (i, j)) as [Hi Hj].
    { apply elem_of_index_pairs. simpl num_rows in Hl. simpl num_columns in Hl.
      rewrite Hl. apply elem_of_app. right. apply list_elem_of_here. }
    simpl in Hi, Hj. simpl fst. simpl snd. simpl num_rows. simpl num_columns.
    repeat mstep; (split;
      [ repeat first [ apply tidy_update; [done|] | apply tidy_link ];
        try done; unfold adjacent, in_grid; simpl; lia
      | intros a [i' j'] [Ha|Ha%list_elem_of_singleton]%elem_of_app Hab;
        [ repeat first [ apply linked_update; [done|] | apply linked_link ];
          by apply Hdone
        | subst a; destruct Hab as (_ & [? ?] & ?); simpl in *;
          assert ((i' = i + 1 ∧ j' = j) ∨ (i' = i - 1 ∧ j' = j)
                  ∨ (i' = i ∧ j' = j + 1) ∨ (i' = i ∧ j' = j - 1))
            as [[-> ->]|[[-> ->]|[[-> ->]|[-> ->]]]] by lia;
          try lia;
          repeat first [ apply linked_link_eq
                       | apply linked_update; [done|]
                       | apply linked_link ] ] ]).
  - exists tt, h'. split; [done|]. split; [done|]. intros a b Hab.
    apply Hd; [|done]. apply elem_of_index_pairs, Hab.
Qed.

Lemma Grid_init_returns h :
  0 < nr → 0 < nc → (∀ x y, entry h x y = None) →
  returns (Grid_init nr nc) h (λ g' h',
    g' = rect nr nc ∧ tidy nr nc h' ∧ fully_linked nr nc h').
Proof.
  intros Hnr Hnc Hh. unfold Grid_init, assert.
  rewrite (proj2 (Z.ltb_lt 0 nr)), (proj2 (Z.ltb_lt 0 nc)) by done.
  do 5 mstep. eapply returns_mono; [by apply create_cells_returns|].
  intros rows h1 [-> Hh1]. simpl. mstep.
  eapply returns_mono; [apply connect_cells_links|].
  - split; [intros x y; by rewrite !Hh1|].
    intros x y [v Hv]. by rewrite Hh1 in Hv.
  - intros [] h2 Hh2. simpl. by mstep.
Qed.

(** Only positive sizes pass the assertions of the constructor. *)
Lemma Grid_init_positive h g' h' :
  Grid_init nr nc h = (Ret g', h') → 0 < nr ∧ 0 < nc.
Proof.
  unfold Grid_init, assert. rewrite !bind_eq.
  destruct (Z.ltb_spec 0 nr); [|done]. simpl.
  destruct (Z.ltb_spec 0 nc); done.
Qed.

Lemma fresh_inv g' h' :
  fresh nr nc = (Ret g', h') →
  0 < nr ∧ 0 < nc ∧ g' = rect nr nc ∧ tidy nr nc h' ∧ fully_linked nr nc h'.
Proof.
  intros Hf. pose proof (Grid_init_positive _ _ _ Hf) as [Hnr Hnc].
  destruct (Grid_init_returns ∅ Hnr Hnc entry_empty) as (g1 & h1 & Hg & -> & Ht).
  unfold fresh in Hf. rewrite Hf in Hg. by injection Hg as -> ->.
Qed.

(** *** unlink_all *)

Lemma unlink_all_eq h :
  unlink_all (rect nr nc) h
  = (Ret tt, foldl (λ h p, unlink_around nr nc p h) h
                   (i ← range nr; j ← range nc; [(i, j)])).
Proof.
  unfold unlink_all, unlink_pass, positions. rewrite for_nested. apply for_eq.
  intros [i j] h1 [Hi Hj]%elem_of_index_pairs. simpl in *.
  unfold unlink_around.
  destruct (bool_decide_reflect (i ≠ nr - 1));
    destruct (bool_decide_reflect (i ≠ 0));
    destruct (bool_decide_reflect (j ≠ nc - 1));
    destruct (bool_decide_reflect (j ≠ 0));
    rewrite ?grid_get_rows by lia; reflexivity.
Qed.
End grid.

Section unlink_all.
Context (nr nc : Z).
Implicit Types (h : Heap) (a b x y p : ref).

Lemma unlinked_entry h a b : unlinked h a b → entry h a b = Some false.
Proof. intros (c & Hc & Hb). unfold entry. by rewrite (lookup_total_correct _ _ _ Hc). Qed.

Lemma unlinked_set_link x y h a b :
  unlinked h a b ∨ (x = a ∧ y = b) → unlinked (set_link x y false h) a b.
Proof.
  intros H. unfold unlinked, set_link, update.
  destruct (decide (a = x)) as [->|Hax].
  - rewrite lookup_insert_eq. eexists. split; [done|]. simpl.
    destruct (decide (b = y)) as [->|Hby]; [by rewrite lookup_insert_eq|].
    rewrite lookup_insert_ne by done.
    destruct H as [(c & Hc & Hb)|[_ ->]]; [|done].
    by rewrite (lookup_total_correct _ _ _ Hc).
  - rewrite lookup_insert_ne by done.
    destruct H as [H|[-> _]]; done.
Qed.

Lemma unlinked_unlink x y h a b :
  unlinked h a b ∨ (x = a ∧ y = b) ∨ (y = a ∧ x = b) →
  unlinked (unlink x y true h) a b.
Proof.
  intros H. unfold unlink. apply unlinked_set_link.
  destruct H as [H|[H|H]]; [|by left; apply unlinked_set_link; right|by right].
  left. apply unlinked_set_link. by left.
Qed.

Lemma set_link_id x y v h c :
  h !! x = Some c → links c !! y = Some v → set_link x y v h = h.
Proof.
  intros Hc Hy. unfold set_link, update.
  rewrite (lookup_total_correct _ _ _ Hc). apply insert_id. rewrite Hc. f_equal.
  unfold with_links. rewrite (insert_id _ _ _ Hy). by destruct c.
Qed.

Lemma unlink_id x y h :
  unlinked h x y → unlinked h y x → unlink x y true h = h.
Proof.
  intros (c & Hc & Hy) (c' & Hc' & Hx). unfold unlink.
  rewrite (set_link_id x y false h c) by done. by apply (set_link_id y x false h c').
Qed.

Lemma unlinked_unlink_around p h a b :
  unlinked h a b → unlinked (unlink_around nr nc p h) a b.
Proof.
  intros H. destruct p as [i j]. unfold unlink_around.
  repeat case_bool_decide; repeat (apply unlinked_unlink; left); done.
Qed.

Lemma unlinked_unlink_around_self p h b :
  adjacent nr nc p b → unlinked (unlink_around nr nc p h) p b.
Proof.
  destruct p as [i j], b as [i' j']. intros ([Hi Hj] & [Hi' Hj'] & Hd).
  simpl in *. unfold unlink_around.
  assert ((i' = i + 1 ∧ j' = j) ∨ (i' = i - 1 ∧ j' = j)
          ∨ (i' = i ∧ j' = j + 1) ∨ (i' = i ∧ j' = j - 1))
    as [[-> ->]|[[-> ->]|[[-> ->]|[-> ->]]]] by lia.
  - rewrite (bool_decide_eq_true_2 (i ≠ nr - 1)) by lia.
    repeat case_bool_decide;
      repeat first [ by (apply unlinked_unlink; right; left)
                   | apply unlinked_unlink; left ].
  - rewrite (bool_decide_eq_true_2 (i ≠ 0)) by lia.
    repeat case_bool_decide;
      repeat first [ by (apply unlinked_unlink; right; left)
                   | apply unlinked_unlink; left ].
  - rewrite (bool_decide_eq_true_2 (j ≠ nc - 1)) by lia.
    repeat case_bool_decide;
      repeat first [ by (apply unlinked_unlink; right; left)
                   | apply unlinked_unlink; left ].
  - rewrite (bool_decide_eq_true_2 (j ≠ 0)) by lia.
    apply unlinked_unlink. right. by left.
Qed.

Lemma unlink_around_id p h :
  in_grid nr nc p →
  (∀ a b, adjacent nr nc a b → unlinked h a b) →
  unlink_around nr nc p h = h.
Proof.
  destruct p as [i j]. intros [Hi Hj] Hu. simpl in *. unfold unlink_around.
  assert (∀ a b, adjacent nr nc a b → unlink a b true h = h) as Hid.
  { intros a b Hab. apply unlink_id; apply Hu; [done|].
    destruct Hab as (? & ? & ?). split_and!; [done..|lia]. }
  repeat case_bool_decide;
    repeat (rewrite Hid by (unfold adjacent, in_grid; simpl; lia)).
  all: done.
Qed.

Lemma entry_unlink_around_true p h x y :
  entry (unlink_around nr nc p h) x y = Some true → entry h x y = Some true.
Proof.
  destruct p as [i j]. unfold unlink_around.
  repeat case_bool_decide; rewrite ?entry_unlink; decide_cases; done.
Qed.

Lemma pass_unlinked l h a b :
  a ∈ l → adjacent nr nc a b → unlinked (unlink_pass nr nc h l) a b.
Proof.
  induction l as [|p l IH] using rev_ind; intros Ha Hab.
  - by apply elem_of_nil in Ha.
  - unfold unlink_pass. rewrite foldl_app. simpl.
    apply elem_of_app in Ha as [Ha|Ha%list_elem_of_singleton].
    + apply unlinked_unlink_around. by apply IH.
    + subst p. by apply unlinked_unlink_around_self.
Qed.

Lemma pass_no_new_link l h x y :
  entry (unlink_pass nr nc h l) x y = Some true → entry h x y = Some true.
Proof.
  induction l as [|p l IH] using rev_ind; [done|].
  unfold unlink_pass. rewrite foldl_app. simpl.
  intros H%entry_unlink_around_true. by apply IH.
Qed.

Lemma pass_id l h :
  Forall (in_grid nr nc) l →
  (∀ a b, adjacent nr nc a b → unlinked h a b) →
  unlink_pass nr nc h l = h.
Proof.
  intros Hl Hu. induction Hl as [|p l Hp Hl IH]; [done|].
  simpl. rewrite unlink_around_id by done. apply IH.
Qed.

(** After [unlink_all] every pair of neighbours is unlinked, no
    passage is left, and a second call changes nothing. *)
Lemma unlink_all_spec h :
  tidy nr nc h →
  ∃ h1, unlink_all (rect nr nc) h = (Ret tt, h1)
        ∧ unlink_all (rect nr nc) h1 = (Ret tt, h1)
        ∧ (∀ a b, adjacent nr nc a b → unlinked h1 a b)
        ∧ (∀ a b, ¬ linked h1 a b).
Proof.
  intros [_ Hadj]. exists (unlink_pass nr nc h (positions nr nc)).
  assert (∀ a b, adjacent nr nc a b → unlinked (unlink_pass nr nc h (positions nr nc)) a b) as Hu.
  { intros a b Hab. apply pass_unlinked; [|done].
    apply elem_of_index_pairs. apply Hab. }
  split_and!.
  - apply unlink_all_eq.
  - rewrite unlink_all_eq. f_equal. apply pass_id; [|done].
    apply Forall_forall. intros p. by rewrite elem_of_index_pairs.
  - done.
  - intros a b Hl. unfold linked in Hl.
    pose proof (pass_no_new_link _ _ _ _ Hl) as Hl0.
    assert (adjacent nr nc a b) as Hab by (apply Hadj; by rewrite Hl0).
    apply Hu, unlinked_entry in Hab. congruence.
Qed.
End unlink_all.

Lemma link_count_zero self h : link_count self h = 0.
Proof.
  unfold link_count. generalize (map_to_list (links (h !!! self))).*1.
  intros l. induction l as [|k l IH]; [done|]. exact IH.
Qed.

(** C2 (the code departs from the claim): [link_count] returns 0 for
    every cell and every store, because its loop compares the keys of
    the link table with [True].  On a new 1x2 grid the cell (0,0) is
    linked to (0,1), its table has one entry whose state is [True], and
    [link_count] still returns 0. *)
Theorem link_count_misses_links :
  (∀ self h, link_count self h = 0)
  ∧ ∃ g h, fresh 1 2 = (Ret g, h)
           ∧ is_linked (0, 0) (0, 1) h = Ret true
           ∧ true_entries (0, 0) h = 1
           ∧ link_count (0, 0) h = 0.
Proof.
  split; [apply link_count_zero|].
  eexists _, _. split; [vm_compute; reflexivity|]. by vm_compute.
Qed.

(** C3 (the code departs from the claim): on every grid that the
    constructor returns, [deadends] raises [AttributeError] at the first
    item of [self.grid], which is a row and has no attribute
    [link_count]; it returns no set of cells. *)
Theorem deadends_raises nr nc g h :
  fresh nr nc = (Ret g, h) → deadends g = Raise AttributeError.
Proof.
  intros (Hnr & Hnc & -> & _)%fresh_inv. unfold deadends, grid_rows. simpl.
  rewrite (range_pos nr) by done. reflexivity.
Qed.

Lemma deadends_raises_witness :
  ∃ g h, fresh 1 2 = (Ret g, h)
         ∧ true_entries (0, 0) h = 1
         ∧ deadends g = Raise AttributeError.
Proof.
  eexists _, _. split; [vm_compute; reflexivity|]. split; [by vm_compute|].
  eapply (deadends_raises 1 2). vm_compute. reflexivity.
Defined.

(** C4, as amended: on the cells of a new grid, after every sequence of
    [link] and [unlink] calls that leave [bidirectional] at [True],
    [A.is_linked(B)] and [B.is_linked(A)] agree: both raise [KeyError]
    or both return the same boolean. *)
Theorem link_symmetry nr nc g h0 cs A B :
  fresh nr nc = (Ret g, h0) →
  Forall (λ c, is_bidirectional c = true) cs →
  is_linked A B (run_calls cs h0) = is_linked B A (run_calls cs h0).
Proof.
  intros (_ & _ & _ & [Hs _] & _)%fresh_inv Hcs.
  rewrite !is_linked_entry. by rewrite (symmetric_run_calls cs h0 Hcs Hs A B).
Qed.

Lemma link_symmetry_witness :
  ∃ g h0, fresh 2 2 = (Ret g, h0)
    ∧ is_linked (0, 0) (1, 1)
        (run_calls [Unlink (0, 0) (0, 1) true; Link (0, 0) (1, 1) true] h0)
      = is_linked (1, 1) (0, 0)
        (run_calls [Unlink (0, 0) (0, 1) true; Link (0, 0) (1, 1) true] h0).
Proof.
  eexists _, _. split; [vm_compute; reflexivity|].
  eapply (link_symmetry 2 2); [vm_compute; reflexivity|].
  repeat constructor.
Defined.

(** C4 as stated fails: [unlink] with [bidirectional=False] on a new
    1x2 grid leaves (0,0) unlinked from (0,1) and (0,1) linked to
    (0,0). *)
Lemma link_symmetry_counterexample :
  ¬ (∀ g h0 cs A B, fresh 1 2 = (Ret g, h0) →
       is_linked A B (run_calls cs h0) = is_linked B A (run_calls cs h0)).
Proof.
  intros H.
  assert (fresh 1 2 = (Ret (rect 1 2), (fresh 1 2).2)) as Hf by (by vm_compute).
  specialize (H _ _ [Unlink (0, 0) (0, 1) false] (0, 0) (0, 1) Hf).
  vm_compute in H. discriminate H.
Qed.

(** C5: starting from cells whose link tables are empty, after any
    sequence of [link] and [unlink] calls, [self.is_linked(other)] raises
    [KeyError] exactly when [other] was never passed to [link] or
    [unlink] on [self], that is exactly when the table of [self] has no
    entry for [other]; after [self.unlink(other)] the call returns
    [False], and no later call makes it raise again. *)
Theorem is_linked_lookup_error h cs self other :
  (∀ x y, entry h x y = None) →
  (is_linked self other (run_calls cs h) = Raise KeyError
   ↔ ¬ ∃ c, c ∈ cs ∧ passed self other c)
  ∧ (is_linked self other (run_calls cs h) = Raise KeyError
     ↔ links (run_calls cs h !!! self) !! other = None)
  ∧ ∀ d cs',
      is_linked self other (unlink self other d (run_calls cs h)) = Ret false
      ∧ is_linked self other (run_calls cs' (unlink self other d (run_calls cs h)))
        ≠ Raise KeyError.
Proof.
  intros Hh. split_and!.
  - rewrite <- (entry_run_calls_None cs h self other (Hh _ _)).
    rewrite is_linked_entry. destruct (entry _ _ _); split; done.
  - rewrite is_linked_entry. unfold entry.
    destruct (links _ !! _); split; done.
  - intros d cs'.
    assert (entry (unlink self other d (run_calls cs h)) self other = Some false) as He.
    { rewrite entry_unlink. rewrite decide_True; [done|]. by left. }
    split; [by rewrite is_linked_entry, He|].
    rewrite is_linked_entry.
    destruct (entry_run_calls_is_Some cs' _ self other (mk_is_Some _ _ He)) as [v ->].
    done.
Qed.

Lemma is_linked_lookup_error_witness :
  (is_linked (0, 1) (0, 0) (run_calls [Link (0, 0) (0, 1) true] ∅) = Raise KeyError
   ↔ ¬ ∃ c, c ∈ [Link (0, 0) (0, 1) true] ∧ passed (0, 1) (0, 0) c)
  ∧ is_linked (0, 1) (0, 0) (run_calls [Link (0, 0) (0, 1) true] ∅) = Ret true
  ∧ is_linked (0, 1) (0, 0)
      (unlink (0, 1) (0, 0) true (run_calls [Link (0, 0) (0, 1) true] ∅)) = Ret false.
Proof.
  pose proof (is_linked_lookup_error ∅ [Link (0, 0) (0, 1) true] (0, 1) (0, 0)
                entry_empty) as (H1 & _ & H3).
  split; [exact H1|]. split; [by vm_compute|]. apply (H3 true []).
Defined.

(** C6: on a new grid, [unlink_all] returns; calling it again returns
    the same store; in that store [is_linked] is [False] for every pair
    of geographic neighbours and no link table holds [True]. *)
Theorem unlink_all_idempotent nr nc :
  0 < nr → 0 < nc →
  ∃ g h0 h1,
    fresh nr nc = (Ret g, h0)
    ∧ unlink_all g h0 = (Ret tt, h1)
    ∧ unlink_all g h1 = (Ret tt, h1)
    ∧ (∀ a b, adjacent nr nc a b → is_linked a b h1 = Ret false)
    ∧ (∀ a b, ¬ linked h1 a b).
Proof.
  intros Hnr Hnc.
  destruct (Grid_init_returns nr nc ∅ Hnr Hnc entry_empty)
    as (g & h0 & Hg & -> & Ht & _).
  destruct (unlink_all_spec nr nc h0 Ht) as (h1 & H1 & H2 & Hu & Hn).
  eexists _, h0, h1. split_and!; try done.
  intros a b Hab. rewrite is_linked_entry. by rewrite (unlinked_entry _ _ _ (Hu a b Hab)).
Qed.

Lemma unlink_all_idempotent_witness :
  ∃ g h0 h1,
    fresh 2 3 = (Ret g, h0)
    ∧ unlink_all g h0 = (Ret tt, h1)
    ∧ unlink_all g h1 = (Ret tt, h1)
    ∧ (∀ a b, adjacent 2 3 a b → is_linked a b h1 = Ret false)
    ∧ (∀ a b, ¬ linked h1 a b).
Proof. apply (unlink_all_idempotent 2 3); lia. Defined.

(** C9 (the code departs from the claim): when the greatest value of
    the markup is 0, [intensity_colorize] raises [ZeroDivisionError] at
    the first cell of the grid. *)
Theorem intensity_colorize_zero_max nr nc g h markup self mx :
  fresh nr nc = (Ret g, h) →
  cm_grid self = g →
  Markup_max markup = Ret mx →
  Markup_getitem markup mx = 0 →
  (intensity_colorize markup self).1 = Raise ZeroDivisionError.
Proof.
  intros (Hnr & Hnc & -> & _)%fresh_inv Hg Hmx H0.
  unfold intensity_colorize. rewrite Hmx.
  rewrite (bind_step _ _ _ mx self eq_refl), H0.
  rewrite (bind_step get_state _ self self self eq_refl), Hg.
  unfold for_each_cell. simpl num_rows. simpl num_columns.
  rewrite (range_pos nr), (range_pos nc) by done.
  cbn [for_]. rewrite !bind_eq. unfold cell_at, lift_outcome at 1.
  rewrite grid_get_rows by lia. reflexivity.
Qed.

Lemma intensity_colorize_zero_max_witness :
  ∃ g h, fresh 1 1 = (Ret g, h)
    ∧ (intensity_colorize (mkMarkup g [((0, 0), 0)] 0) (mkColorized g [] "R")).1
      = Raise ZeroDivisionError.
Proof.
  eexists _, _. split; [vm_compute; reflexivity|].
  eapply (intensity_colorize_zero_max 1 1);
    [vm_compute; reflexivity|reflexivity|reflexivity|reflexivity].
Defined.

(** With a maximum that is not zero the colours follow the formula. *)
Lemma intensity_colorize_example :
  ∃ g h, fresh 2 2 = (Ret g, h)
    ∧ intensity_colorize
        (mkMarkup g [((0, 0), 0); ((0, 1), 1); ((1, 1), 2); ((1, 0), 3)] 0)
        (mkColorized g [] "G")
      = (Ret tt,
         mkColorized g [((0, 0), [255; 255; 255]); ((0, 1), [170; 213; 170]);
                        ((1, 0), [0; 128; 0]); ((1, 1), [85; 170; 85])] "G").
Proof. eexists _, _. split; vm_compute; reflexivity. Qed.

Lemma start_cell_zero_row g sc : start_cell g (Some 0) sc = start_cell g None sc.
Proof. reflexivity. Qed.

Lemma start_cell_zero_column g sr : start_cell g sr (Some 0) = start_cell g sr None.
Proof. reflexivity. Qed.

(** C10, as amended: [colorize_dijkstra] treats a start coordinate 0
    like an omitted one and takes the centre coordinate instead; the
    root it hands to [DijkstraMarkup] lies in row 0 exactly when the
    row is 0 or omitted on a grid of one row, or the row is the negative
    index [-num_rows], and likewise for column 0. *)
Theorem colorize_dijkstra_zero_is_centre nr nc g h sr sc :
  fresh nr nc = (Ret g, h) →
  start_cell g (Some 0) sc = start_cell g None sc
  ∧ start_cell g sr (Some 0) = start_cell g sr None
  ∧ start_cell g None None = Ret (nr / 2, nc / 2)
  ∧ (∀ c, c ≠ 0 → start_cell g (Some 0) (Some c) = cell_at g (nr / 2) c)
  ∧ (∀ r, r ≠ 0 → start_cell g (Some r) (Some 0) = cell_at g r (nc / 2))
  ∧ ∀ i j, start_cell g sr sc = Ret (i, j) →
      (i = 0 ↔ (py_not sr = true ∧ nr = 1) ∨ sr = Some (- nr))
      ∧ (j = 0 ↔ (py_not sc = true ∧ nc = 1) ∨ sc = Some (- nc)).
Proof.
  intros (Hnr & Hnc & -> & _)%fresh_inv. split_and!; try reflexivity.
  - unfold start_cell, cell_at. simpl.
    apply grid_get_rows; split; try apply Z.div_pos; try apply Z.div_lt; lia.
  - intros c Hc. unfold start_cell. simpl.
    by rewrite (proj2 (Z.eqb_neq c 0)) by done.
  - intros r Hr. unfold start_cell. simpl.
    by rewrite (proj2 (Z.eqb_neq r 0)) by done.
  - intros i j. unfold start_cell, cell_at. simpl num_rows. simpl num_columns.
    rewrite grid_get_rows_wrap by lia. case_decide as Hin; [|done].
    intros [= <- <-]. unfold wrap.
    assert (nr / 2 = 0 ↔ nr = 1) as Hr2.
    { split; [|by intros ->]. intros H. pose proof (Z.div_mod nr 2).
      pose proof (Z.mod_pos_bound nr 2). lia. }
    assert (nc / 2 = 0 ↔ nc = 1) as Hc2.
    { split; [|by intros ->]. intros H. pose proof (Z.div_mod nc 2).
      pose proof (Z.mod_pos_bound nc 2). lia. }
    assert (0 ≤ nr / 2) by (apply Z.div_pos; lia).
    assert (0 ≤ nc / 2) by (apply Z.div_pos; lia).
    destruct Hin as [Hi Hj]. split.
    + destruct sr as [r|]; simpl in *.
      * destruct (Z.eqb_spec r 0) as [->|Hr0].
        -- rewrite decide_False by lia. rewrite Hr2. split; [by left|].
           intros [[_ ?]|[= ?]]; [done|lia].
        -- case_decide; (split; [intros ?; right; f_equal; lia|]);
             (intros [[? _]|[= ?]]; [done|lia]).
      * rewrite decide_False by lia. rewrite Hr2. split; [by left|].
        intros [[_ ?]|?]; done.
    + destruct sc as [c|]; simpl in *.
      * destruct (Z.eqb_spec c 0) as [->|Hc0].
        -- rewrite decide_False by lia. rewrite Hc2. split; [by left|].
           intros [[_ ?]|[= ?]]; [done|lia].
        -- case_decide; (split; [intros ?; right; f_equal; lia|]);
             (intros [[? _]|[= ?]]; [done|lia]).
      * rewrite decide_False by lia. rewrite Hc2. split; [by left|].
        intros [[_ ?]|?]; done.
Qed.

Lemma colorize_dijkstra_zero_is_centre_witness :
  ∃ g h, fresh 4 4 = (Ret g, h)
    ∧ start_cell g (Some 0) (Some 1) = Ret (2, 1)
    ∧ start_cell g (Some 3) (Some 0) = Ret (3, 2)
    ∧ start_cell g (Some 0) (Some 1) = start_cell g None (Some 1).
Proof.
  eexists _, _. split; [vm_compute; reflexivity|].
  split; [by vm_compute|]. split; [by vm_compute|].
  refine (proj1 (colorize_dijkstra_zero_is_centre 4 4 _ _ None (Some 1) _)).
  vm_compute. reflexivity.
Defined.

(** C10 as stated fails: on a 1x3 grid [colorize_dijkstra(0, 1)]
    takes the cell (0,1) of row 0 as root. *)
Lemma colorize_dijkstra_row0_counterexample :
  ¬ (∀ nr nc g h c i j, fresh nr nc = (Ret g, h) →
       start_cell g (Some 0) c = Ret (i, j) → i ≠ 0).
Proof.
  intros H.
  assert (fresh 1 3 = (Ret (rect 1 3), (fresh 1 3).2)) as Hf by (by vm_compute).
  apply (H 1 3 _ _ (Some 1) 0 1 Hf); by vm_compute.
Qed.

(** ** recursive_backtracker *)

(** C1 (the code departs from the claim): on a new 1x3 grid, with the
    draws that pick the start cell (0,1) and then the directions east
    and west, [recursive_backtracker] returns after two steps with the
    cell (0,0) linked to no cell, so the grid is not connected. *)
Theorem recursive_backtracker_disconnects n :
  let g := rect 1 3 in
  let w := mkWorld (fresh 1 3).2 (tape [0; 1; 2; 3]%nat) in
  let run := recursive_backtracker (3 + n) g None w in
  fresh 1 3 = (Ret g, heap w)
  ∧ run.1 = Ret tt
  ∧ linked (heap run.2) (0, 1) (0, 2)
  ∧ (∀ b, ¬ linked (heap run.2) (0, 0) b)
  ∧ ¬ connected g (heap run.2).
Proof.
  intros g w run.
  assert (links (heap run.2 !!! (0, 0)) = {[(0, 1) := false]}) as Ht
    by (vm_compute; reflexivity).
  assert (∀ b, ¬ linked (heap run.2) (0, 0) b) as Hno.
  { intros b. unfold linked, entry. rewrite Ht.
    destruct (decide (b = (0, 1))) as [->|Hb].
    - by rewrite lookup_singleton_eq.
    - by rewrite lookup_singleton_ne. }
  split_and!; [by vm_compute..|exact Hno|].
  intros Hc.
  assert ((0, 0) ∈ cells g ∧ (0, 1) ∈ cells g) as [H0 H1]
    by (split; vm_compute; repeat constructor).
  destruct (rtc_inv _ _ (Hc (0, 0) (0, 1) H0 H1)) as [[=]|(y & Hy & _)].
  by apply Hno in Hy.
Qed.

(** ** Random draws *)

Lemma randint_eq a b w :
  a ≤ b →
  randint a b w = (Ret (a + Z.of_nat (rnd w 0%nat) mod (b - a + 1)), next w).
Proof.
  intros Hab. unfold randint. rewrite (proj2 (Z.ltb_ge b a)) by done. reflexivity.
Qed.

Lemma randrange_eq a b w :
  a < b →
  randrange a b w = (Ret (a + Z.of_nat (rnd w 0%nat) mod (b - a)), next w).
Proof.
  intros Hab. unfold randrange. rewrite (proj2 (Z.leb_gt b a)) by done. reflexivity.
Qed.

Lemma randint_range a b w : a ≤ b → ∃ r, randint a b w = (Ret r, next w) ∧ a ≤ r ≤ b.
Proof.
  intros Hab. eexists. split; [by apply randint_eq|].
  pose proof (Z.mod_pos_bound (Z.of_nat (rnd w 0%nat)) (b - a + 1)). lia.
Qed.

(** ** aldous_broder and wilson on a grid of one cell *)

(** A cell without neighbours never leaves the [while again] loop. *)
Lemma ab_direction_isolated fuel linked_cells cell w :
  isolated (heap w !!! cell) →
  (ab_direction fuel linked_cells cell w).1 = Diverge.
Proof.
  revert w. induction fuel as [|fuel IH]; intros w Hiso; [done|].
  cbn [ab_direction]. rewrite bind_eq, randint_eq by lia.
  unfold attr. rewrite !bind_eq. simpl.
  pose proof Hiso as (Hn & Hs & He & Hw). rewrite Hn, Hs, He, Hw.
  repeat match goal with
         | |- context [if ?b then None else None] => destruct b
         end; by apply IH.
Qed.

Lemma fresh_1_1 : fresh 1 1 = (Ret (rect 1 1), (fresh 1 1).2).
Proof. by vm_compute. Qed.

Lemma fresh_1_1_isolated : isolated ((fresh 1 1).2 !!! (0, 0)).
Proof. by vm_compute. Qed.

(** C8 (the code departs from the claim): on a new 1x1 grid
    [aldous_broder] does not return, whatever the fuel and the random
    draws: the only cell has no neighbour, so the [while again] loop
    never finds a direction to move in. *)
Theorem aldous_broder_1x1_diverges fuel rnd :
  let g := rect 1 1 in
  let h := (fresh 1 1).2 in
  fresh 1 1 = (Ret g, h) ∧ (aldous_broder fuel g (mkWorld h rnd)).1 = Diverge.
Proof.
  intros g h. split; [apply fresh_1_1|].
  unfold aldous_broder. rewrite bind_eq.
  change (liftH (unlink_all g) (mkWorld h rnd)) with (Ret tt, mkWorld h rnd).
  cbv beta iota.
  rewrite bind_eq, randrange_eq by (simpl; lia). cbv beta iota.
  rewrite bind_eq, randrange_eq by (simpl; lia). cbv beta iota.
  simpl num_rows. simpl num_columns. rewrite !Z.sub_0_r, !Z.mod_1_r.
  rewrite bind_eq. change (lift_outcome (cell_at g (0 + 0) (0 + 0)) ?w)
    with (Ret (0, 0) : outcome ref, w).
  cbv beta iota. destruct fuel as [|fuel]; [done|].
  cbn [ab_loop]. change (size (∅ : gmap ref ref)) with 0%nat.
  change (Z.of_nat 0 <=? grid_size g) with true.
  change (Z.of_nat 0 =? grid_size g) with false.
  cbv beta iota. rewrite bind_eq.
  pose proof (ab_direction_isolated (S fuel)
    (if not_yet_linked ∅ (0, 0) then <[(0, 0) := (0, 0)]> ∅ else ∅) (0, 0)
    (next (next (mkWorld h rnd))) fresh_1_1_isolated) as Hd.
  destruct (ab_direction _ _ _ _) as [[]]; simpl in Hd; by try discriminate.
Qed.

(** [wilson] leaves at once: the only cell is visited from the start. *)
Lemma wilson_1x1_returns fuel rnd :
  (wilson (S fuel) (rect 1 1) (mkWorld (fresh 1 1).2 rnd)).1
  = Ret (0, 0).
Proof.
  unfold wilson. rewrite bind_eq.
  change (liftH (unlink_all _) (mkWorld ?h rnd)) with (Ret tt, mkWorld h rnd).
  cbv beta iota. rewrite bind_eq.
  change (foldM (range (num_rows _)) [] _ ?w) with (Ret [(0, 0)] : outcome (list ref), w).
  cbv beta iota. rewrite bind_eq. unfold choice. rewrite bind_eq.
  unfold draw. cbv beta iota. change (len [(0, 0)]) with 1. rewrite Z.mod_1_r.
  reflexivity.
Qed.

Lemma returns_liftH_modify (f : Heap → Heap) w (Q : unit → World → Prop) :
  Q tt (mkWorld (f (heap w)) (rnd w)) → returns (liftH (modify f)) w Q.
Proof. intros. eexists tt, _. split; [reflexivity|done]. Qed.

Lemma returns_randint a b w (Q : Z → World → Prop) :
  a ≤ b → (∀ r, a ≤ r ≤ b → Q r (next w)) → returns (randint a b) w Q.
Proof.
  intros Hab HQ. destruct (randint_range a b w Hab) as (r & Hr & Hb).
  exists r, (next w). auto.
Qed.

Ltac wstep :=
  lazymatch goal with
  | |- returns (mret _) _ _ => apply returns_ret
  | |- returns (_ ≫= _) _ _ => apply returns_bind
  | |- returns (liftH (modify _)) _ _ => apply returns_liftH_modify
  | |- returns (lift_outcome (cell_at _ _ _)) _ _ =>
      eapply returns_lift; [apply grid_get_rows; lia|]
  | |- returns (randint _ _) _ _ => apply returns_randint; [lia|intros ? ?]
  | |- returns (if bool_decide ?P then _ else _) _ _ =>
      destruct (bool_decide_reflect P)
  | |- returns (if ?a =? ?b then _ else _) _ _ => destruct (Z.eqb_spec a b)
  end; cbv beta; cbn [andb].

Section binary_tree.
Context (nr nc : Z).
Lemma elem_of_bt_order (p : ref) :
  p ∈ (i ← reverse (range nr); j ← range nc; [(i, j)]) ↔ in_grid nr nc p.
Proof.
  unfold in_grid. rewrite list_elem_of_bind. setoid_rewrite list_elem_of_bind.
  setoid_rewrite elem_of_reverse. setoid_rewrite elem_of_range.
  setoid_rewrite list_elem_of_singleton.
  destruct p as [i j]. simpl. split.
  - intros (i' & (j' & [= -> ->] & ?) & ?). done.
  - intros [? ?]. exists i. split; [|done]. exists j. done.
Qed.

Lemma bt_settled_snoc_idle done p h :
  ¬ (p.1 = 0 ∧ p.2 ≠ nc - 1) → ¬ (p.1 ≠ 0 ∧ p.2 = nc - 1) →
  bt_settled nr nc done h → bt_settled nr nc (done ++ [p]) h.
Proof.
  intros H1 H2 (Ht & Hc & Ha). split_and!; [| |done].
  - intros j [Hj|Hj%list_elem_of_singleton]%elem_of_app Hne; [by apply Ht|].
    subst p. simpl in *. lia.
  - intros i [Hi|Hi%list_elem_of_singleton]%elem_of_app Hne; [by apply Hc|].
    subst p. simpl in *. lia.
Qed.

Lemma bt_settled_link done a b h :
  adjacent nr nc a b →
  bt_settled nr nc done h → bt_settled nr nc done (link a b true h).
Proof.
  intros Hab (Ht & Hc & Ha). split_and!.
  - intros j Hj Hne. rewrite !entry_link. destruct (Ht j Hj Hne) as [-> ->].
    by decide_cases.
  - intros i Hi Hne. rewrite !entry_link. destruct (Hc i Hi Hne) as [-> ->].
    by decide_cases.
  - intros x y. rewrite entry_link. case_decide as Hd; [|by auto].
    intros _. unfold adjacent in *.
    destruct Hd as [[-> ->]|(_ & -> & ->)]; [done|].
    destruct Hab as (? & ? & ?). split_and!; [done..|lia].
Qed.

Lemma bt_settled_top done j h :
  in_grid nr nc (0, j) → j ≠ nc - 1 →
  bt_settled nr nc done h →
  bt_settled nr nc (done ++ [(0, j)]) (link (0, j) (0, j + 1) true h).
Proof.
  intros [Hi Hj] Hne Hs. simpl in Hi, Hj.
  assert (adjacent nr nc (0, j) (0, j + 1)) as Hadj
    by (unfold adjacent, in_grid; simpl; lia).
  destruct (bt_settled_link done _ _ h Hadj Hs) as (Ht & Hc & Ha).
  split_and!; [| |done].
  - intros j' [Hj'|Hj'%list_elem_of_singleton]%elem_of_app Hne'; [by apply Ht|].
    injection Hj' as ->. rewrite !entry_link.
    rewrite !decide_True; [done|by right|by left].
  - intros i [Hi'|Hi'%list_elem_of_singleton]%elem_of_app Hne'; [by apply Hc|].
    injection Hi' as -> ->. done.
Qed.

Lemma bt_settled_last_column done i h :
  in_grid nr nc (i, nc - 1) → i ≠ 0 →
  bt_settled nr nc done h →
  bt_settled nr nc (done ++ [(i, nc - 1)])
             (link (i, nc - 1) (i - 1, nc - 1) true h).
Proof.
  intros [Hi Hj] Hne Hs. simpl in Hi, Hj.
  assert (adjacent nr nc (i, nc - 1) (i - 1, nc - 1)) as Hadj
    by (unfold adjacent, in_grid; simpl; lia).
  destruct (bt_settled_link done _ _ h Hadj Hs) as (Ht & Hc & Ha).
  split_and!; [| |done].
  - intros j [Hj'|Hj'%list_elem_of_singleton]%elem_of_app Hne'; [by apply Ht|].
    injection Hj' as <- ->. done.
  - intros i' [Hi'|Hi'%list_elem_of_singleton]%elem_of_app Hne'; [by apply Hc|].
    injection Hi' as ->. rewrite !entry_link.
    rewrite !decide_True; [done|by right|by left].
Qed.

(** Unlinking an inner cell from its east or north neighbour touches
    no settled link. *)
Lemma bt_settled_unlink done i j b h :
  in_grid nr nc (i, j) → i ≠ 0 → j ≠ nc - 1 →
  b = (i, j + 1) ∨ b = (i - 1, j) →
  bt_settled nr nc done h → bt_settled nr nc done (unlink (i, j) b true h).
Proof.
  intros [Hi Hj] Hi0 Hjn Hb (Ht & Hc & Ha). simpl in Hi, Hj. split_and!.
  - intros j' Hj' Hne. rewrite !entry_unlink. destruct (Ht j' Hj' Hne) as [-> ->].
    decide_cases; try done; exfalso; destruct Hb; simplify_eq;
      naive_solver lia.
  - intros i' Hi' Hne. rewrite !entry_unlink. destruct (Hc i' Hi' Hne) as [-> ->].
    decide_cases; try done; exfalso; destruct Hb; simplify_eq;
      naive_solver lia.
  - intros x y. rewrite entry_unlink. case_decide as Hd; [|by auto].
    intros _. unfold adjacent, in_grid.
    destruct Hb; simplify_eq; destruct Hd as [[-> ->]|(_ & -> & ->)];
      simpl; lia.
Qed.

Lemma binary_tree_returns h rnd :
  (∀ x y, is_Some (entry h x y) → adjacent nr nc x y) →
  returns (binary_tree (rect nr nc)) (mkWorld h rnd) (λ _ w',
    bt_settled nr nc (i ← reverse (range nr); j ← range nc; [(i, j)]) (heap w')).
Proof.
  intros Hadj. unfold binary_tree, returns. rewrite for_nested.
  apply (returns_for (λ done w, bt_settled nr nc done (heap w))).
  { split_and!; [intros ? []%elem_of_nil..|done]. }
  intros done [i j] post w Hl Hs.
  assert (in_grid nr nc (i, j)) as Hin.
  { apply elem_of_bt_order. simpl num_rows. simpl num_columns. rewrite Hl.
    apply elem_of_app. right. apply list_elem_of_here. }
  pose proof Hin as [Hi Hj]. simpl in Hi, Hj. simpl fst. simpl snd.
  simpl num_columns.
  destruct (bool_decide_reflect (i = 0)) as [->|Hi0];
    destruct (bool_decide_reflect (j = nc - 1)) as [->|Hjn]; cbn [andb].
  - wstep. apply bt_settled_snoc_idle; simpl; [lia..|done].
  - repeat wstep. simpl. by apply bt_settled_top.
  - repeat wstep. simpl. by apply bt_settled_last_column.
  - repeat wstep; simpl;
      try (apply bt_settled_snoc_idle; simpl; [lia..|]);
      repeat (apply bt_settled_unlink; [done|done|done|by auto|]);
      done.
Qed.
End binary_tree.

Section carving.
Context (nr nc : Z).
Implicit Types (h : Heap) (a b x y p : ref).

Lemma linked_unlink x y h a b :
  linked h a b → (a, b) ≠ (x, y) → (a, b) ≠ (y, x) → linked (unlink x y true h) a b.
Proof.
  unfold linked. rewrite entry_unlink. intros -> H1 H2.
  rewrite decide_False; [done|]. intros [[-> ->]|(_ & -> & ->)]; done.
Qed.

Lemma symmetric_link x y h : symmetric h → symmetric (link x y true h).
Proof. by apply (symmetric_run_call (Link x y true)). Qed.

Lemma symmetric_unlink x y h : symmetric h → symmetric (unlink x y true h).
Proof. by apply (symmetric_run_call (Unlink x y true)). Qed.

Lemma bt_parent_link x y h p : bt_parent nc h p → bt_parent nc (link x y true h) p.
Proof.
  intros [?|[[? ?]|[? ?]]]; [by left|right; left|right; right];
    (split; [done|by apply linked_link]).
Qed.

Lemma bt_carved_corner done h :
  bt_carved nr nc done h → bt_carved nr nc (done ++ [(0, nc - 1)]) h.
Proof.
  intros (Hs & Hd & Hn). split_and!; [done| |].
  - intros p [Hp|Hp%list_elem_of_singleton]%elem_of_app; [by apply Hd|by left].
  - intros p Hp Hnot. apply Hn; [done|]. intros ?. apply Hnot, elem_of_app. by left.
Qed.

Lemma bt_carved_link done i j b h :
  (i = 0 ∧ b = (i, j + 1) ∧ j ≠ nc - 1) ∨ (i ≠ 0 ∧ b = (i - 1, j)) →
  bt_carved nr nc done h →
  bt_carved nr nc (done ++ [(i, j)]) (link (i, j) b true h).
Proof.
  intros Hb (Hs & Hd & Hn). split_and!.
  - by apply symmetric_link.
  - intros p [Hp|Hp%list_elem_of_singleton]%elem_of_app.
    + by apply bt_parent_link, Hd.
    + subst p. destruct Hb as [(-> & -> & ?)|[? ->]]; [right; right|right; left];
        (split; [done|apply linked_link_eq]).
  - intros p Hp Hnot.
    destruct (Hn p Hp) as [H1 H2].
    { intros ?. apply Hnot, elem_of_app. by left. }
    split; intros ?; apply linked_link; auto.
Qed.

(** An inner cell gives up its east or its north passage and keeps the
    other one. *)
Lemma bt_carved_unlink done i j b h :
  in_grid nr nc (i, j) → (i, j) ∉ done → i ≠ 0 → j ≠ nc - 1 →
  b = (i, j + 1) ∨ b = (i - 1, j) →
  bt_carved nr nc done h →
  bt_carved nr nc (done ++ [(i, j)]) (unlink (i, j) b true h).
Proof.
  intros Hin Hx Hi Hj Hb (Hs & Hd & Hn). split_and!.
  - by apply symmetric_unlink.
  - intros p [Hp|Hp%list_elem_of_singleton]%elem_of_app; [|subst p].
    + assert (p ≠ (i, j)) as Hne by (by intros ->).
      destruct p as [pi pj].
      destruct (Hd _ Hp) as [?|[[? ?]|[? ?]]]; [by left|right; left|right; right];
        (split; [done|]); simpl in *;
        (apply linked_unlink; [done|..]); destruct Hb as [-> | ->];
        intros [= ]; simplify_eq; lia.
    + destruct (Hn (i, j) Hin Hx) as [H1 H2]. simpl in *.
      destruct Hb as [-> | ->]; [right; left|right; right]; (split; [done|]);
        simpl; (apply linked_unlink; [auto|..]); intros [= ]; lia.
  - intros [pi pj] Hp Hnot.
    assert ((pi, pj) ≠ (i, j)) as Hne.
    { intros [= -> ->]. apply Hnot, elem_of_app. right. apply list_elem_of_here. }
    destruct (Hn _ Hp) as [H1 H2].
    { intros ?. apply Hnot, elem_of_app. by left. }
    simpl in *.
    split; intros ?; (apply linked_unlink; [auto|..]); destruct Hb as [-> | ->];
      intros [= ]; simplify_eq; lia.
Qed.

Lemma NoDup_range n : NoDup (range n).
Proof.
  unfold range. apply (NoDup_fmap_2 Z.of_nat), NoDup_seq.
Qed.

Lemma NoDup_bt_order : NoDup (i ← reverse (range nr); j ← range nc; [(i, j)]).
Proof.
  apply NoDup_bind.
  - intros i1 i2 p _ _ (j1 & H1%list_elem_of_singleton & _)%list_elem_of_bind
      (j2 & H2%list_elem_of_singleton & _)%list_elem_of_bind. congruence.
  - intros i _. apply NoDup_bind.
    + intros j1 j2 p _ _ H1%list_elem_of_singleton H2%list_elem_of_singleton.
      congruence.
    + intros. apply NoDup_singleton.
    + apply NoDup_range.
  - rewrite reverse_Permutation. apply NoDup_range.
Qed.

Lemma binary_tree_carves h rnd :
  symmetric h → fully_linked nr nc h →
  returns (binary_tree (rect nr nc)) (mkWorld h rnd) (λ _ w',
    symmetric (heap w') ∧ ∀ p, in_grid nr nc p → bt_parent nc (heap w') p).
Proof.
  intros Hs Hfull. unfold binary_tree, returns. rewrite for_nested.
  match goal with
  | |- ∃ _ _, for_ ?L ?B _ = _ ∧ _ =>
      destruct (returns_for (λ done w, bt_carved nr nc done (heap w)) L B
                  (mkWorld h rnd)) as ([] & w' & Hrun & Hs' & Hd & _)
  end.
  - split_and!; [done|by intros ? []%elem_of_nil|].
    intros [i j] [Hi Hj] _. simpl in *.
    split; intros ?; apply Hfull; unfold adjacent, in_grid; simpl; lia.
  - intros done [i j] post w Hl Hc.
    assert (in_grid nr nc (i, j)) as Hin.
    { apply elem_of_bt_order. simpl num_rows in Hl. simpl num_columns in Hl.
      rewrite Hl. apply elem_of_app. right. apply list_elem_of_here. }
    assert ((i, j) ∉ done) as Hnew.
    { pose proof NoDup_bt_order as Hnd. simpl num_rows in Hl.
      simpl num_columns in Hl. rewrite Hl in Hnd.
      apply NoDup_app in Hnd as (_ & Hnd & _). intros Hd. apply (Hnd _ Hd).
      apply list_elem_of_here. }
    pose proof Hin as [Hi Hj]. simpl in Hi, Hj. simpl fst. simpl snd.
    simpl num_columns.
    destruct (bool_decide_reflect (i = 0)) as [->|Hi0];
      destruct (bool_decide_reflect (j = nc - 1)) as [->|Hjn]; cbn [andb].
    + wstep. by apply bt_carved_corner.
    + repeat wstep. simpl. apply bt_carved_link; [|done]. left. done.
    + repeat wstep. simpl. apply bt_carved_link; [|done]. right. done.
    + repeat wstep; simpl; try lia; by apply bt_carved_unlink; auto.
  - exists tt, w'. split; [done|]. split; [done|].
    intros p Hp. apply Hd. by apply elem_of_bt_order.
Qed.

(** Following the kept passages leads every cell to the top right
    corner. *)
Lemma bt_reach_corner h :
  (∀ p, in_grid nr nc p → bt_parent nc h p) →
  ∀ p, in_grid nr nc p → rtc (linked h) p (0, nc - 1).
Proof.
  intros Hpar.
  enough (∀ (n : nat) p, in_grid nr nc p → p.1 + (nc - 1 - p.2) < Z.of_nat n →
            rtc (linked h) p (0, nc - 1)) as Hn.
  { intros p Hp. apply (Hn (S (Z.to_nat (p.1 + (nc - 1 - p.2)))) p Hp).
    destruct Hp. lia. }
  induction n as [|n IH]; intros [i j] [Hi Hj] Hm; simpl in *; [lia|].
  destruct (Hpar (i, j)) as [[= -> ->]|[[? Hl]|[? Hl]]]; [done|done|..]; simpl in *.
  - eapply rtc_l; [exact Hl|]. apply IH; [split; simpl; lia|simpl; lia].
  - eapply rtc_l; [exact Hl|]. apply IH; [split; simpl; lia|simpl; lia].
Qed.

Lemma rtc_linked_sym h a b :
  symmetric h → rtc (linked h) a b → rtc (linked h) b a.
Proof.
  intros Hs. induction 1 as [|a c b Hac _ IH]; [done|].
  eapply rtc_r; [exact IH|]. unfold linked in *. by rewrite <- (Hs a c).
Qed.
End carving.

(** X16: [binary_tree] on a new grid of any size, with any random draws,
    returns and leaves every cell reachable from every other cell. *)
Theorem binary_tree_connected nr nc g h rnd :
  fresh nr nc = (Ret g, h) →
  ∃ w', binary_tree g (mkWorld h rnd) = (Ret tt, w') ∧ connected g (heap w').
Proof.
  intros (_ & _ & -> & [Hs _] & Hfull)%fresh_inv.
  destruct (binary_tree_carves nr nc h rnd Hs Hfull) as ([] & w' & Hrun & Hs' & Hpar).
  exists w'. split; [done|]. intros a b Ha Hb.
  rewrite cells_grid_rows in Ha, Hb. apply elem_of_index_pairs in Ha, Hb.
  transitivity (0, nc - 1).
  - by apply (bt_reach_corner nr nc).
  - apply rtc_linked_sym; [done|]. by apply (bt_reach_corner nr nc).
Qed.

(** C7, as amended: for every tape of random draws, [binary_tree] on a
    new 4x4 grid returns, and then the link table of the cell (0,3) is
    exactly (0,2) -> True, (1,3) -> True (two entries whose state is
    True: its west and south neighbours link to it); every other cell of
    row 0 is linked to its east neighbour and otherwise at most to its
    west and south neighbours; every other cell of column 3 is linked to
    its north neighbour and otherwise at most to its south and west
    neighbours. *)
Theorem binary_tree_4x4 rnd :
  let g := rect 4 4 in
  let h := (fresh 4 4).2 in
  fresh 4 4 = (Ret g, h)
  ∧ ∃ w', binary_tree g (mkWorld h rnd) = (Ret tt, w')
      ∧ links (heap w' !!! (0, 3)) = {[(0, 2) := true; (1, 3) := true]}
      ∧ true_entries (0, 3) (heap w') = 2
      ∧ (∀ j, 0 ≤ j < 3 →
           is_linked (0, j) (0, j + 1) (heap w') = Ret true
           ∧ ∀ y, linked (heap w') (0, j) y →
                  y = (0, j + 1) ∨ y = (0, j - 1) ∨ y = (1, j))
      ∧ (∀ i, 0 < i ≤ 3 →
           is_linked (i, 3) (i - 1, 3) (heap w') = Ret true
           ∧ ∀ y, linked (heap w') (i, 3) y →
                  y = (i - 1, 3) ∨ y = (i + 1, 3) ∨ y = (i, 2)).
Proof.
  intros g h.
  assert (fresh 4 4 = (Ret g, h)) as Hf by (by vm_compute).
  split; [done|].
  pose proof (fresh_inv 4 4 g h Hf) as (_ & _ & _ & [_ Hadj] & _).
  destruct (binary_tree_returns 4 4 h rnd Hadj) as ([] & w' & Hrun & Ht & Hc & Ha).
  exists w'. split; [exact Hrun|].
  clear Hf Hadj Hrun. clearbody g h. change (4 - 1) with 3 in Ht, Hc.
  assert (∀ p, in_grid 4 4 p →
            p ∈ (i ← reverse (range 4); j ← range 4; [(i, j)])) as Hin
    by (intros p; apply elem_of_bt_order).
  assert (links (heap w' !!! (0, 3)) = {[(0, 2) := true; (1, 3) := true]}) as Htab.
  { apply map_eq. intros y.
    destruct (Ht 2) as [_ H2]; [apply Hin; unfold in_grid; simpl; lia|done|].
    destruct (Hc 1) as [_ H1]; [apply Hin; unfold in_grid; simpl; lia|done|].
    destruct (decide (y = (0, 2))) as [->|Hy2]; [by rewrite lookup_insert_eq|].
    rewrite lookup_insert_ne by done.
    destruct (decide (y = (1, 3))) as [->|Hy1]; [by rewrite lookup_singleton_eq|].
    rewrite lookup_singleton_ne by done.
    destruct (links (heap w' !!! (0, 3)) !! y) as [v|] eqn:Hy; [|done].
    exfalso. destruct (Ha (0, 3) y) as (_ & [? ?] & ?);
      [unfold entry; by rewrite Hy|].
    destruct y as [i j]. simpl in *.
    assert ((i = 0 ∧ j = 2) ∨ (i = 1 ∧ j = 3)) as [[-> ->]|[-> ->]] by lia; done. }
  split; [done|]. split.
  { unfold true_entries. rewrite Htab. by vm_compute. }
  split.
  - intros j Hj. split.
    + rewrite is_linked_entry. destruct (Ht j) as [-> _]; [|lia|done].
      apply Hin. unfold in_grid. simpl. lia.
    + intros [i' j'] Hy. destruct (Ha (0, j) (i', j')) as (_ & [? ?] & ?).
      { unfold linked in Hy. by rewrite Hy. }
      simpl in *.
      assert ((i' = 0 ∧ j' = j + 1) ∨ (i' = 0 ∧ j' = j - 1) ∨ (i' = 1 ∧ j' = j))
        as [[-> ->]|[[-> ->]|[-> ->]]] by lia; auto.
  - intros i Hi. split.
    + rewrite is_linked_entry. destruct (Hc i) as [-> _]; [|lia|done].
      apply Hin. unfold in_grid. simpl. lia.
    + intros [i' j'] Hy. destruct (Ha (i, 3) (i', j')) as (_ & [? ?] & ?).
      { unfold linked in Hy. by rewrite Hy. }
      simpl in *.
      assert ((i' = i - 1 ∧ j' = 3) ∨ (i' = i + 1 ∧ j' = 3) ∨ (i' = i ∧ j' = 2))
        as [[-> ->]|[[-> ->]|[-> ->]]] by lia; auto.
Qed.

(** C7 as stated fails: with the tape of zeros the cell (0,3) ends
    with two entries whose state is True, not zero. *)
Lemma binary_tree_4x4_counterexample :
  ¬ (∀ rnd w',
       binary_tree (rect 4 4) (mkWorld (fresh 4 4).2 rnd)
       = (Ret tt, w') →
       true_entries (0, 3) (heap w') = 0).
Proof.
  intros H.
  set (run := binary_tree (rect 4 4)
                          (mkWorld (fresh 4 4).2 (λ _, 0%nat))).
  assert (run = (Ret tt, run.2)) as Hrun by (by vm_compute).
  apply H in Hrun. vm_compute in Hrun. discriminate Hrun.
Qed.

(** ** Searching the links *)

Lemma reach_sound n g h a seen y :
  (∀ x, x ∈ seen → rtc (linked h) a x) →
  y ∈ reach n g h seen → rtc (linked h) a y.
Proof.
  revert seen. induction n as [|n IH]; intros seen Hseen Hy; simpl in Hy; [auto|].
  apply (IH _ ) in Hy; [done|].
  intros x [Hx|Hx]%elem_of_app; [auto|].
  apply list_elem_of_In, filter_In in Hx as [_ [_ Hx]%andb_true_iff].
  apply existsb_exists in Hx as (x0 & Hx0%list_elem_of_In & Hl%bool_decide_eq_true).
  eapply rtc_r; [by apply Hseen|done].
Qed.

Lemma connectedb_sound g h : connectedb g h = true → connected g h.
Proof.
  unfold connectedb. rewrite forallb_forall. intros Hc a b Ha Hb.
  specialize (Hc a (proj1 (list_elem_of_In _ _) Ha)).
  rewrite forallb_forall in Hc.
  specialize (Hc b (proj1 (list_elem_of_In _ _) Hb)).
  apply bool_decide_eq_true in Hc. eapply reach_sound; [|exact Hc].
  by intros x ->%list_elem_of_singleton.
Qed.

(** Sample runs of the other three algorithms that end connected. *)
Lemma sidewinder_sample :
  let g := rect 3 3 in
  let run := sidewinder g 0.5%float
               (mkWorld (fresh 3 3).2
                  (tape [3; 3; 4; 5; 0; 1; 4; 2; 6; 0; 7; 1; 9; 0; 2; 1]%nat)) in
  run.1 = Ret tt ∧ connected g (heap run.2).
Proof.
  intros g run. split; [by vm_compute|].
  apply connectedb_sound. by vm_compute.
Qed.

Lemma aldous_broder_sample :
  let g := rect 2 2 in
  let run := aldous_broder 10 g
               (mkWorld (fresh 2 2).2 (tape [1; 0; 0; 2; 1; 3; 1]%nat)) in
  run.1 = Ret 5 ∧ connected g (heap run.2).
Proof.
  intros g run. split; [by vm_compute|].
  apply connectedb_sound. by vm_compute.
Qed.

Lemma wilson_sample :
  let g := rect 2 3 in
  let run := wilson 20 g
               (mkWorld (fresh 2 3).2
                  (tape [4; 0; 5; 1; 2; 3; 0; 1; 3; 3; 0; 1; 2; 1; 0; 1; 2; 3]%nat)) in
  run.1 = Ret (7, 5) ∧ connected g (heap run.2).
Proof.
  intros g run. split; [by vm_compute|].
  apply connectedb_sound. by vm_compute.
Qed.

(** * The rest of the module

    ** The attributes of the cells of a new grid *)

Lemma returns_det {S A} (m : M S A) s (Q Q' : A → S → Prop) :
  returns m s Q → returns m s Q' → returns m s (λ a s', Q a s' ∧ Q' a s').
Proof.
  intros (a & s1 & H1 & HQ) (a' & s2 & H2 & HQ'). rewrite H1 in H2.
  injection H2 as <- <-. exists a, s1. auto.
Qed.

Lemma returns_collect_pre {S A B} (I : list A → S → Prop) (f' : A → B) (l : list A)
    (f : A → M S B) s :
  I [] s →
  (∀ pre x post s, l = pre ++ x :: post → I pre s →
     returns (f x) s (λ y s', y = f' x ∧ I (pre ++ [x]) s')) →
  returns (collect l f) s (λ ys s', ys = f' <$> l ∧ I l s').
Proof.
  intros H0 Hf.
  enough (∀ post pre s, l = pre ++ post → I pre s →
            returns (collect post f) s (λ ys s', ys = f' <$> post ∧ I l s')) as Hgen.
  { by apply (Hgen l [] s). }
  clear s H0. induction post as [|x post IH]; intros pre s Hl Hpre; simpl.
  - apply returns_ret. split; [done|]. by rewrite Hl, app_nil_r.
  - apply returns_bind. eapply returns_mono; [by eapply Hf|].
    intros y s1 [-> Hs1]. simpl. apply returns_bind. eapply returns_mono.
    { apply (IH (pre ++ [x])); [|done]. by rewrite <- app_assoc. }
    intros ys s2 [-> Hs2]. simpl. by apply returns_ret.
Qed.

Section wiring.
Context (nr nc : Z).
Implicit Types (h : Heap) (a b x y p : ref).

Lemma lookup_total_update a (f : Cell → Cell) h p :
  update a f h !!! p = if decide (p = a) then f (h !!! a) else h !!! p.
Proof.
  unfold update. case_decide as Hp.
  - subst p. by rewrite lookup_total_insert_eq.
  - by rewrite lookup_total_insert_ne.
Qed.

Lemma is_Some_update a (f : Cell → Cell) h p :
  is_Some (h !! p) → is_Some (update a f h !! p).
Proof.
  intros Hp. unfold update. destruct (decide (p = a)) as [->|].
  - rewrite lookup_insert_eq. eauto.
  - by rewrite lookup_insert_ne.
Qed.

Lemma with_links_id c : with_links (λ m, m) c = c.
Proof. by destruct c. Qed.

Lemma with_links_compose f g c :
  with_links f (with_links g c) = with_links (λ m, f (g m)) c.
Proof. done. Qed.

Lemma set_link_lookup_total a b v h p :
  ∃ g, set_link a b v h !!! p = with_links g (h !!! p).
Proof.
  unfold set_link. rewrite lookup_total_update. case_decide as Hp.
  - subst p. eexists. reflexivity.
  - exists (λ m, m). by rewrite with_links_id.
Qed.

Lemma link_lookup_total a b d h p : ∃ g, link a b d h !!! p = with_links g (h !!! p).
Proof.
  unfold link. destruct d.
  - destruct (set_link_lookup_total b a true (set_link a b true h) p) as [g1 ->].
    destruct (set_link_lookup_total a b true h p) as [g2 ->]. by exists (λ m, g1 (g2 m)).
  - apply set_link_lookup_total.
Qed.

Lemma unlink_lookup_total a b d h p : ∃ g, unlink a b d h !!! p = with_links g (h !!! p).
Proof.
  unfold unlink. destruct d.
  - destruct (set_link_lookup_total b a false (set_link a b false h) p) as [g1 ->].
    destruct (set_link_lookup_total a b false h p) as [g2 ->]. by exists (λ m, g1 (g2 m)).
  - apply set_link_lookup_total.
Qed.

Lemma geometry_link a b d h p : geometry (link a b d h !!! p) = geometry (h !!! p).
Proof. by destruct (link_lookup_total a b d h p) as [g ->]. Qed.

Lemma geometry_unlink a b d h p : geometry (unlink a b d h !!! p) = geometry (h !!! p).
Proof. by destruct (unlink_lookup_total a b d h p) as [g ->]. Qed.

Lemma is_Some_link a b d h p : is_Some (h !! p) → is_Some (link a b d h !! p).
Proof.
  intros Hp. unfold link, set_link. destruct d; repeat apply is_Some_update; done.
Qed.

Lemma is_Some_unlink a b d h p : is_Some (h !! p) → is_Some (unlink a b d h !! p).
Proof.
  intros Hp. unfold unlink, set_link. destruct d; repeat apply is_Some_update; done.
Qed.

Lemma placed_geometry p c c' : geometry c = geometry c' → placed nr nc p c → placed nr nc p c'.
Proof. unfold geometry, placed. intros [= -> -> -> -> -> ->]. done. Qed.

Lemma wired_link a b d h : wired nr nc h → wired nr nc (link a b d h).
Proof.
  intros Hw p Hp. destruct (Hw p Hp) as [H1 H2]. split; [by apply is_Some_link|].
  eapply placed_geometry; [|done]. by rewrite geometry_link.
Qed.

Lemma wired_unlink a b d h : wired nr nc h → wired nr nc (unlink a b d h).
Proof.
  intros Hw p Hp. destruct (Hw p Hp) as [H1 H2]. split; [by apply is_Some_unlink|].
  eapply placed_geometry; [|done]. by rewrite geometry_unlink.
Qed.

Lemma wired_run_calls cs h : wired nr nc h → wired nr nc (run_calls cs h).
Proof.
  induction cs as [|c cs IH] using rev_ind; [done|].
  intros Hw. rewrite run_calls_snoc. destruct c; simpl.
  - by apply wired_link, IH.
  - by apply wired_unlink, IH.
Qed.

Lemma create_cells_blank h :
  returns (create_cells nr nc) h (λ rows h', ∀ p, in_grid nr nc p → h' !! p = Some (blank p)).
Proof.
  unfold create_cells.
  eapply returns_mono.
  { apply (returns_collect_pre
             (λ pre h, ∀ i j, i ∈ pre → 0 ≤ j < nc → h !! (i, j) = Some (blank (i, j)))
             (λ i, (λ j, (i, j)) <$> range nc)).
    - by intros i j []%elem_of_nil.
    - intros pre i post h1 Hl Hpre.
      assert (0 ≤ i < nr) as Hi.
      { apply elem_of_range. rewrite Hl. apply elem_of_app. right. apply list_elem_of_here. }
      eapply returns_mono.
      { apply (returns_collect_pre
          (λ prej h, (∀ i j, i ∈ pre → 0 ≤ j < nc → h !! (i, j) = Some (blank (i, j)))
                     ∧ ∀ j, j ∈ prej → h !! (i, j) = Some (blank (i, j)))
          (λ j, (i, j))).
        - split; [done|]. by intros j []%elem_of_nil.
        - intros prej j postj h2 Hlj [H1 H2].
          assert (0 ≤ j < nc) as Hj.
          { apply elem_of_range. rewrite Hlj. apply elem_of_app. right.
            apply list_elem_of_here. }
          eexists _, _. split; [apply Cell_init_returns; lia|]. split; [done|]. split.
          + intros i' j' Hi' Hj'. destruct (decide ((i', j') = (i, j))) as [->|Hne].
            * by rewrite lookup_insert_eq.
            * rewrite lookup_insert_ne by done. by apply H1.
          + intros j' Hj'. destruct (decide (j' = j)) as [->|Hne].
            * by rewrite lookup_insert_eq.
            * rewrite lookup_insert_ne by congruence. apply H2.
              apply elem_of_app in Hj' as [?|?%list_elem_of_singleton]; done. }
      intros ys s' [-> [H1 H2]]. simpl. split; [done|].
      intros i' j' [Hi'|Hi'%list_elem_of_singleton]%elem_of_app Hj'; [by apply H1|].
      subst i'. apply H2. by apply elem_of_range. }
  intros rows h' [_ H] [i j] [Hi Hj]. simpl in *. apply H; [|done]. by apply elem_of_range.
Qed.

Lemma lookup_total_Some h p c : h !! p = Some c → h !!! p = c.
Proof. apply lookup_total_correct. Qed.

Lemma lookup_total_update_eq a (f : Cell → Cell) h : update a f h !!! a = f (h !!! a).
Proof. rewrite lookup_total_update. by rewrite decide_True. Qed.

Lemma lookup_total_update_ne a (f : Cell → Cell) h p : p ≠ a → update a f h !!! p = h !!! p.
Proof. intros. rewrite lookup_total_update. by rewrite decide_False. Qed.

Ltac peel :=
  repeat first
    [ rewrite lookup_total_update_eq
    | rewrite lookup_total_update_ne by done
    | match goal with
      | |- context [link ?a ?b ?d ?h !!! ?p] =>
          let g := fresh "g" in destruct (link_lookup_total a b d h p) as [g ->]
      end ].

Lemma connect_cells_wired h :
  (∀ p, in_grid nr nc p → is_Some (h !! p) ∧ half_placed nr nc p (h !!! p)) →
  returns (connect_cells (rect nr nc)) h (λ _ h', wired nr nc h').
Proof.
  intros Hh. unfold connect_cells, returns. rewrite for_nested.
  match goal with
  | |- ∃ _ _, for_ ?L ?B _ = _ ∧ _ =>
      destruct (returns_for (λ done h,
                  ∀ p, in_grid nr nc p →
                    is_Some (h !! p) ∧ half_placed nr nc p (h !!! p)
                    ∧ (p ∈ done → placed nr nc p (h !!! p))) L B h)
        as ([] & h' & Hrun & Hd)
  end.
  - intros p Hp. destruct (Hh p Hp). split_and!; [done..|]. by intros []%elem_of_nil.
  - intros done [i j] post h1 Hl Hinv.
    assert (in_grid nr nc (i, j)) as [Hi Hj].
    { apply elem_of_index_pairs. simpl num_rows in Hl. simpl num_columns in Hl.
      rewrite Hl. apply elem_of_app. right. apply list_elem_of_here. }
    simpl in Hi, Hj. simpl fst. simpl snd. simpl num_rows. simpl num_columns.
    repeat mstep; intros p Hp; destruct (Hinv p Hp) as (Hs & Hhalf & Hdone);
      (split; [repeat first [apply is_Some_update | apply is_Some_link]; done|]);
      rewrite elem_of_app, list_elem_of_singleton;
      (destruct (decide (p = (i, j))) as [->|Hne]; peel;
       [ clear Hdone; destruct (Hinv (i, j)) as (_ & Hij & _); [split; simpl; lia|];
         revert Hij; unfold half_placed, placed; simpl;
         repeat first [rewrite decide_True by lia | rewrite decide_False by lia];
         clear; intuition congruence
       | split; [done|]; intros [?|?]; [auto|done] ]).
  - exists tt, h'. split; [done|]. intros p Hp. destruct (Hd p Hp) as (? & _ & H).
    split; [done|]. apply H. by apply elem_of_index_pairs.
Qed.
End wiring.

Lemma half_placed_blank nr nc p : half_placed nr nc p (blank p).
Proof. unfold half_placed, blank. simpl. split_and!; auto. Qed.

Lemma Grid_init_wired nr nc :
  0 < nr → 0 < nc → returns (Grid_init nr nc) ∅ (λ _ h', wired nr nc h').
Proof.
  intros Hnr Hnc. unfold Grid_init, assert.
  rewrite (proj2 (Z.ltb_lt 0 nr)), (proj2 (Z.ltb_lt 0 nc)) by done.
  do 5 mstep. eapply returns_mono.
  { apply (returns_det _ _ _ _ (create_cells_returns nr nc ∅ entry_empty)
                       (create_cells_blank nr nc ∅)). }
  intros rows h1 [[-> _] Hb]. simpl. mstep.
  eapply returns_mono; [apply connect_cells_wired|].
  - intros p Hp. rewrite (lookup_total_Some _ _ _ (Hb p Hp)), (Hb p Hp).
    split; [by eexists|]. apply half_placed_blank.
  - intros [] h2 Hh2. simpl. by mstep.
Qed.

Lemma fresh_wired nr nc g h : fresh nr nc = (Ret g, h) → wired nr nc h.
Proof.
  intros Hf. pose proof (Grid_init_positive _ _ _ _ _ Hf) as [Hnr Hnc].
  destruct (Grid_init_wired nr nc Hnr Hnc) as (g1 & h1 & Hg & Hw).
  unfold fresh in Hf. rewrite Hf in Hg. by injection Hg as -> ->.
Qed.

(** ** The constructor *)

Lemma length_grid_rows nr nc : length (grid_rows nr nc) = Z.to_nat nr.
Proof. unfold grid_rows. by rewrite length_fmap, length_range. Qed.

Lemma Forall_grid_rows nr nc :
  Forall (λ r : list ref, length r = Z.to_nat nc) (grid_rows nr nc).
Proof.
  unfold grid_rows. apply Forall_fmap, Forall_forall. intros i _. simpl.
  by rewrite length_fmap, length_range.
Qed.

(** X1: [Grid(num_rows, num_columns)] returns exactly when both sizes
    are positive, and then the grid records the two sizes and holds
    [num_rows] rows of [num_columns] cells each; with a size that is zero
    or negative the first or the second [assert] raises AssertionError
    before any cell is created. *)
Theorem Grid_init_outcome nr nc :
  (0 < nr ∧ 0 < nc →
     ∃ g h, fresh nr nc = (Ret g, h) ∧ num_rows g = nr ∧ num_columns g = nc
            ∧ len (grid g) = nr ∧ Forall (λ r, len r = nc) (grid g))
  ∧ (¬ (0 < nr ∧ 0 < nc) → fresh nr nc = (Raise AssertionError, ∅)).
Proof.
  split.
  - intros [Hnr Hnc].
    destruct (Grid_init_returns nr nc ∅ Hnr Hnc entry_empty) as (g & h & Hg & -> & _).
    exists (rect nr nc), h. split_and!; [done..| |].
    + unfold len. simpl. rewrite length_grid_rows. lia.
    + simpl. eapply Forall_impl; [apply Forall_grid_rows|].
      intros r Hr. unfold len. simpl in Hr. rewrite Hr. lia.
  - intros Hn. unfold fresh, Grid_init, assert. rewrite !bind_eq.
    destruct (Z.ltb_spec 0 nr); [|done]. simpl.
    destruct (Z.ltb_spec 0 nc); [|done]. lia.
Qed.

(** X2: in a new grid, [cell_at(i, j)] for a position of the grid is a
    cell object of the store whose [row] is [i] and [column] is [j]; its
    [north] is [None] exactly in row 0 and is otherwise the cell
    [cell_at(i - 1, j)], and likewise [south] ([None] in the last row,
    else [cell_at(i + 1, j)]), [east] ([None] in the last column, else
    [cell_at(i, j + 1)]) and [west] ([None] in column 0, else
    [cell_at(i, j - 1)]). *)
Theorem new_grid_attributes nr nc g h i j :
  fresh nr nc = (Ret g, h) → 0 ≤ i < nr → 0 ≤ j < nc →
  ∃ c, cell_at g i j = Ret c
    ∧ is_Some (h !! c)
    ∧ row (h !!! c) = i ∧ column (h !!! c) = j
    ∧ match north (h !!! c) with
      | Some n => i ≠ 0 ∧ cell_at g (i - 1) j = Ret n
      | None => i = 0
      end
    ∧ match south (h !!! c) with
      | Some n => i ≠ nr - 1 ∧ cell_at g (i + 1) j = Ret n
      | None => i = nr - 1
      end
    ∧ match east (h !!! c) with
      | Some n => j ≠ nc - 1 ∧ cell_at g i (j + 1) = Ret n
      | None => j = nc - 1
      end
    ∧ match west (h !!! c) with
      | Some n => j ≠ 0 ∧ cell_at g i (j - 1) = Ret n
      | None => j = 0
      end.
Proof.
  intros Hf Hi Hj. pose proof (fresh_wired _ _ _ _ Hf) as Hw. unfold wired, placed in Hw.
  apply fresh_inv in Hf as (_ & _ & -> & _).
  destruct (Hw (i, j)) as (Hs & Hr & Hc & Hn & Hso & He & Hwe); [done|].
  exists (i, j). unfold cell_at. split; [by apply grid_get_rows|].
  split; [done|]. split; [done|]. split; [done|].
  rewrite Hn, Hso, He, Hwe. clear Hn Hso He Hwe Hw. simpl.
  split_and!; case_decide; simpl; try done; (split; [done|]); apply grid_get_rows; lia.
Qed.

Lemma new_grid_attributes_witness :
  ∃ c, cell_at (rect 2 3) 1 2 = Ret c
    ∧ north ((fresh 2 3).2 !!! c) = Some (0, 2)
    ∧ east ((fresh 2 3).2 !!! c) = None.
Proof.
  destruct (new_grid_attributes 2 3 (rect 2 3) (fresh 2 3).2 1 2)
    as (c & Hc & _ & _ & _ & Hn & _ & He & _); [by vm_compute|lia|lia|].
  exists c. split; [done|].
  destruct (north _) as [n|]; [|lia]. destruct (east _) as [e|]; [lia|].
  split; [|done]. destruct Hn as [_ Hn]. vm_compute in Hn. congruence.
Defined.

(** X3: in a new grid, [a.is_linked(b)] is [True] for every pair of
    geographic neighbours [a], [b] ([connect_cells] links them), and it
    raises KeyError for every other pair of cells, a cell and itself
    included: the link tables hold the neighbours and nothing else. *)
Theorem new_grid_links nr nc g h a b :
  fresh nr nc = (Ret g, h) →
  (adjacent nr nc a b → is_linked a b h = Ret true)
  ∧ (¬ adjacent nr nc a b → is_linked a b h = Raise KeyError).
Proof.
  intros (_ & _ & _ & [_ Hadj] & Hfull)%fresh_inv. rewrite !is_linked_entry. split.
  - intros Hab. by rewrite (Hfull a b Hab).
  - intros Hab. destruct (entry h a b) as [v|] eqn:He; [|done].
    destruct Hab. apply Hadj. by rewrite He.
Qed.

Lemma new_grid_links_witness :
  is_linked (0, 0) (0, 1) (fresh 2 2).2 = Ret true
  ∧ is_linked (0, 0) (1, 1) (fresh 2 2).2 = Raise KeyError.
Proof.
  split.
  - apply (new_grid_links 2 2 (rect 2 2) _ (0, 0) (0, 1)); [by vm_compute|].
    unfold adjacent, in_grid. simpl. lia.
  - apply (new_grid_links 2 2 (rect 2 2) _ (0, 0) (1, 1)); [by vm_compute|].
    unfold adjacent, in_grid. simpl. lia.
Defined.

(** X4: [cell_at(i, j)] indexes as Python lists do.  For
    [-num_rows <= i < num_rows] and [-num_columns <= j < num_columns] it
    returns the cell in row [i mod num_rows] and column
    [j mod num_columns] (a negative index counts from the end); for every
    other pair of indices it raises IndexError. *)
Theorem cell_at_index nr nc g h i j :
  fresh nr nc = (Ret g, h) →
  (- nr ≤ i < nr ∧ - nc ≤ j < nc →
     ∃ c, cell_at g i j = Ret c
          ∧ row (h !!! c) = i mod nr ∧ column (h !!! c) = j mod nc)
  ∧ (¬ (- nr ≤ i < nr ∧ - nc ≤ j < nc) → cell_at g i j = Raise IndexError).
Proof.
  intros Hf. pose proof (fresh_wired _ _ _ _ Hf) as Hw. unfold wired, placed in Hw.
  apply fresh_inv in Hf as (Hnr & Hnc & -> & _).
  unfold cell_at. rewrite grid_get_rows_wrap by lia. split.
  - intros Hin. rewrite decide_True by done. eexists. split; [done|].
    assert (wrap nr i = i mod nr) as ->.
    { unfold wrap. case_decide.
      - rewrite <- (Z.mod_add i 1 nr) by lia. rewrite Z.mod_small; lia.
      - rewrite Z.mod_small; lia. }
    assert (wrap nc j = j mod nc) as ->.
    { unfold wrap. case_decide.
      - rewrite <- (Z.mod_add j 1 nc) by lia. rewrite Z.mod_small; lia.
      - rewrite Z.mod_small; lia. }
    destruct (Hw (i mod nr, j mod nc)) as (_ & Hr & Hc & _); [|done].
    split; simpl; apply Z.mod_pos_bound; lia.
  - intros Hout. by rewrite decide_False.
Qed.

Lemma cell_at_index_witness :
  (∃ c, cell_at (rect 2 3) (-1) 1 = Ret c
        ∧ row ((fresh 2 3).2 !!! c) = 1 ∧ column ((fresh 2 3).2 !!! c) = 1)
  ∧ cell_at (rect 2 3) 2 0 = Raise IndexError.
Proof.
  destruct (cell_at_index 2 3 (rect 2 3) (fresh 2 3).2 (-1) 1) as [H1 _];
    [by vm_compute|].
  destruct (cell_at_index 2 3 (rect 2 3) (fresh 2 3).2 2 0) as [_ H2];
    [by vm_compute|].
  split; [apply H1; lia|apply H2; lia].
Defined.

(** ** neighbors *)

Lemma neighbors_geometry p h h' :
  geometry (h' !!! p) = geometry (h !!! p) → neighbors p h' = neighbors p h.
Proof. unfold geometry, neighbors. intros [= _ _ -> -> -> ->]. done. Qed.

Lemma geometry_run_calls cs h p : geometry (run_calls cs h !!! p) = geometry (h !!! p).
Proof.
  induction cs as [|c cs IH] using rev_ind; [done|].
  rewrite run_calls_snoc. destruct c; simpl.
  - by rewrite geometry_link.
  - by rewrite geometry_unlink.
Qed.

(** X5: after any sequence of [link] and [unlink] calls on a new grid,
    [p.neighbors()] of a cell [p] of the grid is the list of its
    existing neighbours in the order north, south, east, west, and a cell
    is in that list exactly when it is a geographic neighbour of [p]:
    the links do not change the neighbours. *)
Theorem neighbors_new_grid nr nc g h cs p :
  fresh nr nc = (Ret g, h) → in_grid nr nc p →
  neighbors p (run_calls cs h)
  = (if decide (p.1 = 0) then [] else [(p.1 - 1, p.2)])
    ++ (if decide (p.1 = nr - 1) then [] else [(p.1 + 1, p.2)])
    ++ (if decide (p.2 = nc - 1) then [] else [(p.1, p.2 + 1)])
    ++ (if decide (p.2 = 0) then [] else [(p.1, p.2 - 1)])
  ∧ (∀ q, q ∈ neighbors p (run_calls cs h) ↔ adjacent nr nc p q).
Proof.
  intros Hf Hp. pose proof (fresh_wired _ _ _ _ Hf) as Hw. unfold wired, placed in Hw.
  rewrite (neighbors_geometry p h) by apply geometry_run_calls.
  destruct (Hw p Hp) as (_ & _ & _ & Hn & Hs & He & Hwe).
  assert (neighbors p h
          = (if decide (p.1 = 0) then [] else [(p.1 - 1, p.2)])
            ++ (if decide (p.1 = nr - 1) then [] else [(p.1 + 1, p.2)])
            ++ (if decide (p.2 = nc - 1) then [] else [(p.1, p.2 + 1)])
            ++ (if decide (p.2 = 0) then [] else [(p.1, p.2 - 1)])) as ->.
  { unfold neighbors. rewrite Hn, Hs, He, Hwe. by repeat case_decide. }
  split; [done|]. intros [qi qj]. destruct p as [i j], Hp as [Hi Hj].
  unfold adjacent, in_grid. simpl in *.
  rewrite !elem_of_app. repeat case_decide;
    rewrite ?elem_of_nil, ?list_elem_of_singleton;
    (split; [intros [?|[?|[?|?]]]; simplify_eq; lia|]);
    intros ([_ _] & [? ?] & ?);
    assert ((qi = i - 1 ∧ qj = j) ∨ (qi = i + 1 ∧ qj = j)
            ∨ (qi = i ∧ qj = j + 1) ∨ (qi = i ∧ qj = j - 1))
      as [[-> ->]|[[-> ->]|[[-> ->]|[-> ->]]]] by lia; try lia; auto.
Qed.

Lemma neighbors_new_grid_witness :
  neighbors (1, 0) (run_calls [Unlink (1, 0) (0, 0) true] (fresh 2 2).2)
  = [(0, 0); (1, 1)].
Proof.
  refine (proj1 (neighbors_new_grid 2 2 (rect 2 2) (fresh 2 2).2
           [Unlink (1, 0) (0, 0) true] (1, 0) _ _)); [by vm_compute|].
  unfold in_grid. simpl. lia.
Defined.

(** ** each_cell, each_row and size *)

Lemma foldO_app {A B} (F : A → list B) (l : list A) (acc : list B)
    (body : list B → A → outcome (list B)) :
  (∀ x acc, x ∈ l → body acc x = Ret (acc ++ F x)) →
  foldO l acc body = Ret (acc ++ (l ≫= F)).
Proof.
  revert acc. induction l as [|x l IH]; intros acc Hbody; simpl.
  - by rewrite app_nil_r.
  - rewrite Hbody by apply list_elem_of_here. simpl.
    rewrite IH; [by rewrite app_assoc|].
    intros. apply Hbody. by apply list_elem_of_further.
Qed.

Lemma for_ext {S A} (l : list A) (body body' : A → M S unit) s :
  (∀ x s, x ∈ l → body x s = body' x s) → for_ l body s = for_ l body' s.
Proof.
  revert s. induction l as [|x l IH]; intros s Hb; simpl; [done|].
  rewrite !bind_eq, Hb by apply list_elem_of_here.
  destruct (body' x s) as [[[]| |] s1]; try done.
  apply IH. intros. apply Hb. by apply list_elem_of_further.
Qed.

Lemma length_bind_singleton {A B} (f : A → B) (l : list A) :
  length (l ≫= λ x, [f x]) = length l.
Proof.
  induction l as [|x l IH]; [done|].
  change ((x :: l) ≫= ?g) with (g x ++ (l ≫= g)). rewrite length_app, IH. done.
Qed.

Lemma length_positions nr nc : length (positions nr nc) = (Z.to_nat nr * Z.to_nat nc)%nat.
Proof.
  unfold positions. rewrite <- (length_range nr), <- (length_range nc).
  generalize (range nr) as l. induction l as [|i l IH]; [done|].
  change ((i :: l) ≫= ?f) with (f i ++ (l ≫= f)).
  rewrite length_app, IH, (length_bind_singleton (λ j, (i, j))). done.
Qed.

Lemma NoDup_positions nr nc : NoDup (positions nr nc).
Proof.
  apply NoDup_bind.
  - intros i1 i2 p _ _ (j1 & H1%list_elem_of_singleton & _)%list_elem_of_bind
      (j2 & H2%list_elem_of_singleton & _)%list_elem_of_bind. congruence.
  - intros i _. apply NoDup_bind.
    + intros j1 j2 p _ _ H1%list_elem_of_singleton H2%list_elem_of_singleton.
      congruence.
    + intros. apply NoDup_singleton.
    + apply NoDup_range.
  - apply NoDup_range.
Qed.

Lemma concat_mjoin {A} (ls : list (list A)) : concat ls = mjoin ls.
Proof. induction ls as [|l ls IH]; [done|]. simpl. by rewrite IH. Qed.

Lemma positions_lookup nr nc i j :
  0 ≤ i < nr → 0 ≤ j < nc →
  positions nr nc !! Z.to_nat (i * nc + j) = Some (i, j).
Proof.
  intros Hi Hj. change (positions nr nc) with (i ← range nr; j ← range nc; [(i, j)]).
  rewrite <- cells_grid_rows. unfold cells. simpl. rewrite concat_mjoin.
  replace (Z.to_nat (i * nc + j)) with (Z.to_nat i * Z.to_nat nc + Z.to_nat j)%nat by lia.
  apply join_lookup_Some_same_length'.
  - apply Forall_grid_rows.
  - lia.
  - exists ((λ j, (i, j)) <$> range nc). unfold grid_rows. split.
    + rewrite list_lookup_fmap, range_lookup by lia. simpl. by rewrite Z2Nat.id by lia.
    + rewrite list_lookup_fmap, range_lookup by lia. simpl. by rewrite Z2Nat.id by lia.
Qed.

(** X6: on a new grid, [each_cell()] yields the cells in row-major
    order without raising: the cells are the rows of [each_row()] one
    after the other, there are [size()] of them, none is yielded twice,
    the cell at index [i * num_columns + j] is [cell_at(i, j)], and a
    loop over [each_cell()] is a loop over that list. *)
Theorem each_cell_row_major nr nc g h :
  fresh nr nc = (Ret g, h) →
  ∃ l, each_cell g = Ret l
    ∧ l = concat (each_row g)
    ∧ len l = grid_size g
    ∧ NoDup l
    ∧ (∀ i j, 0 ≤ i < nr → 0 ≤ j < nc →
         l !! Z.to_nat (i * nc + j) = Some (i, j) ∧ cell_at g i j = Ret (i, j))
    ∧ (∀ S (body : ref → M S unit) s, for_each_cell g body s = for_ l body s).
Proof.
  intros (Hnr & Hnc & -> & _)%fresh_inv. exists (positions nr nc).
  assert (cells (rect nr nc) = positions nr nc) as Hcells by apply cells_grid_rows.
  split_and!.
  - unfold each_cell. simpl.
    rewrite (foldO_app (λ r, j ← range nc; [(r, j)])); [done|].
    intros r acc Hr%elem_of_range.
    apply (foldO_app (λ c, [(r, c)])).
    intros c acc' Hc%elem_of_range. unfold cell_at. by rewrite grid_get_rows.
  - by rewrite <- Hcells.
  - unfold len, grid_size. rewrite length_positions. simpl. lia.
  - apply NoDup_positions.
  - intros i j Hi Hj. split; [by apply positions_lookup|by apply grid_get_rows].
  - intros S body s. unfold for_each_cell, positions. rewrite for_nested. apply for_ext.
    intros [i j] s' [Hi Hj]%elem_of_index_pairs. simpl in *. unfold cell_at.
    by rewrite grid_get_rows.
Qed.

Lemma each_cell_row_major_witness :
  ∃ l, each_cell (rect 2 3) = Ret l ∧ len l = 6 ∧ l !! 4%nat = Some (1, 1).
Proof.
  destruct (each_cell_row_major 2 3 (rect 2 3) (fresh 2 3).2)
    as (l & Hl & _ & Hlen & _ & Hk & _); [by vm_compute|].
  exists l. split; [done|]. split; [done|].
  apply (proj1 (Hk 1 1 ltac:(lia) ltac:(lia))).
Defined.

(** ** random_cell *)

(** X7: on a new grid, [random_cell()] never raises: it consumes two
    random draws, leaves the cells untouched and returns a cell of the
    grid; and every cell of the grid is returned for some draws. *)
Theorem random_cell_in_grid nr nc g h :
  fresh nr nc = (Ret g, h) →
  (∀ draws, ∃ c, random_cell g (mkWorld h draws)
                 = (Ret c, mkWorld h (λ k, draws (2 + k)%nat))
                 ∧ c ∈ cells g)
  ∧ (∀ c, c ∈ cells g → ∃ draws, (random_cell g (mkWorld h draws)).1 = Ret c).
Proof.
  intros (Hnr & Hnc & -> & _)%fresh_inv. split.
  - intros draws. unfold random_cell. simpl num_rows. simpl num_columns.
    rewrite bind_eq, randint_eq by lia. cbv beta iota.
    rewrite bind_eq, randint_eq by lia. cbv beta iota. unfold next. cbn [rnd heap].
    pose proof (Z.mod_pos_bound (Z.of_nat (draws 0%nat)) (nr - 1 - 0 + 1)).
    pose proof (Z.mod_pos_bound (Z.of_nat (draws 1%nat)) (nc - 1 - 0 + 1)).
    eexists. unfold lift_outcome. rewrite grid_get_rows by lia. split; [done|].
    rewrite cells_grid_rows. apply elem_of_index_pairs. split; simpl; lia.
  - intros [i j] Hc. rewrite cells_grid_rows in Hc.
    apply elem_of_index_pairs in Hc as [Hi Hj]. simpl in *.
    exists (tape [Z.to_nat i; Z.to_nat j]). unfold random_cell. simpl num_rows.
    simpl num_columns.
    rewrite bind_eq, randint_eq by lia. cbv beta iota.
    rewrite bind_eq, randint_eq by lia. cbv beta iota. unfold next. cbn [rnd heap tape nth].
    rewrite !Z2Nat.id, !Z.mod_small by lia. unfold lift_outcome.
    by rewrite grid_get_rows by lia.
Qed.

Lemma random_cell_in_grid_witness :
  ∃ c, random_cell (rect 2 3) (mkWorld (fresh 2 3).2 (tape [5; 7]%nat))
       = (Ret c, mkWorld (fresh 2 3).2 (λ k, tape [5; 7]%nat (2 + k)%nat))
       ∧ c ∈ cells (rect 2 3).
Proof.
  refine (proj1 (random_cell_in_grid 2 3 (rect 2 3) (fresh 2 3).2 _) _).
  by vm_compute.
Defined.

(** ** link and unlink *)

(** X8: [a.link(b)] makes [a.is_linked(b)] and [b.is_linked(a)]
    [True], [a.unlink(b)] makes both [False]; a bidirectional call
    changes no other entry of any link table than those for [(a, b)] and
    [(b, a)], a call with [bidirectional=False] none but the one for
    [(a, b)]; and neither call changes the [neighbors()] of any cell. *)
Theorem link_unlink_frame h a b x y :
  is_linked a b (link a b true h) = Ret true
  ∧ is_linked b a (link a b true h) = Ret true
  ∧ is_linked a b (unlink a b true h) = Ret false
  ∧ is_linked b a (unlink a b true h) = Ret false
  ∧ ((x, y) ≠ (a, b) → (x, y) ≠ (b, a) →
       is_linked x y (link a b true h) = is_linked x y h
       ∧ is_linked x y (unlink a b true h) = is_linked x y h)
  ∧ ((x, y) ≠ (a, b) →
       is_linked x y (link a b false h) = is_linked x y h
       ∧ is_linked x y (unlink a b false h) = is_linked x y h)
  ∧ neighbors x (link a b true h) = neighbors x h
  ∧ neighbors x (unlink a b true h) = neighbors x h.
Proof.
  rewrite !is_linked_entry, !entry_link, !entry_unlink. split_and!.
  - rewrite decide_True; [done|by left].
  - rewrite decide_True; [done|by right].
  - rewrite decide_True; [done|by left].
  - rewrite decide_True; [done|by right].
  - intros H1 H2. rewrite !decide_False; [done|..]; intros [[-> ->]|(_ & -> & ->)]; done.
  - intros H1. rewrite !decide_False; [done|..]; intros [[-> ->]|([=] & _)]; done.
  - apply neighbors_geometry, geometry_link.
  - apply neighbors_geometry, geometry_unlink.
Qed.

(** ** unlink_all from any state of the link tables *)

Section unlink_all_any.
Context (nr nc : Z).
Implicit Types (h : Heap) (a b x y p : ref).

Lemma entry_unlink_around_other p h x y :
  in_grid nr nc p → ¬ adjacent nr nc x y →
  entry (unlink_around nr nc p h) x y = entry h x y.
Proof.
  destruct p as [i j]. intros [Hi Hj] Hxy. simpl in *. unfold unlink_around.
  repeat case_bool_decide; rewrite ?entry_unlink; decide_cases; try done;
    exfalso; apply Hxy; unfold adjacent, in_grid;
    repeat match goal with
           | H : _ ∨ _ |- _ => destruct H as [[-> ->]|(_ & -> & ->)]
           end; simpl; lia.
Qed.

Lemma pass_other l h x y :
  Forall (in_grid nr nc) l → ¬ adjacent nr nc x y →
  entry (unlink_pass nr nc h l) x y = entry h x y.
Proof.
  intros Hl Hxy. revert h. induction Hl as [|p l Hp Hl IH]; intros h; [done|].
  simpl. change (foldl _ ?h0 l) with (unlink_pass nr nc h0 l).
  rewrite IH. by apply entry_unlink_around_other.
Qed.

Lemma geometry_unlink_around p h q :
  geometry (unlink_around nr nc p h !!! q) = geometry (h !!! q).
Proof.
  destruct p as [i j]. unfold unlink_around.
  repeat case_bool_decide; by rewrite ?geometry_unlink.
Qed.

Lemma geometry_pass l h q : geometry (unlink_pass nr nc h l !!! q) = geometry (h !!! q).
Proof.
  revert h. induction l as [|p l IH]; intros h; [done|].
  simpl. change (foldl _ ?h0 l) with (unlink_pass nr nc h0 l).
  by rewrite IH, geometry_unlink_around.
Qed.
End unlink_all_any.

(** X9: [unlink_all()] from ANY state of the link tables of a grid (not
    only the new grid's) returns; afterwards [is_linked] is [False]
    between all geographic neighbours, every other entry of the link
    tables and the [neighbors()] of every cell are as before, and a
    second call changes nothing. *)
Theorem unlink_all_any_store nr nc g h0 h :
  fresh nr nc = (Ret g, h0) →
  ∃ h1, unlink_all g h = (Ret tt, h1)
    ∧ (∀ a b, adjacent nr nc a b → is_linked a b h1 = Ret false)
    ∧ (∀ a b, ¬ adjacent nr nc a b → is_linked a b h1 = is_linked a b h)
    ∧ (∀ a, neighbors a h1 = neighbors a h)
    ∧ unlink_all g h1 = (Ret tt, h1).
Proof.
  intros (_ & _ & -> & _)%fresh_inv. exists (unlink_pass nr nc h (positions nr nc)).
  assert (Forall (in_grid nr nc) (positions nr nc)) as Hpos.
  { apply Forall_forall. intros p. unfold positions. by rewrite elem_of_index_pairs. }
  assert (∀ a b, adjacent nr nc a b → unlinked (unlink_pass nr nc h (positions nr nc)) a b)
    as Hu.
  { intros a b Hab. apply pass_unlinked; [|done]. apply elem_of_index_pairs. apply Hab. }
  split_and!.
  - apply unlink_all_eq.
  - intros a b Hab. rewrite is_linked_entry. by rewrite (unlinked_entry _ _ _ (Hu a b Hab)).
  - intros a b Hab. rewrite !is_linked_entry. by rewrite pass_other.
  - intros a. apply neighbors_geometry, geometry_pass.
  - rewrite unlink_all_eq. f_equal. by apply pass_id.
Qed.

Lemma unlink_all_any_store_witness :
  ∃ h1, unlink_all (rect 1 2) (link (0, 0) (5, 5) true (fresh 1 2).2) = (Ret tt, h1)
    ∧ is_linked (0, 0) (0, 1) h1 = Ret false
    ∧ unlink_all (rect 1 2) h1 = (Ret tt, h1).
Proof.
  destruct (unlink_all_any_store 1 2 (rect 1 2) (fresh 1 2).2
              (link (0, 0) (5, 5) true (fresh 1 2).2))
    as (h1 & H1 & H2 & _ & _ & H3); [by vm_compute|].
  exists h1. split; [done|]. split; [|done].
  apply H2. unfold adjacent, in_grid. simpl. lia.
Defined.

(** ** Markup *)

Lemma dict_get_set {V} k (v : V) d k' :
  dict_get k' (dict_set k v d) = if decide (k' = k) then Some v else dict_get k' d.
Proof.
  induction d as [|[k0 v0] d IH]; simpl.
  - rewrite bool_decide_decide. destruct (decide (k = k')), (decide (k' = k)); congruence.
  - destruct (bool_decide_reflect (k0 = k)) as [->|Hk0]; simpl.
    + rewrite bool_decide_decide.
      destruct (decide (k = k')), (decide (k' = k)); congruence.
    + rewrite IH, bool_decide_decide.
      destruct (decide (k0 = k')), (decide (k' = k)); congruence.
Qed.

(** A dictionary keeps the position of a key that is assigned again,
    and appends a new key. *)
Lemma dict_set_keys {V} k (v : V) d :
  (dict_set k v d).*1 = if decide (k ∈ d.*1) then d.*1 else d.*1 ++ [k].
Proof.
  induction d as [|[k0 v0] d IH].
  - destruct (decide (k ∈ ([] : list (ref * V)).*1)) as [Hin|Hin]; [|done].
    by apply elem_of_nil in Hin.
  - cbn [dict_set]. destruct (bool_decide_reflect (k0 = k)) as [->|Hk0].
    + destruct (decide (k ∈ ((k, v0) :: d).*1)) as [Hin|Hin]; [done|].
      destruct Hin. apply list_elem_of_here.
    + rewrite fmap_cons, IH. cbn [fst].
      destruct (decide (k ∈ d.*1)) as [Hin|Hin];
        destruct (decide (k ∈ ((k0, v0) :: d).*1)) as [Hin'|Hin']; try done.
      * destruct Hin'. rewrite fmap_cons. by apply list_elem_of_further.
      * rewrite fmap_cons in Hin'. apply elem_of_cons in Hin' as [?|?]; simpl in *; congruence.
Qed.

(** X10: for a Markup, [m[cell] = value] followed by [m[c]] gives
    [value] when [c] is [cell] and the earlier [m[c]] otherwise; after
    [reset()] every [m[c]] is the default, whatever was stored; and
    [__setitem__] keeps the keys in insertion order, adding [cell] at the
    end only when it is not yet a key. *)
Theorem Markup_set_get self cell value c :
  Markup_getitem (Markup_setitem cell value self) c
  = (if decide (c = cell) then value else Markup_getitem self c)
  ∧ Markup_getitem (Markup_reset self) c = default self
  ∧ Markup_getitem (Markup_reset (Markup_setitem cell value self)) c = default self
  ∧ (marks (Markup_setitem cell value self)).*1
    = (if decide (cell ∈ (marks self).*1) then (marks self).*1
       else (marks self).*1 ++ [cell]).
Proof.
  split_and!; [|done|done|apply dict_set_keys].
  unfold Markup_getitem, Markup_setitem. simpl. rewrite dict_get_set.
  by case_decide.
Qed.

Lemma assert_range_true {S} (x n : Z) (s : S) :
  0 ≤ x < n → assert ((0 <=? x) && (x <? n)) s = (Ret tt, s).
Proof.
  intros H. rewrite (proj2 (Z.leb_le 0 x)), (proj2 (Z.ltb_lt x n)) by lia. done.
Qed.

Lemma assert_range_false {S} (x n : Z) (s : S) :
  ¬ 0 ≤ x < n → assert ((0 <=? x) && (x <? n)) s = (Raise AssertionError, s).
Proof.
  intros H. destruct (Z.leb_spec 0 x); destruct (Z.ltb_spec x n); try done; lia.
Qed.

(** X11: for a Markup of a new grid, [set_item_at(r, c, value)] with
    [0 <= r < num_rows] and [0 <= c < num_columns] stores the value for
    the cell [cell_at(r, c)] and nothing else; [get_item_at(r, c)]
    returns what [marks.get] gives for this cell, the value after the
    [set_item_at], and [None] (not the default) after [reset()]; with a
    row or a column out of this range, negative ones included, both
    methods raise AssertionError and leave the markup unchanged. *)
Theorem item_at_round_trip nr nc g h self r c value :
  fresh nr nc = (Ret g, h) → m_grid self = g →
  (0 ≤ r < nr ∧ 0 ≤ c < nc →
     ∃ cell, cell_at g r c = Ret cell
       ∧ set_item_at r c value self = (Ret tt, Markup_setitem cell value self)
       ∧ get_item_at r c self = (Ret (dict_get cell (marks self)), self)
       ∧ get_item_at r c (Markup_setitem cell value self)
         = (Ret (Some value), Markup_setitem cell value self)
       ∧ get_item_at r c (Markup_reset self) = (Ret None, Markup_reset self))
  ∧ (¬ (0 ≤ r < nr ∧ 0 ≤ c < nc) →
       set_item_at r c value self = (Raise AssertionError, self)
       ∧ get_item_at r c self = (Raise AssertionError, self)).
Proof.
  intros (Hnr & Hnc & -> & _)%fresh_inv Hg. split.
  - intros [Hr Hc]. exists (r, c). unfold cell_at.
    assert (∀ m, m_grid m = rect nr nc →
              get_item_at r c m = (Ret (dict_get (r, c) (marks m)), m)) as Hget.
    { intros m Hm. unfold get_item_at.
      rewrite (bind_step get_state _ m m m eq_refl), Hm.
      simpl num_rows. simpl num_columns.
      rewrite bind_eq, assert_range_true by done. cbv beta iota.
      rewrite bind_eq, assert_range_true by done. cbv beta iota.
      unfold cell_at. rewrite grid_get_rows by done. reflexivity. }
    split_and!.
    + by apply grid_get_rows.
    + unfold set_item_at. rewrite (bind_step get_state _ self self self eq_refl), Hg.
      simpl num_rows. simpl num_columns.
      rewrite bind_eq, assert_range_true by done. cbv beta iota.
      rewrite bind_eq, assert_range_true by done. cbv beta iota.
      unfold cell_at. rewrite grid_get_rows by done. reflexivity.
    + by apply Hget.
    + rewrite Hget by done. simpl. rewrite dict_get_set. by rewrite decide_True.
    + by rewrite Hget.
  - intros Hout. unfold set_item_at, get_item_at.
    rewrite !(bind_step get_state _ self self self eq_refl), Hg.
    simpl num_rows. simpl num_columns.
    destruct (decide (0 ≤ r < nr)) as [Hr|Hr].
    + assert (¬ 0 ≤ c < nc) as Hc by tauto.
      rewrite !bind_eq, !assert_range_true by done. cbv beta iota.
      rewrite !bind_eq, !assert_range_false by done. done.
    + rewrite !bind_eq, !assert_range_false by done. done.
Qed.

Lemma item_at_round_trip_witness :
  ∃ m', set_item_at 1 2 7 (Markup_init (rect 2 3) 0) = (Ret tt, m')
    ∧ get_item_at 1 2 m' = (Ret (Some 7), m')
    ∧ set_item_at (-1) 2 7 (Markup_init (rect 2 3) 0)
      = (Raise AssertionError, Markup_init (rect 2 3) 0).
Proof.
  destruct (item_at_round_trip 2 3 (rect 2 3) (fresh 2 3).2
              (Markup_init (rect 2 3) 0) 1 2 7) as [H1 _]; [by vm_compute|done|].
  destruct (item_at_round_trip 2 3 (rect 2 3) (fresh 2 3).2
              (Markup_init (rect 2 3) 0) (-1) 2 7) as [_ H2]; [by vm_compute|done|].
  destruct H1 as (cell & _ & Hset & _ & Hget & _); [lia|].
  destruct H2 as [H2 _]; [lia|].
  eexists. split; [exact Hset|]. split; [exact Hget|exact H2].
Defined.

(** ** max and min *)

Section argmax.
Context {A : Type} (f : A → Z).

Lemma foldl_max_first (k : A) (ks : list A) :
  let best := foldl (λ best k', if f best <? f k' then k' else best) k ks in
  ∃ n : nat, (k :: ks) !! n = Some best
    ∧ (∀ y, y ∈ k :: ks → f y ≤ f best)
    ∧ (∀ (m : nat) y, (m < n)%nat → (k :: ks) !! m = Some y → f y < f best).
Proof.
  induction ks as [|x ks IH] using rev_ind; simpl.
  - exists 0%nat. split; [done|]. split.
    + by intros y ->%list_elem_of_singleton.
    + intros; lia.
  - rewrite foldl_app. simpl. destruct IH as (n & Hn & Hmax & Hfirst).
    set (best := foldl _ k ks) in *.
    assert (n < length (k :: ks))%nat as Hlen by (by eapply lookup_lt_Some).
    destruct (Z.ltb_spec (f best) (f x)) as [Hlt|Hge].
    + exists (length (k :: ks)). split_and!.
      * change (k :: ks ++ [x]) with ((k :: ks) ++ [x]).
        by rewrite lookup_app_r, Nat.sub_diag.
      * change (k :: ks ++ [x]) with ((k :: ks) ++ [x]).
        intros y [Hy|Hy%list_elem_of_singleton]%elem_of_app; [|subst; lia].
        specialize (Hmax y Hy). lia.
      * change (k :: ks ++ [x]) with ((k :: ks) ++ [x]).
        intros m y Hm Hy. rewrite lookup_app_l in Hy by done.
        apply list_elem_of_lookup_2 in Hy. specialize (Hmax y Hy). lia.
    + exists n. split_and!.
      * change (k :: ks ++ [x]) with ((k :: ks) ++ [x]). by rewrite lookup_app_l.
      * change (k :: ks ++ [x]) with ((k :: ks) ++ [x]).
        intros y [Hy|Hy%list_elem_of_singleton]%elem_of_app; [by apply Hmax|subst; lia].
      * change (k :: ks ++ [x]) with ((k :: ks) ++ [x]).
        intros m y Hm Hy. rewrite lookup_app_l in Hy by lia. by eapply Hfirst.
Qed.

Lemma foldl_min_first (k : A) (ks : list A) :
  let best := foldl (λ best k', if f k' <? f best then k' else best) k ks in
  ∃ n : nat, (k :: ks) !! n = Some best
    ∧ (∀ y, y ∈ k :: ks → f best ≤ f y)
    ∧ (∀ (m : nat) y, (m < n)%nat → (k :: ks) !! m = Some y → f best < f y).
Proof.
  induction ks as [|x ks IH] using rev_ind; simpl.
  - exists 0%nat. split; [done|]. split.
    + by intros y ->%list_elem_of_singleton.
    + intros; lia.
  - rewrite foldl_app. simpl. destruct IH as (n & Hn & Hmax & Hfirst).
    set (best := foldl _ k ks) in *.
    assert (n < length (k :: ks))%nat as Hlen by (by eapply lookup_lt_Some).
    destruct (Z.ltb_spec (f x) (f best)) as [Hlt|Hge].
    + exists (length (k :: ks)). split_and!.
      * change (k :: ks ++ [x]) with ((k :: ks) ++ [x]).
        by rewrite lookup_app_r, Nat.sub_diag.
      * change (k :: ks ++ [x]) with ((k :: ks) ++ [x]).
        intros y [Hy|Hy%list_elem_of_singleton]%elem_of_app; [|subst; lia].
        specialize (Hmax y Hy). lia.
      * change (k :: ks ++ [x]) with ((k :: ks) ++ [x]).
        intros m y Hm Hy. rewrite lookup_app_l in Hy by done.
        apply list_elem_of_lookup_2 in Hy. specialize (Hmax y Hy). lia.
    + exists n. split_and!.
      * change (k :: ks ++ [x]) with ((k :: ks) ++ [x]). by rewrite lookup_app_l.
      * change (k :: ks ++ [x]) with ((k :: ks) ++ [x]).
        intros y [Hy|Hy%list_elem_of_singleton]%elem_of_app; [by apply Hmax|subst; lia].
      * change (k :: ks ++ [x]) with ((k :: ks) ++ [x]).
        intros m y Hm Hy. rewrite lookup_app_l in Hy by lia. by eapply Hfirst.
Qed.
End argmax.

(** X12: [Markup.max()] raises ValueError when no cell is marked;
    otherwise it returns a marked cell whose value is the greatest, and
    among the cells with the greatest value the first one in the
    insertion order of [marks]. *)
Theorem Markup_max_greatest self :
  (marks self = [] → Markup_max self = Raise ValueError)
  ∧ (marks self ≠ [] →
       ∃ best (n : nat), Markup_max self = Ret best
         ∧ (marks self).*1 !! n = Some best
         ∧ (∀ k, k ∈ (marks self).*1 → Markup_getitem self k ≤ Markup_getitem self best)
         ∧ (∀ (m : nat) k, (m < n)%nat → (marks self).*1 !! m = Some k →
              Markup_getitem self k < Markup_getitem self best)).
Proof.
  unfold Markup_max. split; [by intros ->|]. intros Hne.
  destruct (marks self) as [|[k v] d] eqn:Hm; [done|]. simpl.
  destruct (foldl_max_first (Markup_getitem self) k d.*1) as (n & H1 & H2 & H3).
  eexists _, n. split; [done|]. split; [exact H1|]. split; [exact H2|exact H3].
Qed.

(** X13: [Markup.min()] (whose docstring says the largest) raises
    ValueError when no cell is marked; otherwise it returns a marked cell
    whose value is the least, and among the cells with the least value
    the first one in the insertion order of [marks]. *)
Theorem Markup_min_least self :
  (marks self = [] → Markup_min self = Raise ValueError)
  ∧ (marks self ≠ [] →
       ∃ best (n : nat), Markup_min self = Ret best
         ∧ (marks self).*1 !! n = Some best
         ∧ (∀ k, k ∈ (marks self).*1 → Markup_getitem self best ≤ Markup_getitem self k)
         ∧ (∀ (m : nat) k, (m < n)%nat → (marks self).*1 !! m = Some k →
              Markup_getitem self best < Markup_getitem self k)).
Proof.
  unfold Markup_min. split; [by intros ->|]. intros Hne.
  destruct (marks self) as [|[k v] d] eqn:Hm; [done|]. simpl.
  destruct (foldl_min_first (Markup_getitem self) k d.*1) as (n & H1 & H2 & H3).
  eexists _, n. split; [done|]. split; [exact H1|]. split; [exact H2|exact H3].
Qed.

(** ** colorize_dijkstra *)

Lemma grid_get_outcome g i j :
  (∃ c, grid_get g i j = Ret c) ∨ grid_get g i j = Raise IndexError.
Proof.
  unfold grid_get, py_index.
  repeat match goal with
         | |- context [if ?b then _ else _] => destruct b
         | |- context [match ?l !! ?k with _ => _ end] => destruct (l !! k)
         end; eauto.
Qed.

(** X14: [colorize_dijkstra] never returns.  [DijkstraMarkup.__init__]
    stores no distance, so [intensity_colorize] calls [max()] on an empty
    table: when the start cell exists the call raises ValueError, and
    when [cell_at] rejects the start position it raises IndexError; the
    markup is unchanged in both cases.  In particular the call with the
    default arguments on a new grid raises ValueError. *)
Theorem colorize_dijkstra_raises self sr sc :
  (∀ c, start_cell (cm_grid self) sr sc = Ret c →
        colorize_dijkstra sr sc self = (Raise ValueError, self))
  ∧ (∀ e, start_cell (cm_grid self) sr sc = Raise e →
          e = IndexError ∧ colorize_dijkstra sr sc self = (Raise IndexError, self))
  ∧ (colorize_dijkstra sr sc self).1 ≠ Ret tt
  ∧ (∀ nr nc h, fresh nr nc = (Ret (cm_grid self), h) →
       colorize_dijkstra None None self = (Raise ValueError, self)).
Proof.
  assert (∀ c, start_cell (cm_grid self) sr sc = Ret c →
            colorize_dijkstra sr sc self = (Raise ValueError, self)) as H1.
  { intros c Hc. unfold colorize_dijkstra.
    rewrite (bind_step get_state _ self self self eq_refl), Hc. reflexivity. }
  assert (∀ e, start_cell (cm_grid self) sr sc = Raise e →
            e = IndexError ∧ colorize_dijkstra sr sc self = (Raise IndexError, self)) as H2.
  { intros e He.
    assert (e = IndexError) as ->.
    { unfold start_cell, cell_at in He.
      match type of He with grid_get ?g ?i ?j = _ =>
        destruct (grid_get_outcome g i j) as [[c Hc]|Hc] end; congruence. }
    split; [done|]. unfold colorize_dijkstra.
    rewrite (bind_step get_state _ self self self eq_refl), He. reflexivity. }
  split_and!; [done|done| |].
  - unfold start_cell, cell_at in H1, H2.
    match type of H1 with ∀ c, grid_get ?g ?i ?j = _ → _ =>
      destruct (grid_get_outcome g i j) as [[c Hc]|Hc] end.
    + by rewrite (H1 c Hc).
    + destruct (H2 _ Hc) as [_ ->]. done.
  - intros nr nc h Hf. unfold colorize_dijkstra.
    apply fresh_inv in Hf as (Hnr & Hnc & Hg & _).
    rewrite (bind_step get_state _ self self self eq_refl), Hg.
    unfold start_cell, cell_at. simpl num_rows. simpl num_columns.
    rewrite grid_get_rows; [done|split..];
      try apply Z.div_pos; try apply Z.div_lt; lia.
Qed.

(** ** binary_tree: one passage per cell *)

Section binary_tree_drops.
Context (nr nc : Z).
Implicit Types (h : Heap) (a b x y p : ref).

Lemma bt_dropped_snoc_outer done p h :
  p.1 = 0 ∨ p.2 = nc - 1 → bt_dropped nc done h → bt_dropped nc (done ++ [p]) h.
Proof.
  intros Hp Hd q [Hq|Hq%list_elem_of_singleton]%elem_of_app H1 H2; [by apply Hd|].
  subst q. lia.
Qed.

Lemma bt_dropped_link done a b h :
  (a.1 = 0 ∧ b.1 = 0) ∨ (a.2 = nc - 1 ∧ b.2 = nc - 1) →
  bt_dropped nc done h → bt_dropped nc done (link a b true h).
Proof.
  intros Hab Hd p Hp H1 H2. rewrite !entry_link.
  rewrite !decide_False; [by apply Hd|..];
    intros [[-> _]|(_ & -> & _)]; lia.
Qed.

Lemma bt_dropped_unlink done a b h :
  bt_dropped nc done h → bt_dropped nc done (unlink a b true h).
Proof.
  intros Hd p Hp H1 H2. rewrite !entry_unlink.
  destruct (Hd p Hp H1 H2) as [Hn|He]; decide_cases; auto.
Qed.

Lemma bt_dropped_snoc_inner done i j b h :
  b = (i, j + 1) ∨ b = (i - 1, j) →
  bt_dropped nc done h → bt_dropped nc (done ++ [(i, j)]) (unlink (i, j) b true h).
Proof.
  intros Hb Hd p [Hp|Hp%list_elem_of_singleton]%elem_of_app H1 H2.
  - by apply (bt_dropped_unlink done).
  - subst p. simpl. rewrite !entry_unlink.
    destruct Hb as [-> | ->]; [right|left]; (rewrite decide_True; [done|by left]).
Qed.

Lemma binary_tree_drops h rnd :
  returns (binary_tree (rect nr nc)) (mkWorld h rnd) (λ _ w',
    ∀ p, in_grid nr nc p → p.1 ≠ 0 → p.2 ≠ nc - 1 →
      ¬ (linked (heap w') p (p.1 - 1, p.2) ∧ linked (heap w') p (p.1, p.2 + 1))).
Proof.
  unfold binary_tree, returns. rewrite for_nested.
  match goal with
  | |- ∃ _ _, for_ ?L ?B _ = _ ∧ _ =>
      destruct (returns_for (λ done w, bt_dropped nc done (heap w)) L B
                  (mkWorld h rnd)) as ([] & w' & Hrun & Hd)
  end.
  - by intros p []%elem_of_nil.
  - intros done [i j] post w Hl Hc.
    assert (in_grid nr nc (i, j)) as Hin.
    { apply elem_of_bt_order. simpl num_rows in Hl. simpl num_columns in Hl.
      rewrite Hl. apply elem_of_app. right. apply list_elem_of_here. }
    pose proof Hin as [Hi Hj]. simpl in Hi, Hj. simpl fst. simpl snd.
    simpl num_columns.
    destruct (bool_decide_reflect (i = 0)) as [->|Hi0];
      destruct (bool_decide_reflect (j = nc - 1)) as [->|Hjn]; cbn [andb].
    + wstep. apply bt_dropped_snoc_outer; [by left|done].
    + repeat wstep. simpl. apply bt_dropped_snoc_outer; [by left|].
      apply bt_dropped_link; [by left|done].
    + repeat wstep. simpl. apply bt_dropped_snoc_outer; [by right|].
      apply bt_dropped_link; [by right|done].
    + repeat wstep; simpl; try lia; by apply bt_dropped_snoc_inner; auto.
  - exists tt, w'. split; [done|]. intros p Hp H1 H2 [Hn He].
    unfold linked in *.
    destruct (Hd p) as [H|H]; [by apply elem_of_bt_order|done|done|..]; congruence.
Qed.
End binary_tree_drops.

(** X15: [binary_tree] on a new grid, with any random draws, returns;
    afterwards [is_linked] is symmetric, links join geographic
    neighbours only, the cell in the north-east corner is linked neither
    north nor east, and every other cell of the grid is linked to exactly
    one of its north and its east side (to the one that exists, in the
    top row and the last column). *)
Theorem binary_tree_one_passage nr nc g h draws :
  fresh nr nc = (Ret g, h) →
  ∃ w', binary_tree g (mkWorld h draws) = (Ret tt, w')
    ∧ (∀ a b, is_linked a b (heap w') = is_linked b a (heap w'))
    ∧ (∀ a b, linked (heap w') a b → adjacent nr nc a b)
    ∧ (¬ linked (heap w') (0, nc - 1) (-1, nc - 1)
       ∧ ¬ linked (heap w') (0, nc - 1) (0, nc))
    ∧ (∀ i j, 0 ≤ i < nr → 0 ≤ j < nc → (i, j) ≠ (0, nc - 1) →
         (linked (heap w') (i, j) (i - 1, j) ∧ ¬ linked (heap w') (i, j) (i, j + 1))
         ∨ (¬ linked (heap w') (i, j) (i - 1, j) ∧ linked (heap w') (i, j) (i, j + 1))).
Proof.
  intros (_ & _ & -> & [Hs Hadj] & Hfull)%fresh_inv.
  pose proof (returns_det _ _ _ _ (binary_tree_carves nr nc h draws Hs Hfull)
                (returns_det _ _ _ _ (binary_tree_returns nr nc h draws Hadj)
                   (binary_tree_drops nr nc h draws)))
    as ([] & w' & Hrun & [Hs' Hpar] & (_ & _ & Hadj') & Hdrop).
  exists w'. split; [done|].
  assert (∀ a b, linked (heap w') a b → adjacent nr nc a b) as Hla.
  { intros a b Hl. apply Hadj'. unfold linked in Hl. by rewrite Hl. }
  split_and!.
  - intros a b. by rewrite !is_linked_entry, (Hs' a b).
  - done.
  - intros (_ & [? _] & _)%Hla. simpl in *. lia.
  - intros (_ & [_ ?] & _)%Hla. simpl in *. lia.
  - intros i j Hi Hj Hne.
    destruct (Hpar (i, j)) as [?|[[Hi0 Hl]|[Hjn Hl]]]; [done|done|..]; simpl in *.
    + left. split; [done|]. intros He.
      destruct (decide (j = nc - 1)) as [->|Hjn].
      * apply Hla in He as (_ & [_ ?] & _). simpl in *. lia.
      * by apply (Hdrop (i, j)).
    + right. split; [|done]. intros Hn.
      destruct (decide (i = 0)) as [->|Hi0].
      * apply Hla in Hn as (_ & [? _] & _). simpl in *. lia.
      * by apply (Hdrop (i, j)).
Qed.

Lemma binary_tree_one_passage_witness :
  ∃ w', binary_tree (rect 2 2) (mkWorld (fresh 2 2).2 (tape [1]%nat)) = (Ret tt, w')
    ∧ ((linked (heap w') (1, 0) (0, 0) ∧ ¬ linked (heap w') (1, 0) (1, 1))
       ∨ (¬ linked (heap w') (1, 0) (0, 0) ∧ linked (heap w') (1, 0) (1, 1))).
Proof.
  destruct (binary_tree_one_passage 2 2 (rect 2 2) (fresh 2 2).2 (tape [1]%nat))
    as (w' & Hrun & _ & _ & _ & H); [by vm_compute|].
  exists w'. split; [done|]. apply (H 1 0); [lia|lia|done].
Defined.

Lemma binary_tree_connected_witness :
  ∃ w', binary_tree (rect 3 2) (mkWorld (fresh 3 2).2 (tape [1; 0]%nat)) = (Ret tt, w')
    ∧ connected (rect 3 2) (heap w').
Proof. apply (binary_tree_connected 3 2). by vm_compute. Defined.

(** ** Results that may be exceptions *)

Section ensures.
Context {S : Type} (E : exn → Prop).

Lemma ensures_ret {A} (a : A) (s : S) (Q : A → S → Prop) : Q a s → ensures E (mret a) s Q.
Proof. done. Qed.

Lemma ensures_bind {A B} (m : M S A) (f : A → M S B) s (Q : B → S → Prop) :
  ensures E m s (λ a s', ensures E (f a) s' Q) → ensures E (m ≫= f) s Q.
Proof.
  unfold ensures. rewrite bind_eq. by destruct (m s) as [[a| |] s1].
Qed.

Lemma ensures_mono {A} (m : M S A) s (Q Q' : A → S → Prop) :
  ensures E m s Q → (∀ a s', Q a s' → Q' a s') → ensures E m s Q'.
Proof. unfold ensures. destruct (m s) as [[a| |] s1]; auto. Qed.

Lemma ensures_returns {A} (m : M S A) s (Q : A → S → Prop) :
  returns m s Q → ensures E m s Q.
Proof. intros (a & s1 & Hm & HQ). unfold ensures. by rewrite Hm. Qed.

Lemma ensures_elim {A} (m : M S A) s (Q : A → S → Prop) a s' :
  ensures E m s Q → m s = (Ret a, s') → Q a s'.
Proof. unfold ensures. intros H Hm. by rewrite Hm in H. Qed.

Lemma ensures_lift {A} (o : outcome A) s (Q : A → S → Prop) :
  (∀ a, o = Ret a → Q a s) → (∀ e, o = Raise e → E e) →
  ensures E (lift_outcome o) s Q.
Proof. unfold ensures, lift_outcome. destruct o; auto. Qed.

Lemma ensures_lift_ret {A} (a : A) s (Q : A → S → Prop) :
  Q a s → ensures E (lift_outcome (Ret a)) s Q.
Proof. done. Qed.

Lemma ensures_modify (f : S → S) s (Q : unit → S → Prop) :
  Q tt (f s) → ensures E (modify f) s Q.
Proof. done. Qed.

Lemma ensures_get_state s (Q : S → S → Prop) : Q s s → ensures E get_state s Q.
Proof. done. Qed.

Lemma ensures_raise {A} e s (Q : A → S → Prop) : E e → ensures E (raise e) s Q.
Proof. done. Qed.

Lemma ensures_diverge {A} s (Q : A → S → Prop) : ensures E diverge s Q.
Proof. done. Qed.

Lemma ensures_assert (b : bool) s (Q : unit → S → Prop) :
  (b = true → Q tt s) → (b = false → E AssertionError) → ensures E (assert b) s Q.
Proof. destruct b; unfold ensures; simpl; auto. Qed.

Lemma ensures_for {A} (I : list A → S → Prop) (l : list A) (body : A → M S unit) s :
  I [] s →
  (∀ pre x post s, l = pre ++ x :: post → I pre s →
     ensures E (body x) s (λ _ s', I (pre ++ [x]) s')) →
  ensures E (for_ l body) s (λ _ s', I l s').
Proof.
  intros H0 Hbody.
  enough (∀ post pre s, l = pre ++ post → I pre s →
            ensures E (for_ post body) s (λ _ s', I l s')) as Hgen.
  { by apply (Hgen l [] s). }
  clear s H0. induction post as [|x post IH]; intros pre s Hl Hpre; simpl.
  - apply ensures_ret. by rewrite Hl, app_nil_r.
  - apply ensures_bind. eapply ensures_mono; [by eapply Hbody|].
    intros [] s' Hs'. simpl in Hs'. apply (IH (pre ++ [x])); [|done].
    by rewrite <- app_assoc.
Qed.

Lemma ensures_foldM {A B} (I : list A → B → S → Prop) (l : list A) (acc : B)
    (body : B → A → M S B) s :
  I [] acc s →
  (∀ pre x post acc s, l = pre ++ x :: post → I pre acc s →
     ensures E (body acc x) s (λ acc' s', I (pre ++ [x]) acc' s')) →
  ensures E (foldM l acc body) s (λ acc' s', I l acc' s').
Proof.
  intros H0 Hbody.
  enough (∀ post pre acc s, l = pre ++ post → I pre acc s →
            ensures E (foldM post acc body) s (λ acc' s', I l acc' s')) as Hgen.
  { by apply (Hgen l [] acc s). }
  clear s acc H0. induction post as [|x post IH]; intros pre acc s Hl Hpre; simpl.
  - apply ensures_ret. by rewrite Hl, app_nil_r.
  - apply ensures_bind. eapply ensures_mono; [by eapply Hbody|].
    intros acc' s' Hs'. simpl in Hs'. apply (IH (pre ++ [x])); [|done].
    by rewrite <- app_assoc.
Qed.

Lemma ensures_liftH_modify (f : Heap → Heap) w (Q : unit → World → Prop) :
  Q tt (mkWorld (f (heap w)) (rnd w)) → ensures E (liftH (modify f)) w Q.
Proof. done. Qed.

Lemma ensures_randint a b w (Q : Z → World → Prop) :
  (∀ r, a ≤ r ≤ b → Q r (next w)) → (b < a → E ValueError) →
  ensures E (randint a b) w Q.
Proof.
  intros HQ HE. unfold ensures, randint. destruct (Z.ltb_spec b a) as [|Hab]; [by apply HE|].
  apply HQ. pose proof (Z.mod_pos_bound (Z.of_nat (rnd w 0%nat)) (b - a + 1)). lia.
Qed.

Lemma ensures_randrange a b w (Q : Z → World → Prop) :
  (∀ r, a ≤ r < b → Q r (next w)) → (b ≤ a → E ValueError) →
  ensures E (randrange a b) w Q.
Proof.
  intros HQ HE. unfold ensures, randrange. destruct (Z.leb_spec b a) as [|Hab]; [by apply HE|].
  apply HQ. pose proof (Z.mod_pos_bound (Z.of_nat (rnd w 0%nat)) (b - a)). lia.
Qed.

Lemma ensures_attr {X} (f : Cell → X) r w (Q : X → World → Prop) :
  Q (f (heap w !!! r)) w → ensures E (attr f r) w Q.
Proof. done. Qed.
End ensures.

Lemma ensures_liftH (E : exn → Prop) {A} (m : M Heap A) w a h' (Q : A → World → Prop) :
  m (heap w) = (Ret a, h') → Q a (mkWorld h' (rnd w)) → ensures E (liftH m) w Q.
Proof. intros Hm HQ. unfold ensures, liftH. by rewrite Hm. Qed.

Lemma py_index_Ret {A} (l : list A) i x : py_index l i = Ret x → x ∈ l.
Proof.
  unfold py_index. destruct (_ || _); [done|].
  destruct (l !! _) as [y|] eqn:Hy; [|done]. intros [= <-].
  by eapply list_elem_of_lookup_2.
Qed.

(** Indexing with an index in range. *)
Lemma py_index_lookup {A} (l : list A) i :
  0 ≤ i < len l → ∃ x, py_index l i = Ret x ∧ l !! Z.to_nat i = Some x.
Proof.
  intros Hi. unfold py_index, len in *.
  destruct (Z.ltb_spec i 0); [lia|].
  destruct (Z.ltb_spec i 0); [lia|].
  destruct (Z.leb_spec (Z.of_nat (length l)) i); [lia|]. simpl.
  destruct (lookup_lt_is_Some_2 l (Z.to_nat i)) as [x Hx]; [lia|].
  rewrite Hx. eauto.
Qed.

Lemma ensures_choice (E : exn → Prop) {A} (l : list A) w (Q : A → World → Prop) :
  (∀ x, x ∈ l → Q x (next w)) → (l = [] → E IndexError) →
  ensures E (choice l) w Q.
Proof.
  intros HQ HE. unfold ensures, choice. destruct l as [|y l]; [by apply HE|].
  rewrite bind_eq. unfold draw, lift_outcome. cbv beta iota.
  destruct (py_index_lookup (y :: l) (Z.of_nat (rnd w 0%nat) mod len (y :: l)))
    as (x & -> & Hx).
  { apply Z.mod_pos_bound. unfold len. simpl. lia. }
  apply HQ. by eapply list_elem_of_lookup_2.
Qed.

Lemma py_index_Raise {A} (l : list A) i e : py_index l i = Raise e → e = IndexError.
Proof.
  unfold py_index. destruct (_ || _); [congruence|]. destruct (l !! _); congruence.
Qed.

Lemma py_del_Raise {A} (l : list A) i e : py_del l i = Raise e → e = IndexError.
Proof. unfold py_del. destruct (_ || _); congruence. Qed.

Ltac side :=
  try done; try (intros; lia); try (intros; discriminate);
  try (intros ? ?%py_index_Raise; subst; done);
  try (intros ? ?%py_del_Raise; subst; done).

Ltac estep :=
  lazymatch goal with
  | |- ensures _ (mret _) _ _ => apply ensures_ret
  | |- ensures _ (_ ≫= _) _ _ => apply ensures_bind
  | |- ensures _ (liftH (modify _)) _ _ => apply ensures_liftH_modify
  | |- ensures _ (lift_outcome (Ret _)) _ _ => apply ensures_lift_ret
  | |- ensures _ (lift_outcome _) _ _ => apply ensures_lift; [intros ? ?|side]
  | |- ensures _ (randint _ _) _ _ => apply ensures_randint; [intros ? ?|side]
  | |- ensures _ (randrange _ _) _ _ => apply ensures_randrange; [intros ? ?|side]
  | |- ensures _ (choice _) _ _ => apply ensures_choice; [intros ? ?|side]
  | |- ensures _ (attr _ _) _ _ => apply ensures_attr
  | |- ensures _ (raise _) _ _ => apply ensures_raise; side
  | |- ensures _ diverge _ _ => apply ensures_diverge
  | |- ensures _ (assert _) _ _ => apply ensures_assert; [intros ?|side]
  end; cbv beta.

(** ** Stores of a grid *)

Section maze.
Context (nr nc : Z).
Implicit Types (h : Heap) (a b x y p : ref).

Lemma tidy_unlink a b h : adjacent nr nc a b → tidy nr nc h → tidy nr nc (unlink a b true h).
Proof.
  intros Hab [Hs Ha]. split.
  - apply (symmetric_run_call (Unlink a b true)); done.
  - intros x y. rewrite entry_unlink. case_decide as Hd; [|by auto].
    intros _. unfold adjacent in *.
    destruct Hd as [[-> ->]|(_ & -> & ->)]; [done|].
    destruct Hab as (? & ? & ?). split_and!; [done..|lia].
Qed.

Lemma maze_link a b h : adjacent nr nc a b → maze nr nc h → maze nr nc (link a b true h).
Proof. intros Hab [Hw Ht]. split; [by apply wired_link|by apply tidy_link]. Qed.

Lemma maze_unlink a b h : adjacent nr nc a b → maze nr nc h → maze nr nc (unlink a b true h).
Proof. intros Hab [Hw Ht]. split; [by apply wired_unlink|by apply tidy_unlink]. Qed.

Lemma maze_unlink_around p h :
  in_grid nr nc p → maze nr nc h → maze nr nc (unlink_around nr nc p h).
Proof.
  destruct p as [i j]. intros [Hi Hj] Hm. simpl in *. unfold unlink_around.
  repeat case_bool_decide;
    repeat (apply maze_unlink; [unfold adjacent, in_grid; simpl; lia|]); done.
Qed.

Lemma maze_pass l h :
  Forall (in_grid nr nc) l → maze nr nc h → maze nr nc (unlink_pass nr nc h l).
Proof.
  intros Hl. revert h. induction Hl as [|p l Hp Hl IH]; intros h Hm; [done|].
  simpl. apply IH. by apply maze_unlink_around.
Qed.

Lemma fresh_maze g h : fresh nr nc = (Ret g, h) → maze nr nc h.
Proof.
  intros Hf. split; [by eapply fresh_wired|]. by apply fresh_inv in Hf as (_ & _ & _ & ? & _).
Qed.

(** [unlink_all] on the store of a grid. *)
Lemma unlink_all_maze h :
  maze nr nc h →
  ∃ h1, unlink_all (rect nr nc) h = (Ret tt, h1)
    ∧ maze nr nc h1 ∧ ∀ a b, ¬ linked h1 a b.
Proof.
  intros Hm. destruct (unlink_all_spec nr nc h (proj2 Hm)) as (h1 & H1 & _ & _ & H2).
  exists h1. split; [done|]. split; [|done].
  rewrite unlink_all_eq in H1. injection H1 as <-. apply maze_pass; [|done].
  apply Forall_forall. intros p. by rewrite elem_of_index_pairs.
Qed.

(** The neighbour attributes of a cell of the grid. *)
Lemma maze_north h p n :
  maze nr nc h → in_grid nr nc p → north (h !!! p) = Some n → adjacent nr nc p n.
Proof.
  intros [Hw _] Hp. destruct (Hw p Hp) as (_ & _ & _ & -> & _).
  destruct p as [i j], Hp as [Hi Hj]. simpl in *. case_decide; [done|].
  intros [= <-]. unfold adjacent, in_grid. simpl. lia.
Qed.

Lemma maze_south h p n :
  maze nr nc h → in_grid nr nc p → south (h !!! p) = Some n → adjacent nr nc p n.
Proof.
  intros [Hw _] Hp. destruct (Hw p Hp) as (_ & _ & _ & _ & -> & _).
  destruct p as [i j], Hp as [Hi Hj]. simpl in *. case_decide; [done|].
  intros [= <-]. unfold adjacent, in_grid. simpl. lia.
Qed.

Lemma maze_east h p n :
  maze nr nc h → in_grid nr nc p → east (h !!! p) = Some n → adjacent nr nc p n.
Proof.
  intros [Hw _] Hp. destruct (Hw p Hp) as (_ & _ & _ & _ & _ & -> & _).
  destruct p as [i j], Hp as [Hi Hj]. simpl in *. case_decide; [done|].
  intros [= <-]. unfold adjacent, in_grid. simpl. lia.
Qed.

Lemma maze_west h p n :
  maze nr nc h → in_grid nr nc p → west (h !!! p) = Some n → adjacent nr nc p n.
Proof.
  intros [Hw _] Hp. destruct (Hw p Hp) as (_ & _ & _ & _ & _ & _ & ->).
  destruct p as [i j], Hp as [Hi Hj]. simpl in *. case_decide; [done|].
  intros [= <-]. unfold adjacent, in_grid. simpl. lia.
Qed.

Lemma rtc_linked_link x y d h a b :
  rtc (linked h) a b → rtc (linked (link x y d h)) a b.
Proof.
  induction 1 as [|a c b Hac _ IH]; [done|].
  eapply rtc_l; [|exact IH]. by apply linked_link.
Qed.

Lemma maze_linked_adjacent h a b : maze nr nc h → linked h a b → adjacent nr nc a b.
Proof. intros [_ [_ Ha]] Hl. apply Ha. unfold linked in Hl. by rewrite Hl. Qed.
End maze.

(** ** Counting the cells *)

Section counting.
Context (nr nc : Z).

Lemma grid_size_rect : 0 ≤ nr → 0 ≤ nc →
  grid_size (rect nr nc) = Z.of_nat (length (positions nr nc)).
Proof. intros. unfold grid_size. simpl. rewrite length_positions. lia. Qed.

Lemma elem_of_positions p : p ∈ positions nr nc ↔ in_grid nr nc p.
Proof. apply elem_of_index_pairs. Qed.

(** A set of cells of the grid has at most [size()] members, and holds
    every cell when it has that many. *)
Lemma cells_full (X : gset ref) :
  (∀ x, x ∈ X → in_grid nr nc x) →
  (size X ≤ length (positions nr nc))%nat
  ∧ (size X = length (positions nr nc) → ∀ p, in_grid nr nc p → p ∈ X).
Proof.
  intros HX.
  assert (X ⊆ list_to_set (positions nr nc)) as Hsub.
  { intros x Hx. apply elem_of_list_to_set, elem_of_positions. auto. }
  assert (size (list_to_set (positions nr nc) : gset ref) = length (positions nr nc))
    as Hsize by apply size_list_to_set, NoDup_positions.
  split.
  - rewrite <- Hsize. by apply subseteq_size.
  - intros Heq p Hp.
    assert (X = list_to_set (positions nr nc)) as ->.
    { apply set_subseteq_size_eq; [done|]. rewrite Hsize. lia. }
    apply elem_of_list_to_set, elem_of_positions. done.
Qed.

(** The same for a list without repetitions. *)
Lemma cells_full_list (l : list ref) :
  NoDup l → (∀ x, x ∈ l → in_grid nr nc x) →
  (length l ≤ length (positions nr nc))%nat
  ∧ (length l = length (positions nr nc) → ∀ p, in_grid nr nc p → p ∈ l).
Proof.
  intros Hnd Hl.
  destruct (cells_full (list_to_set l)) as [H1 H2].
  { intros x Hx%elem_of_list_to_set. auto. }
  rewrite size_list_to_set in H1, H2 by done. split; [done|].
  intros Heq p Hp. apply (elem_of_list_to_set (C:=gset ref)). by apply H2.
Qed.
End counting.

(** ** aldous_broder *)

Section aldous_broder.
Context (nr nc : Z).
Context (E : exn → Prop).
Implicit Types (h : Heap) (a b x y p : ref) (lc : gmap ref ref).

Lemma not_yet_linked_spec lc n : not_yet_linked lc n = true ↔ lc !! n = None.
Proof. unfold not_yet_linked. destruct (lc !! n); simpl; split; done. Qed.

Lemma ab_direction_spec fuel lc cell w :
  maze nr nc (heap w) → in_grid nr nc cell →
  ensures E (ab_direction fuel lc cell) w (λ n w',
    adjacent nr nc cell n
    ∧ heap w' = if not_yet_linked lc n then link cell n true (heap w) else heap w).
Proof.
  revert w. induction fuel as [|fuel IH]; intros w Hm Hc; [apply ensures_diverge|].
  cbn [ab_direction]. estep. estep. estep. estep. cbn zeta.
  assert (∀ n w1, adjacent nr nc cell n → heap w1 = heap w →
            ensures E ((if not_yet_linked lc n
                      then liftH (modify (link cell n true)) else mret tt);; mret n) w1
              (λ n w', adjacent nr nc cell n
                 ∧ heap w' = if not_yet_linked lc n
                             then link cell n true (heap w) else heap w)) as Hmove.
  { intros n w1 Hn Hw1. estep. destruct (not_yet_linked lc n) eqn:Hny; estep; estep;
      (split; [done|]); simpl; by rewrite Hny, ?Hw1. }
  unfold id.
  destruct (r =? 1); [destruct (north _) as [n|] eqn:Hn|].
  { apply Hmove; [by eapply maze_north|done]. }
  all: destruct (r =? 2); [destruct (south _) as [n'|] eqn:Hs|].
  1, 4: by (apply Hmove; [by eapply maze_south|done]).
  all: destruct (r =? 3); [destruct (east _) as [n''|] eqn:He|].
  1, 4, 7, 10: by (apply Hmove; [by eapply maze_east|done]).
  all: destruct (r =? 4); [destruct (west _) as [n'''|] eqn:Hw|].
  all: try by (apply Hmove; [by eapply maze_west|done]).
  all: by apply (IH (next w)).
Qed.

Lemma ab_loop_spec fuel again lc count cell w :
  0 ≤ nr → 0 ≤ nc →
  maze nr nc (heap w) → in_grid nr nc cell →
  (∀ x, x ∈ dom lc → in_grid nr nc x ∧ rtc (linked (heap w)) cell x) →
  Z.of_nat (size lc) ≤ count →
  ensures E (ab_loop fuel again (rect nr nc) lc count cell) w (λ n w',
    maze nr nc (heap w') ∧ connected (rect nr nc) (heap w')
    ∧ grid_size (rect nr nc) < n).
Proof.
  intros Hnr Hnc. revert lc count cell w.
  induction fuel as [|fuel IH]; intros lc count cell w Hm Hc Hlc Hcount;
    [apply ensures_diverge|].
  cbn [ab_loop]. rewrite grid_size_rect by done.
  destruct (cells_full nr nc (dom lc)) as [Hle Hfull]; [by intros x [? _]%Hlc|].
  rewrite size_dom in Hle, Hfull.
  destruct (Z.leb_spec (Z.of_nat (size lc)) (Z.of_nat (length (positions nr nc))));
    [|lia].
  destruct (Z.eqb_spec (Z.of_nat (size lc)) (Z.of_nat (length (positions nr nc))))
    as [Heq|Hne].
  - estep. split; [done|]. split; [|lia].
    intros a b Ha Hb. rewrite cells_grid_rows in Ha, Hb.
    apply elem_of_index_pairs in Ha, Hb.
    transitivity cell.
    + apply rtc_linked_sym; [apply Hm|]. apply Hlc, Hfull; [lia|done].
    + apply Hlc, Hfull; [lia|done].
  - estep.
    set (lc' := if not_yet_linked lc cell then <[cell:=cell]> lc else lc).
    assert (∀ x, x ∈ dom lc' → in_grid nr nc x ∧ rtc (linked (heap w)) cell x) as Hlc'.
    { intros x. unfold lc'. destruct (not_yet_linked lc cell); [|by auto].
      rewrite dom_insert. intros [Hx%elem_of_singleton|Hx]%elem_of_union; [|by auto].
      subst x. split; [done|apply rtc_refl]. }
    assert (cell ∈ dom lc') as Hcell.
    { unfold lc'. destruct (not_yet_linked lc cell) eqn:Hny.
      - rewrite dom_insert. apply elem_of_union. left. by apply elem_of_singleton.
      - apply elem_of_dom. destruct (lc !! cell) eqn:Hl; [done|].
        apply not_yet_linked_spec in Hl. congruence. }
    assert (Z.of_nat (size lc') ≤ count + 1) as Hcount'.
    { unfold lc'. destruct (not_yet_linked lc cell) eqn:Hny; [|lia].
      apply not_yet_linked_spec in Hny. rewrite map_size_insert_None by done. lia. }
    eapply ensures_mono; [by apply ab_direction_spec|].
    intros n w1 [Hadj Hw1]. cbv beta.
    eapply ensures_mono.
    { apply IH; [| |shelve|exact Hcount'].
      - rewrite Hw1. destruct (not_yet_linked lc' n); [by apply maze_link|done].
      - apply Hadj.
      Unshelve.
      intros x Hx. destruct (Hlc' x Hx) as [Hin Hr]. split; [done|]. rewrite Hw1.
      destruct (not_yet_linked lc' n) eqn:Hny.
      + eapply rtc_l; [|by apply rtc_linked_link].
        unfold linked. rewrite entry_link. rewrite decide_True; [done|]. by right.
      + transitivity cell; [|done]. apply rtc_linked_sym; [apply Hm|].
        apply Hlc'. apply elem_of_dom. destruct (lc' !! n) eqn:Hl; [done|].
        apply not_yet_linked_spec in Hl. congruence. }
    rewrite <- grid_size_rect by done. auto.
Qed.
End aldous_broder.

(** X17: [aldous_broder] on a new grid never raises, and whenever it
    returns (for any random draws) every cell is reachable from every
    other cell, [is_linked] is symmetric, links join geographic
    neighbours only, and the returned number of iterations is greater
    than [size()].  (A run that uses up its fuel stands for a loop that
    is still running.) *)
Theorem aldous_broder_connected nr nc g h fuel draws :
  fresh nr nc = (Ret g, h) →
  match aldous_broder fuel g (mkWorld h draws) with
  | (Ret n, w') =>
      connected g (heap w')
      ∧ (∀ a b, is_linked a b (heap w') = is_linked b a (heap w'))
      ∧ (∀ a b, linked (heap w') a b → adjacent nr nc a b)
      ∧ grid_size g < n
  | (Raise _, _) => False
  | (Diverge, _) => True
  end.
Proof.
  intros Hf. pose proof (fresh_maze _ _ _ _ Hf) as Hm.
  apply fresh_inv in Hf as (Hnr & Hnc & -> & _).
  destruct (unlink_all_maze nr nc h Hm) as (h1 & Hu & Hm1 & Hnone).
  change (ensures (λ _, False) (aldous_broder fuel (rect nr nc)) (mkWorld h draws)
            (λ n w', connected (rect nr nc) (heap w')
               ∧ (∀ a b, is_linked a b (heap w') = is_linked b a (heap w'))
               ∧ (∀ a b, linked (heap w') a b → adjacent nr nc a b)
               ∧ grid_size (rect nr nc) < n)).
  eapply ensures_mono with
    (Q := λ n w', maze nr nc (heap w') ∧ connected (rect nr nc) (heap w')
                  ∧ grid_size (rect nr nc) < n).
  2:{ intros n w' (Hm' & Hc & Hn).
      split_and!; [done| |intros a b; by apply (maze_linked_adjacent nr nc)|done].
      intros a b. rewrite !is_linked_entry. destruct Hm' as [_ [Hs _]].
      by rewrite (Hs a b). }
  unfold aldous_broder. estep. eapply ensures_liftH; [exact Hu|].
  simpl num_rows. simpl num_columns.
  do 4 estep. unfold cell_at. rewrite grid_get_rows by lia. do 2 estep.
  apply ab_loop_spec; [lia|lia|done|split; simpl; lia| |done].
  intros x Hx. rewrite dom_empty in Hx. by apply elem_of_empty in Hx.
Qed.

Lemma aldous_broder_connected_witness :
  let run := aldous_broder 10 (rect 2 2)
               (mkWorld (fresh 2 2).2 (tape [1; 0; 0; 2; 1; 3; 1]%nat)) in
  run.1 = Ret 5 ∧ connected (rect 2 2) (heap run.2).
Proof.
  intros run. split; [by vm_compute|].
  pose proof (aldous_broder_connected 2 2 (rect 2 2) (fresh 2 2).2 10
                (tape [1; 0; 0; 2; 1; 3; 1]%nat)) as H.
  assert (run = (Ret 5, run.2)) as Hrun by (by vm_compute).
  fold run in H. rewrite Hrun in H. apply H. by vm_compute.
Defined.

(** ** wilson *)

(** ** Lists *)

Lemma py_del_lookup {A} (l : list A) (k : nat) :
  (k < length l)%nat → py_del l (Z.of_nat k) = Ret (delete k l).
Proof.
  intros Hk. unfold py_del.
  destruct (Z.ltb_spec (Z.of_nat k) 0); [lia|].
  destruct (Z.ltb_spec (Z.of_nat k) 0); [lia|].
  destruct (Z.leb_spec (Z.of_nat (length l)) (Z.of_nat k)); [lia|]. simpl.
  by rewrite Nat2Z.id.
Qed.

(** Deleting [m] times at position [c] removes the items [c..c+m-1]. *)
Lemma del_repeat {A B} (js : list B) (c : nat) (l : list A) :
  (c + length js ≤ length l)%nat →
  foldO js l (λ l _, py_del l (Z.of_nat c)) = Ret (take c l ++ drop (c + length js) l).
Proof.
  revert l. induction js as [|j js IH]; intros l Hl; simpl in *.
  - by rewrite Nat.add_0_r, take_drop.
  - rewrite py_del_lookup by lia. simpl. rewrite IH.
    + f_equal. rewrite delete_take_drop.
      rewrite take_app_le by (rewrite length_take; lia).
      rewrite take_take, Nat.min_id.
      rewrite drop_app_ge by (rewrite length_take; lia).
      rewrite length_take, drop_drop. f_equal. f_equal. lia.
    + rewrite length_delete by (apply lookup_lt_is_Some_2; lia). lia.
Qed.

Lemma length_range2 a b : length (range2 a b) = Z.to_nat (b - a).
Proof. unfold range2. by rewrite length_fmap, length_seq. Qed.

Lemma range2_split a b pre x post :
  range2 a b = pre ++ x :: post → x = a + Z.of_nat (length pre) ∧ a ≤ x < b.
Proof.
  intros Hl.
  assert (range2 a b !! length pre = Some x) as Hx.
  { rewrite Hl. by rewrite lookup_app_r, Nat.sub_diag. }
  unfold range2 in Hx. rewrite list_lookup_fmap in Hx.
  destruct (seq 0 (Z.to_nat (b - a)) !! length pre) as [k|] eqn:Hk; [|done].
  apply lookup_seq in Hk as [-> Hk]. injection Hx as <-. simpl. lia.
Qed.

Lemma range_split n pre x post :
  range n = pre ++ x :: post → x = Z.of_nat (length pre) ∧ 0 ≤ x < n.
Proof.
  intros Hl. destruct (range2_split 0 n pre x post) as [-> ?]; [|lia].
  rewrite <- Hl. unfold range, range2. rewrite Z.sub_0_r. apply list_fmap_ext.
  intros; lia.
Qed.

Lemma py_index_nat {A} (l : list A) (k : nat) x :
  l !! k = Some x → py_index l (Z.of_nat k) = Ret x.
Proof.
  intros Hx. destruct (py_index_lookup l (Z.of_nat k)) as (y & -> & Hy).
  - apply lookup_lt_Some in Hx. unfold len. lia.
  - rewrite Nat2Z.id in Hy. congruence.
Qed.

Lemma py_remove_spec (x : ref) (l : list ref) :
  x ∈ l → ∃ l', py_remove x l = Ret l' ∧ l ≡ₚ x :: l'.
Proof.
  induction l as [|y l IH]; [by intros ?%elem_of_nil|]. intros Hx. simpl.
  destruct (bool_decide_reflect (y = x)) as [->|Hne]; [by eauto|].
  apply elem_of_cons in Hx as [->|Hx]; [done|].
  destruct (IH Hx) as (l' & -> & Hl'). simpl. eexists. split; [done|].
  rewrite Hl'. apply Permutation_swap.
Qed.

(** ** The steps of the loop-erased walk *)

Lemma py_eq_cell (a b : ref) : py_eq (PyCell a) (PyCell b) = bool_decide (a = b).
Proof. done. Qed.

Lemma wilson_erase_from (p : list ref) (x : ref) (t k : nat) lr :
  p !! t = Some x → last p = Some x →
  (∀ (m : nat) y, (m < t)%nat → p !! m = Some y → y ≠ x) →
  (k ≤ t)%nat →
  wilson_erase (Z.of_nat <$> seq k (length p - k)) p (len p - 1) lr
  = Ret (take (S t) p, Z.of_nat t, lr + 1).
Proof.
  intros Ht Hlast Hfirst Hk.
  assert (t < length p)%nat as Htl by (by eapply lookup_lt_Some).
  assert (p !! (length p - 1)%nat = Some x) as Hi.
  { rewrite last_lookup in Hlast. by replace (length p - 1)%nat with (pred (length p)) by lia. }
  assert (py_index p (len p - 1) = Ret x) as Hpi.
  { unfold len. replace (Z.of_nat (length p) - 1) with (Z.of_nat (length p - 1)) by lia.
    by apply py_index_nat. }
  remember (t - k)%nat as d eqn:Hd. revert k Hk Hd.
  induction d as [|d IH]; intros k Hk Hd.
  - assert (k = t) as -> by lia.
    replace (length p - t)%nat with (S (length p - S t)) by lia. cbn [seq fmap list_fmap].
    cbn [wilson_erase]. rewrite (py_index_nat _ _ _ Ht), Hpi. simpl.
    rewrite bool_decide_eq_true_2 by done.
    replace (Z.of_nat t + 1) with (Z.of_nat (S t)) by lia.
    rewrite del_repeat.
    + simpl. do 3 f_equal. rewrite length_range2.
      rewrite drop_ge, app_nil_r; [done|]. unfold len. lia.
    + rewrite length_range2. unfold len. lia.
  - replace (length p - k)%nat with (S (length p - S k)) by lia. cbn [seq fmap list_fmap].
    cbn [wilson_erase].
    destruct (lookup_lt_is_Some_2 p k) as [y Hy]; [lia|].
    rewrite (py_index_nat _ _ _ Hy), Hpi. simpl.
    rewrite bool_decide_eq_false_2 by (apply (Hfirst k); [lia|done]).
    apply IH; lia.
Qed.

(** The loop over [t] cuts the path after the first occurrence of its
    last cell. *)
Lemma wilson_erase_spec (p : list ref) (x : ref) lr :
  last p = Some x →
  ∃ t : nat, wilson_erase (range (len p)) p (len p - 1) lr
             = Ret (take (S t) p, Z.of_nat t, lr + 1)
    ∧ p !! t = Some x
    ∧ ∀ (m : nat) y, (m < t)%nat → p !! m = Some y → y ≠ x.
Proof.
  intros Hlast.
  destruct (list_find (λ y, y = x) p) as [[t y]|] eqn:Hfind.
  - apply list_find_Some in Hfind as (Ht & -> & Hfirst). exists t.
    split; [|split; [done|]].
    + unfold range, len. rewrite Nat2Z.id.
      rewrite <- (Nat.sub_0_r (length p)) at 1.
      apply (wilson_erase_from p x t 0 lr); [done|done| |lia].
      intros m y Hm Hy. by apply (Hfirst m).
    + intros m y Hm Hy. by apply (Hfirst m).
  - apply list_find_None in Hfind. rewrite last_lookup in Hlast.
    apply list_elem_of_lookup_2 in Hlast.
    rewrite Forall_forall in Hfind. by destruct (Hfind x Hlast).
Qed.

Lemma wilson_hit_spec (visited path : list ref) (i : Z) (x : ref) :
  py_index path i = Ret x →
  wilson_hit visited path i = Ret (bool_decide (x ∈ visited)).
Proof.
  intros Hx. induction visited as [|item rest IH]; cbn [wilson_hit].
  - done.
  - rewrite Hx. cbn [mbind outcome_bind]. rewrite py_eq_cell.
    destruct (bool_decide_reflect (x = item)) as [->|Hne].
    + f_equal. symmetry. apply bool_decide_eq_true_2. apply list_elem_of_here.
    + rewrite IH. f_equal. apply bool_decide_ext. rewrite elem_of_cons. naive_solver.
Qed.

Section wilson.
Context (nr nc : Z) (E : exn → Prop).
Implicit Types (h : Heap) (a b x y p : ref) (path visited unvisited : list ref).

Lemma wilson_redo_spec fuel path (x : ref) rc w :
  maze nr nc (heap w) → last path = Some x → in_grid nr nc x →
  ensures E (wilson_redo fuel path (len path) rc) w (λ r w',
    heap w' = heap w ∧ rc < r.2 ∧ ∃ n, r.1 = path ++ [n] ∧ adjacent nr nc x n).
Proof.
  intros Hm Hlast Hx. revert rc w Hm.
  assert (py_index path (len path - 1) = Ret x) as Hpi.
  { rewrite last_lookup in Hlast.
    assert (pred (length path) < length path)%nat by (by eapply lookup_lt_Some).
    unfold len. replace (Z.of_nat (length path) - 1)
      with (Z.of_nat (pred (length path))) by lia.
    by apply py_index_nat. }
  induction fuel as [|fuel IH]; intros rc w Hm; [apply ensures_diverge|].
  cbn [wilson_redo]. do 3 estep. rewrite Hpi. do 2 estep.
  estep. unfold id.
  assert (∀ n w1, adjacent nr nc x n → heap w1 = heap w →
            ensures E (mret (path ++ [n], rc + 1)) w1 (λ r w',
              heap w' = heap w ∧ rc < r.2 ∧ ∃ n, r.1 = path ++ [n] ∧ adjacent nr nc x n))
    as Hmove.
  { intros n w1 Hn Hw1. estep. simpl. split; [done|]. split; [lia|]. eauto. }
  destruct (r =? 1); [destruct (north _) as [n|] eqn:Hn|].
  { apply Hmove; [by eapply maze_north|done]. }
  all: destruct (r =? 2); [destruct (south _) as [n'|] eqn:Hs|].
  1, 4: by (apply Hmove; [by eapply maze_south|done]).
  all: destruct (r =? 3); [destruct (east _) as [n''|] eqn:He|].
  1, 4, 7, 10: by (apply Hmove; [by eapply maze_east|done]).
  all: destruct (r =? 4); [destruct (west _) as [n'''|] eqn:Hw|].
  all: try by (apply Hmove; [by eapply maze_west|done]).
  all: eapply ensures_mono; [by apply (IH (rc + 1) (next w))|];
    intros [p' r'] w' (? & ? & ?); simpl in *; split_and!; [done|lia|done].
Qed.
End wilson.

Section wilson_walk.
Context (nr nc : Z) (E : exn → Prop).
Implicit Types (h : Heap) (a b x y p : ref) (path visited unvisited : list ref).

Lemma chain_take path (n : nat) : chain nr nc path → chain nr nc (take n path).
Proof.
  intros Hc k x y Hx Hy. apply (Hc k).
  - by apply lookup_take_Some in Hx as [? _].
  - by apply lookup_take_Some in Hy as [? _].
Qed.

Lemma chain_snoc path x n :
  chain nr nc path → last path = Some x → adjacent nr nc x n → chain nr nc (path ++ [n]).
Proof.
  intros Hc Hlast Hxn k a b Ha Hb.
  assert (pred (length path) < length path)%nat as Hlen.
  { rewrite last_lookup in Hlast. by eapply lookup_lt_Some. }
  destruct (decide (S k < length path)%nat) as [Hk|Hk].
  - rewrite lookup_app_l in Ha, Hb by lia. by apply (Hc k).
  - assert (S k = length path) as Hk'.
    { apply lookup_lt_Some in Hb. rewrite length_app in Hb. simpl in Hb. lia. }
    rewrite lookup_app_l in Ha by lia. rewrite last_lookup in Hlast.
    replace (pred (length path)) with k in Hlast by lia.
    rewrite lookup_app_r in Hb by lia. rewrite Hk', Nat.sub_diag in Hb.
    simpl in Hb. congruence.
Qed.

Lemma wilson_walk_spec fuel redo visited path rc lr w :
  maze nr nc (heap w) → walking nr nc visited path →
  ensures E (wilson_walk fuel redo visited path (len path - 1) rc lr) w (λ r w',
    heap w' = heap w ∧ arrived nr nc visited r.1.1
    ∧ len r.1.1 - len path ≤ r.2 - lr ∧ r.2 - lr ≤ r.1.2 - rc).
Proof.
  revert path rc lr w.
  induction fuel as [|fuel IH]; intros path rc lr w Hm Hwalk; [apply ensures_diverge|].
  destruct Hwalk as (Hne & Hnd & Hin & Hch & Hvis).
  destruct (last path) as [x|] eqn:Hlast; [|by apply last_None in Hlast].
  assert (in_grid nr nc x) as Hx.
  { rewrite Forall_forall in Hin. apply Hin. rewrite last_lookup in Hlast.
    by eapply list_elem_of_lookup_2. }
  cbn [wilson_walk]. cbv zeta. replace (len path - 1 + 1) with (len path) by lia.
  estep. eapply ensures_mono; [by apply (wilson_redo_spec nr nc E redo)|].
  { intros [path' rc'] w1 (Hw1 & Hrc & n & Hp' & Hxn). simpl in Hrc, Hp'. subst path'.
      cbv beta iota.
      assert (last (path ++ [n]) = Some n) as Hlast' by apply last_snoc.
      destruct (wilson_erase_spec (path ++ [n]) n lr Hlast') as (t & Herase & Ht & Hfirst).
      assert (len (path ++ [n]) - 1 = len path) as Hlen.
      { unfold len. rewrite length_app. simpl. lia. }
      rewrite Hlen in Herase. estep. rewrite Herase. estep.
      cbv beta iota.
      assert (t ≤ length path)%nat as Htle.
      { apply lookup_lt_Some in Ht. rewrite length_app in Ht. simpl in Ht. lia. }
      assert (take (S t) (path ++ [n]) = take t path ++ [n]) as Htake.
      { rewrite (take_S_r _ _ _ Ht). by rewrite take_app_le by lia. }
      rewrite Htake.
      assert (n ∉ take t path) as Hn.
      { intros (k & Hk)%list_elem_of_lookup_1. apply lookup_take_Some in Hk as [Hk Hkt].
        apply (Hfirst k n); [done| |done]. by rewrite lookup_app_l by lia. }
      assert (length (take t path) = t) as Hlt by (rewrite length_take; lia).
      assert (NoDup (take t path ++ [n])) as Hnd'.
      { apply NoDup_app. split_and!.
        - rewrite <- (take_drop t path) in Hnd. by apply NoDup_app in Hnd as [? _].
        - intros y Hy ->%list_elem_of_singleton. done.
        - apply NoDup_singleton. }
      assert (Forall (in_grid nr nc) (take t path ++ [n])) as Hin'.
      { apply Forall_app. split; [by apply Forall_take|].
        apply Forall_singleton, Hxn. }
      assert (chain nr nc (take t path ++ [n])) as Hch'.
      { rewrite <- Htake. by eapply chain_take, chain_snoc. }
      assert (Forall (λ y, y ∉ visited) (take t path)) as Hvis' by (by apply Forall_take).
      assert (py_index (take t path ++ [n]) (Z.of_nat t) = Ret n) as Hpi.
      { apply py_index_nat. by rewrite lookup_app_r, Hlt, Nat.sub_diag by lia. }
      assert (len (take t path ++ [n]) = Z.of_nat t + 1) as Hlen'.
      { unfold len. rewrite length_app, Hlt. simpl. lia. }
      assert (Z.of_nat t ≤ len path) as Htz by (unfold len; lia).
      estep. rewrite (wilson_hit_spec _ _ _ n Hpi). estep.
      destruct (bool_decide_reflect (n ∈ visited)) as [Hnv|Hnv].
      - estep. simpl. split; [done|]. split; [|lia].
        split; [done|]. split; [done|]. split; [done|]. by exists (take t path), n.
      - replace (Z.of_nat t) with (len (take t path ++ [n]) - 1) by lia.
        eapply ensures_mono.
        { apply IH; [by rewrite Hw1|]. split_and!; try done.
          - by intros [_ [=]]%app_eq_nil.
          - apply Forall_app. split; [done|]. by apply Forall_singleton. }
        intros [[p2 rc2] lr2] w2 (Hw2 & Harr & H1 & H2). simpl in *.
        split; [congruence|]. split; [done|]. lia. }
Qed.
End wilson_walk.

Lemma foldM_app_eq {S A B} (F : A → list B) (l : list A) (acc : list B)
    (body : list B → A → M S (list B)) s :
  (∀ x acc, x ∈ l → body acc x s = (Ret (acc ++ F x), s)) →
  foldM l acc body s = (Ret (acc ++ (l ≫= F)), s).
Proof.
  revert acc. induction l as [|x l IH]; intros acc Hbody; simpl.
  - by rewrite app_nil_r.
  - rewrite bind_eq, Hbody by apply list_elem_of_here.
    rewrite IH; [by rewrite app_assoc|].
    intros. apply Hbody. by apply list_elem_of_further.
Qed.

Section wilson_loop.
Context (nr nc : Z) (E : exn → Prop).
Implicit Types (h : Heap) (a b x y p : ref) (path visited unvisited : list ref).

(** The list of unvisited cells that [wilson] starts from. *)
Lemma wilson_unvisited (w : World) :
  foldM (range (num_rows (rect nr nc))) [] (λ unvisited i,
    foldM (range (num_columns (rect nr nc))) unvisited (λ unvisited j,
      c ← lift_outcome (cell_at (rect nr nc) i j);
      mret (unvisited ++ [c]))) w
  = (Ret (positions nr nc), w).
Proof.
  simpl num_rows. simpl num_columns.
  rewrite (foldM_app_eq (λ i, j ← range nc; [(i, j)])); [done|].
  intros i acc Hi%elem_of_range.
  apply (foldM_app_eq (λ j, [(i, j)])).
  intros j acc' Hj%elem_of_range. unfold cell_at.
  rewrite bind_eq. unfold lift_outcome. by rewrite grid_get_rows.
Qed.

(** Links along a path join every cell of the path to the last one. *)
Lemma path_links_to_last h path z :
  symmetric h → last path = Some z →
  (∀ k : nat, (S k < length path)%nat →
     ∃ x y, path !! k = Some x ∧ path !! S k = Some y ∧ linked h x y) →
  ∀ x, x ∈ path → rtc (linked h) x z.
Proof.
  intros Hs Hlast Hl.
  assert (∀ (d k : nat) x, (k + d = pred (length path))%nat → path !! k = Some x →
            rtc (linked h) x z) as Hgen.
  { induction d as [|d IH]; intros k x Hk Hx.
    - rewrite Nat.add_0_r in Hk. subst k. rewrite last_lookup in Hlast.
      assert (x = z) as -> by congruence. done.
    - destruct (Hl k) as (x' & y & Hx' & Hy & Hxy); [lia|].
      assert (x' = x) as -> by congruence.
      eapply rtc_l; [exact Hxy|]. apply (IH (S k)); [lia|done]. }
  intros x (k & Hk)%list_elem_of_lookup_1.
  apply (Hgen (pred (length path) - k)%nat k); [|done].
  apply lookup_lt_Some in Hk. lia.
Qed.

Lemma wilson_add_path unvisited visited path w :
  maze nr nc (heap w) → arrived nr nc visited path →
  unvisited ++ visited ≡ₚ positions nr nc →
  ensures E
    (foldM (range2 0 (len path - 1)) (unvisited, visited)
       (λ '(unvisited, visited) t,
          pt ← lift_outcome (py_index path t);
          let visited := visited ++ [pt] in
          pt ← lift_outcome (py_index path t);
          unvisited ← lift_outcome (py_remove pt unvisited);
          a ← lift_outcome (py_index path t);
          b ← lift_outcome (py_index path (t + 1));
          liftH (modify (link a b true));;
          mret (unvisited, visited))) w
    (λ r w',
       maze nr nc (heap w')
       ∧ r.1 ++ r.2 ≡ₚ positions nr nc
       ∧ Z.of_nat (length r.2) = Z.of_nat (length visited) + len path - 1
       ∧ (∀ x y, rtc (linked (heap w)) x y → rtc (linked (heap w')) x y)
       ∧ ∃ z, z ∈ visited ∧ ∀ x, x ∈ r.2 → x ∈ visited ∨ rtc (linked (heap w')) x z).
Proof.
  intros Hm (Hnd & Hin & Hch & pre & z & -> & Hz & Hpre) Hperm.
  assert (len (pre ++ [z]) - 1 = len pre) as Hlen.
  { unfold len. rewrite length_app. simpl. lia. }
  rewrite Hlen.
  assert (NoDup (positions nr nc)) as Hndp by apply NoDup_positions.
  eapply ensures_mono.
  { apply (ensures_foldM E (λ done (r : list ref * list ref) w',
      let t := length done in
      r.2 = visited ++ take t pre
      ∧ r.1 ++ take t pre ≡ₚ unvisited
      ∧ maze nr nc (heap w')
      ∧ (∀ x y, rtc (linked (heap w)) x y → rtc (linked (heap w')) x y)
      ∧ ∀ k : nat, (k < t)%nat →
          ∃ x y, (pre ++ [z]) !! k = Some x ∧ (pre ++ [z]) !! S k = Some y
                 ∧ linked (heap w') x y)).
    - simpl. rewrite take_0, !app_nil_r. split_and!; try done. intros; lia.
    - intros done t post [unv vis] w1 Hl (Hvis & Hunv & Hm1 & Hmono & Hlinks).
      simpl in Hvis, Hunv. subst vis.
      apply range2_split in Hl as [-> Ht]. rewrite Z.add_0_l in *.
      assert (length done < length pre)%nat as Htn by (unfold len in Ht; lia).
      destruct (lookup_lt_is_Some_2 pre (length done) Htn) as [pt Hpt].
      assert ((pre ++ [z]) !! length done = Some pt) as Hpt'
        by (by rewrite lookup_app_l by lia).
      destruct (lookup_lt_is_Some_2 (pre ++ [z]) (S (length done))) as [b Hb].
      { rewrite length_app. simpl. lia. }
      replace (Z.of_nat (length done) + 1) with (Z.of_nat (S (length done))) by lia.
      rewrite (py_index_nat _ _ _ Hpt'), (py_index_nat _ _ _ Hb).
      assert (pt ∈ unv) as Hptu.
      { assert (pt ∈ pre) as Hp by (by eapply list_elem_of_lookup_2).
        assert (pt ∈ unvisited ++ visited) as [Hu|Hv]%elem_of_app.
        { rewrite Hperm. apply elem_of_positions.
          rewrite Forall_forall in Hin. apply Hin, elem_of_app. by left. }
        - rewrite <- Hunv in Hu. apply elem_of_app in Hu as [Hu|Hu]; [done|].
          apply list_elem_of_lookup_1 in Hu as (k & Hk).
          apply lookup_take_Some in Hk as [Hk Hkt].
          apply NoDup_app in Hnd as (Hndpre & _ & _).
          pose proof (NoDup_lookup _ _ _ _ Hndpre Hk Hpt). lia.
        - rewrite Forall_forall in Hpre. by destruct (Hpre pt Hp). }
      destruct (py_remove_spec pt unv Hptu) as (unv' & Hrem & Hunv').
      do 2 estep. cbv zeta. do 3 estep. rewrite Hrem. repeat estep. simpl.
      rewrite length_app. simpl. rewrite Nat.add_1_r.
      rewrite (take_S_r _ _ _ Hpt).
      split_and!.
      + by rewrite app_assoc.
      + rewrite <- Hunv, Hunv'. rewrite app_assoc.
        rewrite <- (Permutation_cons_append (unv' ++ take (length done) pre) pt). done.
      + apply maze_link; [|done]. by apply (Hch (length done)).
      + intros x y Hxy. by apply rtc_linked_link, Hmono.
      + intros k Hk. destruct (decide (k = length done)) as [->|Hne].
        * exists pt, b. split; [done|]. split; [done|]. apply linked_link_eq.
        * destruct (Hlinks k) as (x & y & ? & ? & ?); [lia|].
          exists x, y. split; [done|]. split; [done|]. by apply linked_link. }
  intros [unv' vis'] w' (Hvis & Hunv & Hm' & Hmono & Hlinks). simpl in *.
  rewrite length_range2 in *. replace (Z.to_nat (len pre - 0)) with (length pre) in *
    by (unfold len; lia).
  rewrite take_ge in * by lia. subst vis'.
  split_and!.
  - done.
  - rewrite <- Hperm, <- Hunv, <- (app_assoc unv').
    apply Permutation_app_head, Permutation_app_comm.
  - unfold len. rewrite !length_app. simpl. lia.
  - done.
  - exists z. split; [done|]. intros x [Hx|Hx]%elem_of_app; [by left|]. right.
    apply (path_links_to_last _ (pre ++ [z])).
    + apply Hm'.
    + apply last_snoc.
    + intros k Hk. apply Hlinks. rewrite length_app in Hk. simpl in Hk. lia.
    + apply elem_of_app. by left.
Qed.

Lemma wilson_loop_spec fuel inner unvisited visited rc lr w :
  0 ≤ nr → 0 ≤ nc →
  maze nr nc (heap w) →
  unvisited ++ visited ≡ₚ positions nr nc →
  (∀ x y, x ∈ visited → y ∈ visited → rtc (linked (heap w)) x y) →
  len visited - 1 ≤ lr → lr ≤ rc →
  ensures E (wilson_loop fuel inner (rect nr nc) unvisited visited rc lr) w (λ r w',
    maze nr nc (heap w') ∧ connected (rect nr nc) (heap w')
    ∧ grid_size (rect nr nc) - 1 ≤ r.2 ∧ r.2 ≤ r.1).
Proof.
  intros Hnr Hnc. rewrite (grid_size_rect nr nc) by done.
  revert unvisited visited rc lr w.
  induction fuel as [|fuel IH]; intros unv vis rc lr w Hm Hperm Hconn Hlr Hrc;
    [apply ensures_diverge|].
  cbn [wilson_loop]. rewrite grid_size_rect by done.
  assert (length unv + length vis = length (positions nr nc))%nat as Hlen.
  { by rewrite <- Hperm, length_app. }
  assert (NoDup (unv ++ vis)) as Hnd by (rewrite Hperm; apply NoDup_positions).
  unfold len in *.
  destruct (Z.leb_spec (Z.of_nat (length vis)) (Z.of_nat (length (positions nr nc))));
    [|lia].
  destruct (Z.eqb_spec (Z.of_nat (length vis)) (Z.of_nat (length (positions nr nc))))
    as [Heq|Hne].
  - estep. simpl. split; [done|]. split; [|lia].
    assert (unv = []) as -> by (apply nil_length_inv; lia). simpl in Hperm.
    intros a b Ha Hb. rewrite cells_grid_rows in Ha, Hb.
    apply Hconn; rewrite Hperm; done.
  - do 2 estep.
    2:{ intros ->. simpl in Hlen. lia. }
    assert (walking nr nc vis [x]) as Hwalk.
    { split_and!; [done|apply NoDup_singleton| | |].
      - apply Forall_singleton, elem_of_positions. rewrite <- Hperm.
        apply elem_of_app. by left.
      - intros k a b Ha Hb. by destruct k.
      - apply Forall_singleton. apply NoDup_app in Hnd as (_ & Hd & _). by apply Hd. }
    estep. change 0 with (len [x] - 1) at 1.
    eapply ensures_mono; [by apply (wilson_walk_spec nr nc E)|].
    intros [[path rc'] lr'] w1 (Hw1 & Harr & H1 & H2). simpl in H1, H2.
    cbv beta iota. estep.
    eapply ensures_mono.
    { apply wilson_add_path; [by rewrite Hw1|done|done]. }
    intros [unv' vis'] w2 (Hm2 & Hperm2 & Hlen2 & Hmono & z & Hz & Hto).
    cbn [fst snd] in *. cbv beta iota. unfold len in *. simpl length in H1.
    apply IH; try done; try lia.
    intros a b Ha Hb.
    assert (∀ c, c ∈ vis' → rtc (linked (heap w2)) c z) as Hcz.
    { intros c [Hc|Hc]%Hto; [|done]. apply Hmono. rewrite Hw1. by apply Hconn. }
    transitivity z; [by apply Hcz|].
    apply rtc_linked_sym; [apply Hm2|]. by apply Hcz.
Qed.
End wilson_loop.

(** X18: [wilson] on a new grid never raises, and whenever it returns
    (for any random draws) every cell is reachable from every other
    cell, [is_linked] is symmetric, links join geographic neighbours
    only, and the two counters it returns satisfy
    [size() - 1 <= loops_removed <= random_choices]. *)
Theorem wilson_connected nr nc g h fuel draws :
  fresh nr nc = (Ret g, h) →
  match wilson fuel g (mkWorld h draws) with
  | (Ret (random_choices, loops_removed), w') =>
      connected g (heap w')
      ∧ (∀ a b, is_linked a b (heap w') = is_linked b a (heap w'))
      ∧ (∀ a b, linked (heap w') a b → adjacent nr nc a b)
      ∧ grid_size g - 1 ≤ loops_removed ∧ loops_removed ≤ random_choices
  | (Raise _, _) => False
  | (Diverge, _) => True
  end.
Proof.
  intros Hf. pose proof (fresh_maze _ _ _ _ Hf) as Hm.
  apply fresh_inv in Hf as (Hnr & Hnc & -> & _).
  destruct (unlink_all_maze nr nc h Hm) as (h1 & Hu & Hm1 & Hnone).
  change (ensures (λ _, False) (wilson fuel (rect nr nc)) (mkWorld h draws)
            (λ r w', let '(random_choices, loops_removed) := r in
               connected (rect nr nc) (heap w')
               ∧ (∀ a b, is_linked a b (heap w') = is_linked b a (heap w'))
               ∧ (∀ a b, linked (heap w') a b → adjacent nr nc a b)
               ∧ grid_size (rect nr nc) - 1 ≤ loops_removed
               ∧ loops_removed ≤ random_choices)).
  eapply ensures_mono with
    (Q := λ r w', maze nr nc (heap w') ∧ connected (rect nr nc) (heap w')
                  ∧ grid_size (rect nr nc) - 1 ≤ r.2 ∧ r.2 ≤ r.1).
  2:{ intros [rc lr] w' (Hm' & Hc & Hn1 & Hn2). simpl in *.
      split_and!; [done| |intros a b; by apply (maze_linked_adjacent nr nc)|done..].
      intros a b. rewrite !is_linked_entry. destruct Hm' as [_ [Hs _]].
      by rewrite (Hs a b). }
  unfold wilson. estep. eapply ensures_liftH; [exact Hu|].
  estep. apply ensures_returns. eexists _, _. split; [apply wilson_unvisited|].
  do 2 estep.
  2:{ intros Hnil. assert (length (positions nr nc) = 0%nat) as Hl by (by rewrite Hnil).
      rewrite length_positions in Hl. lia. }
  destruct (py_remove_spec x (positions nr nc)) as (unv & -> & Hunv); [done|].
  do 2 estep.
  apply wilson_loop_spec; try done; try lia.
  - rewrite Hunv. by rewrite <- Permutation_cons_append.
  - by intros a b ->%list_elem_of_singleton ->%list_elem_of_singleton.
Qed.

Lemma wilson_connected_witness :
  let run := wilson 20 (rect 2 3)
               (mkWorld (fresh 2 3).2
                  (tape [4; 0; 5; 1; 2; 3; 0; 1; 3; 3; 0; 1; 2; 1; 0; 1; 2; 3]%nat)) in
  run.1 = Ret (7, 5) ∧ connected (rect 2 3) (heap run.2).
Proof.
  intros run. split; [by vm_compute|].
  pose proof (wilson_connected 2 3 (rect 2 3) (fresh 2 3).2 20
                (tape [4; 0; 5; 1; 2; 3; 0; 1; 3; 3; 0; 1; 2; 1; 0; 1; 2; 3]%nat)) as H.
  assert (run = (Ret (7, 5), run.2)) as Hrun by (by vm_compute).
  fold run in H. rewrite Hrun in H. apply H. by vm_compute.
Defined.

(** ** sidewinder *)

Section returns_world.
Lemma returns_randrange a b w (Q : Z → World → Prop) :
  a < b → (∀ r, a ≤ r < b → Q r (next w)) → returns (randrange a b) w Q.
Proof.
  intros Hab HQ. eexists _, _. split; [by apply randrange_eq|]. apply HQ.
  pose proof (Z.mod_pos_bound (Z.of_nat (rnd w 0%nat)) (b - a)). lia.
Qed.

Lemma returns_attr {X} (f : Cell → X) r w (Q : X → World → Prop) :
  Q (f (heap w !!! r)) w → returns (attr f r) w Q.
Proof. intros H. by eexists _, _. Qed.

Lemma returns_foldM {S A B} (I : list A → B → S → Prop) (l : list A) (acc : B)
    (body : B → A → M S B) s :
  I [] acc s →
  (∀ pre x post acc s, l = pre ++ x :: post → I pre acc s →
     returns (body acc x) s (λ acc' s', I (pre ++ [x]) acc' s')) →
  returns (foldM l acc body) s (λ acc' s', I l acc' s').
Proof.
  intros H0 Hbody.
  enough (∀ post pre acc s, l = pre ++ post → I pre acc s →
            returns (foldM post acc body) s (λ acc' s', I l acc' s')) as Hgen.
  { by apply (Hgen l [] acc s). }
  clear s acc H0. induction post as [|x post IH]; intros pre acc s Hl Hpre; simpl.
  - apply returns_ret. by rewrite Hl, app_nil_r.
  - apply returns_bind. eapply returns_mono; [by eapply Hbody|].
    intros acc' s' Hs'. simpl in Hs'. apply (IH (pre ++ [x])); [|done].
    by rewrite <- app_assoc.
Qed.

Lemma returns_lift_ret {S A} (a : A) (s : S) (Q : A → S → Prop) :
  Q a s → returns (lift_outcome (Ret a)) s Q.
Proof. intros. by eexists _, _. Qed.
End returns_world.

Ltac rstep :=
  lazymatch goal with
  | |- returns (mret _) _ _ => apply returns_ret
  | |- returns (_ ≫= _) _ _ => apply returns_bind
  | |- returns (liftH (modify _)) _ _ => apply returns_liftH_modify
  | |- returns (lift_outcome (Ret _)) _ _ => apply returns_lift_ret
  | |- returns (randrange _ _) _ _ => apply returns_randrange; [lia|intros ? ?]
  | |- returns (attr _ _) _ _ => apply returns_attr
  end; cbv beta.

Section sidewinder.
Context (nr nc : Z).
Implicit Types (h : Heap) (x y p : ref).

Lemma wired_north h i j :
  wired nr nc h → 0 ≤ i < nr → 0 ≤ j < nc → i ≠ 0 → north (h !!! (i, j)) = Some (i - 1, j).
Proof.
  intros Hw Hi Hj Hne. destruct (Hw (i, j)) as (_ & _ & _ & -> & _); [done|]. simpl.
  by rewrite decide_False.
Qed.

Lemma wired_east h i j :
  wired nr nc h → 0 ≤ i < nr → 0 ≤ j < nc → j ≠ nc - 1 →
  east (h !!! (i, j)) = Some (i, j + 1).
Proof.
  intros Hw Hi Hj Hne. destruct (Hw (i, j)) as (_ & _ & _ & _ & _ & -> & _); [done|].
  simpl. by rewrite decide_False.
Qed.

Lemma wired_column h i j :
  wired nr nc h → 0 ≤ i < nr → 0 ≤ j < nc → column (h !!! (i, j)) = j.
Proof. intros Hw Hi Hj. by destruct (Hw (i, j)) as (_ & _ & -> & _). Qed.

Lemma escape_link x y h i j hi : escape h i j hi → escape (link x y true h) i j hi.
Proof.
  intros (a & b & r & ? & ? & ? & ? & ? & ? & He & Hn).
  exists a, b, r. split_and!; try done.
  - intros k Hk. by apply linked_link, He.
  - by apply linked_link.
Qed.

Lemma sw_inv_link x y i s h :
  adjacent nr nc x y → sw_inv nr nc i s h → sw_inv nr nc i s (link x y true h).
Proof.
  intros Hxy (Hm & Ha & Hr & Hc & Hd). split_and!.
  - by apply maze_link.
  - intros. by apply linked_link, Ha.
  - intros. by apply linked_link, Hr.
  - intros. by apply escape_link, Hc.
  - intros. by apply escape_link, Hd.
Qed.

(** Unlinking a cell of the open run from its north neighbour. *)
Lemma sw_inv_unlink_north i s a h :
  1 ≤ i < nr → 0 ≤ s → s ≤ a < nc →
  sw_inv nr nc i s h → sw_inv nr nc i s (unlink (i, a) (i - 1, a) true h).
Proof.
  intros Hi Hs Ha (Hm & Hab & Hr & Hc & Hd).
  assert (∀ i' k, linked h (i', k) (i', k + 1) →
            linked (unlink (i, a) (i - 1, a) true h) (i', k) (i', k + 1)) as Heast.
  { intros i' k Hl. apply linked_unlink; [done|..]; intros [= ]; lia. }
  split_and!.
  - apply maze_unlink; [|done]. unfold adjacent, in_grid. simpl. lia.
  - intros. by apply Heast, Hab.
  - intros. by apply Heast, Hr.
  - intros j Hj. destruct (Hc j Hj) as (a' & b' & r & ? & ? & ? & ? & ? & ? & He & Hn).
    exists a', b', r. split_and!; try done.
    + intros. by apply Heast, He.
    + apply linked_unlink; [done|..]; intros [= ]; lia.
  - intros i' j Hi' Hj.
    destruct (Hd i' j Hi' Hj) as (a' & b' & r & ? & ? & ? & ? & ? & ? & He & Hn).
    exists a', b', r. split_and!; try done.
    + intros. by apply Heast, He.
    + apply linked_unlink; [done|..]; intros [= ]; lia.
Qed.

(** The end of a run: the east link of its last cell goes, and the
    chosen cell is linked to the north. *)
Lemma sw_inv_close i s j r h :
  1 ≤ i < nr → 0 ≤ s → s ≤ j < nc → s ≤ r ≤ j →
  sw_inv nr nc i s h →
  sw_inv nr nc i (j + 1)
    (link (i, r) (i - 1, r) true
       (if bool_decide (j ≠ nc - 1) then unlink (i, j) (i, j + 1) true h else h)).
Proof.
  intros Hi Hs Hj Hr (Hm & Hab & Hrest & Hc & Hd).
  set (h1 := if bool_decide (j ≠ nc - 1) then unlink (i, j) (i, j + 1) true h else h).
  assert (∀ x y, linked h x y → (x, y) ≠ ((i, j), (i, j + 1)) →
            (x, y) ≠ ((i, j + 1), (i, j)) →
            linked (link (i, r) (i - 1, r) true h1) x y) as Hkeep.
  { intros x y Hl H1 H2. apply linked_link. unfold h1. case_bool_decide; [|done].
    apply linked_unlink; [done|..]; congruence. }
  assert (maze nr nc h1) as Hm1.
  { unfold h1. case_bool_decide; [|done].
    apply maze_unlink; [|done]. unfold adjacent, in_grid. simpl. lia. }
  split_and!.
  - apply maze_link; [|done]. unfold adjacent, in_grid. simpl. lia.
  - intros i' k Hi' Hk. apply Hkeep; [by apply Hab|..]; intros [= ]; lia.
  - intros k Hk. apply Hkeep; [apply Hrest; lia|..]; intros [= ]; lia.
  - intros k Hk. destruct (decide (k < s)) as [Hks|Hks].
    + destruct (Hc k) as (a' & b' & r' & ? & ? & ? & ? & ? & ? & He & Hn); [lia|].
      exists a', b', r'. split_and!; try done; try lia.
      * intros. apply Hkeep; [by apply He|..]; intros [= ]; lia.
      * apply Hkeep; [done|..]; intros [= ]; lia.
    + exists s, j, r. split_and!; try lia.
      * intros k' Hk'. apply Hkeep; [apply Hrest; lia|..]; intros [= ]; lia.
      * apply linked_link_eq.
  - intros i' k Hi' Hk.
    destruct (Hd i' k Hi' Hk) as (a' & b' & r' & ? & ? & ? & ? & ? & ? & He & Hn).
    exists a', b', r'. split_and!; try done.
    + intros. apply Hkeep; [by apply He|..]; intros [= ]; lia.
    + apply Hkeep; [done|..]; intros [= ]; lia.
Qed.

Lemma sw_inv_next_row i h : 1 ≤ i → sw_inv nr nc i nc h → sw_inv nr nc (i - 1) 0 h.
Proof.
  intros Hi (Hm & Hab & Hrest & Hc & Hd). split_and!.
  - done.
  - intros i' j Hi' Hj. apply Hab; lia.
  - intros j Hj. apply Hab; lia.
  - intros; lia.
  - intros i' j Hi' Hj. destruct (decide (i' = i)) as [->|Hne].
    + apply Hc. lia.
    + apply Hd; lia.
Qed.

Lemma sw_inv_fresh g h : fresh nr nc = (Ret g, h) → sw_inv nr nc (nr - 1) 0 h.
Proof.
  intros Hf. pose proof (fresh_maze _ _ _ _ Hf) as Hm.
  apply fresh_inv in Hf as (Hnr & Hnc & _ & _ & Hfull). split_and!.
  - done.
  - intros. apply Hfull. unfold adjacent, in_grid. simpl. lia.
  - intros. apply Hfull. unfold adjacent, in_grid. simpl. lia.
  - intros; lia.
  - intros; lia.
Qed.

(** *** The run *)

Lemma length_run_cells i s j : s ≤ j → len (run_cells i s j) = j - s.
Proof. intros. unfold len, run_cells. rewrite length_fmap, length_range2. lia. Qed.

Lemma run_cells_nil i s : run_cells i s s = [].
Proof. unfold run_cells, range2. by rewrite Z.sub_diag. Qed.

Lemma run_cells_snoc i s j : s ≤ j → run_cells i s j ++ [(i, j)] = run_cells i s (j + 1).
Proof.
  intros Hs. unfold run_cells, range2.
  replace (Z.to_nat (j + 1 - s)) with (S (Z.to_nat (j - s))) by lia.
  rewrite seq_S, !fmap_app. simpl. do 3 f_equal. lia.
Qed.

Lemma run_cells_index i s j a :
  0 ≤ a < j - s → py_index (run_cells i s j) a = Ret (i, s + a).
Proof.
  intros Ha. replace a with (Z.of_nat (Z.to_nat a)) at 1 by lia.
  apply py_index_nat. unfold run_cells, range2.
  rewrite !list_lookup_fmap, lookup_seq_lt by lia. simpl. do 3 f_equal. lia.
Qed.

Lemma reverse_range2_split a b (pre : list Z) (x : Z) post :
  reverse (range2 a b) = pre ++ x :: post →
  x = b - 1 - Z.of_nat (length pre) ∧ a ≤ x < b.
Proof.
  intros Hl. apply (f_equal reverse) in Hl.
  rewrite reverse_involutive, reverse_app, reverse_cons, <- app_assoc in Hl.
  pose proof (f_equal length Hl) as Hlen.
  rewrite length_range2, !length_app, !length_reverse in Hlen. simpl in Hlen.
  apply range2_split in Hl as [-> ?]. rewrite length_reverse. lia.
Qed.

(** *** One row *)

Lemma sidewinder_run i s j r1 w :
  1 ≤ i < nr → 0 ≤ s → s ≤ j < nc →
  sw_inv nr nc i s (heap w) →
  returns
    (for_ (range (j + 1 - s)) (λ a,
       (if bool_decide (j ≠ nc - 1) then
          x ← lift_outcome (py_index (run_cells i s (j + 1)) a);
          e ← attr east x;
          link_obj x e
        else mret tt);;
       (if bool_decide (a ≠ r1) then
          x ← lift_outcome (py_index (run_cells i s (j + 1)) a);
          n ← attr north x;
          unlink_obj x n
        else
          x ← lift_outcome (py_index (run_cells i s (j + 1)) a);
          n ← attr north x;
          link_obj x n))) w
    (λ _ w', sw_inv nr nc i s (heap w') ∧ rnd w' = rnd w).
Proof.
  intros Hi Hs Hj Hinv.
  apply (returns_for_inv (λ w', sw_inv nr nc i s (heap w') ∧ rnd w' = rnd w)); [done|].
  intros a w1 Ha%elem_of_range [Hinv1 Hrnd].
  rewrite !run_cells_index by lia.
  rstep.
  assert (returns
            (if bool_decide (j ≠ nc - 1)
             then x ← lift_outcome (Ret (i, s + a)); e ← attr east x; link_obj x e
             else mret ()) w1
            (λ _ w', sw_inv nr nc i s (heap w') ∧ rnd w' = rnd w)) as Heast.
  { case_bool_decide; [|by rstep]. do 4 rstep.
    rewrite (wired_east (heap w1) i (s + a)); [|apply Hinv1|lia..].
    unfold link_obj. rstep. simpl. split; [|done].
    apply sw_inv_link; [|done]. unfold adjacent, in_grid. simpl. lia. }
  eapply returns_mono; [exact Heast|]. clear Heast Hinv1 Hrnd w1.
  intros [] w1 [Hinv1 Hrnd]. cbv beta.
  case_bool_decide; do 4 rstep;
    (rewrite (wired_north (heap w1) i (s + a)); [|apply Hinv1|lia..]).
  - unfold unlink_obj. rstep. simpl. split; [|done].
    apply sw_inv_unlink_north; [done|done|lia|done].
  - unfold link_obj. rstep. simpl. split; [|done].
    apply sw_inv_link; [|done]. unfold adjacent, in_grid. simpl. lia.
Qed.
End sidewinder.

Section sidewinder_rows.
Context (nr nc : Z).
Implicit Types (h : Heap) (x y p : ref).

Lemma sidewinder_carves odds h draws :
  0 < nr → 0 < nc →
  PrimFloat.leb PrimFloat.zero odds = true → PrimFloat.ltb odds PrimFloat.one = true →
  sw_inv nr nc (nr - 1) 0 h →
  returns (sidewinder (rect nr nc) odds) (mkWorld h draws)
    (λ _ w', sw_inv nr nc 0 0 (heap w')).
Proof.
  intros Hnr Hnc Hlo Hhi Hinv. unfold sidewinder. rewrite Hlo, Hhi. unfold assert.
  do 4 rstep. simpl num_rows. simpl num_columns.
  eapply returns_mono.
  { apply (returns_for (λ pre w, sw_inv nr nc (nr - 1 - Z.of_nat (length pre)) 0 (heap w))).
    { simpl. by rewrite Z.sub_0_r. }
    intros pre i post w Hl Hw. apply reverse_range2_split in Hl as [Hi Hi'].
    rewrite <- Hi in Hw. rstep. eapply returns_mono.
    { apply (returns_foldM (λ prej run w',
        ∃ s, 0 ≤ s ≤ Z.of_nat (length prej) ∧ (Z.of_nat (length prej) = nc → s = nc)
             ∧ run = run_cells i s (Z.of_nat (length prej))
             ∧ sw_inv nr nc i s (heap w'))).
      { exists 0. simpl. split_and!; try lia; [by rewrite run_cells_nil|done]. }
      intros prej j postj run w1 Hlj (s & Hs & Hend & -> & Hw1).
      apply range_split in Hlj as [Hj Hj']. rewrite <- Hj in *.
      rewrite length_app. simpl length.
      replace (Z.of_nat (length prej + 1)) with (j + 1) by lia.
      do 2 rstep. unfold cell_at. rewrite !grid_get_rows by lia.
      destruct (_ && _) eqn:Hcond.
      - apply andb_true_iff in Hcond as [_ Hne%bool_decide_eq_true].
        do 3 rstep. rewrite run_cells_snoc by lia.
        exists s. split_and!; try done; lia.
      - do 2 rstep. rewrite !run_cells_snoc by lia.
        rewrite length_run_cells in * by lia. do 3 rstep.
        eapply returns_mono; [apply (sidewinder_run nr nc i s j); try done; lia|].
        intros [] w2 [Hw2 _]. cbv beta.
        rewrite !run_cells_index by lia.
        replace (s + (j + 1 - s - 1)) with j by lia.
        do 4 rstep. rewrite (wired_column nr nc (heap w2) i j); [|apply Hw2|lia..].
        rstep.
        pose proof (sw_inv_close nr nc i s j (s + r0) (heap w2)) as Hclose.
        case_bool_decide.
        + do 2 rstep. rewrite (wired_east nr nc (heap w2) i j); [|apply Hw2|lia..].
          unfold unlink_obj at 1. rstep. do 4 rstep. simpl heap.
          rewrite (wired_north nr nc _ i (s + r0));
            [|apply wired_unlink, Hw2|lia..].
          unfold link_obj. do 3 rstep. simpl.
          exists (j + 1).
          split_and!; try lia; [by rewrite run_cells_nil|apply Hclose; try done; lia].
        + do 5 rstep.
          rewrite (wired_north nr nc _ i (s + r0)); [|apply Hw2|lia..].
          unfold link_obj. do 3 rstep. simpl.
          exists (j + 1).
          split_and!; try lia; [by rewrite run_cells_nil|apply Hclose; try done; lia]. }
    intros run w1 (s & Hs & Hend & _ & Hw1). cbv beta. rstep.
    rewrite length_range in Hend, Hs. rewrite Hend in Hw1 by lia.
    rewrite length_app. simpl length.
    replace (nr - 1 - Z.of_nat (length pre + 1)) with (i - 1) by lia.
    apply sw_inv_next_row; [lia|done]. }
  intros [] w' Hw'. cbv beta in Hw'.
  rewrite length_reverse, length_range2 in Hw'.
  by replace (nr - 1 - Z.of_nat (Z.to_nat (nr - 1))) with 0 in Hw' by lia.
Qed.

(** *** The carved grid is connected *)

Lemma row_walk_east h i j (n : nat) :
  (∀ k, j ≤ k < j + Z.of_nat n → linked h (i, k) (i, k + 1)) →
  rtc (linked h) (i, j) (i, j + Z.of_nat n).
Proof.
  revert j. induction n as [|n IH]; intros j Hl.
  - by rewrite Z.add_0_r.
  - eapply rtc_l; [apply Hl; lia|].
    replace (j + Z.of_nat (S n)) with (j + 1 + Z.of_nat n) by lia.
    apply IH. intros k Hk. apply Hl. lia.
Qed.

Lemma row_walk h i a b j r :
  symmetric h → (∀ k, a ≤ k < b → linked h (i, k) (i, k + 1)) →
  a ≤ j ≤ b → a ≤ r ≤ b → rtc (linked h) (i, j) (i, r).
Proof.
  intros Hs Hl Hj Hr. destruct (decide (j ≤ r)) as [Hjr|Hjr].
  - replace r with (j + Z.of_nat (Z.to_nat (r - j))) by lia.
    apply row_walk_east. intros k Hk. apply Hl. lia.
  - apply rtc_linked_sym; [done|].
    replace j with (r + Z.of_nat (Z.to_nat (j - r))) by lia.
    apply row_walk_east. intros k Hk. apply Hl. lia.
Qed.

Lemma sw_inv_connected h :
  0 < nr → 0 < nc → sw_inv nr nc 0 0 h → connected (rect nr nc) h.
Proof.
  intros Hnr Hnc (Hm & _ & Hrow0 & _ & Hrows).
  assert (symmetric h) as Hs by apply Hm.
  assert (∀ (n : nat) i j, i = Z.of_nat n → 0 ≤ i < nr → 0 ≤ j < nc →
            rtc (linked h) (i, j) (0, 0)) as Hreach.
  { induction n as [|n IH]; intros i j Hn Hi Hj.
    - subst i. simpl. apply (row_walk h 0 0 (nc - 1)); [done| |lia|lia].
      intros k Hk. apply Hrow0. lia.
    - destruct (Hrows i j) as (a & b & r & ? & ? & ? & ? & ? & ? & He & Hnorth);
        [lia|lia|].
      transitivity (i, r); [apply (row_walk h i a b); [done|done|lia|lia]|].
      eapply rtc_l; [exact Hnorth|]. apply IH; lia. }
  intros x y Hx Hy. rewrite cells_grid_rows in Hx, Hy.
  apply elem_of_index_pairs in Hx as [Hx1 Hx2], Hy as [Hy1 Hy2].
  destruct x as [xi xj], y as [yi yj]. simpl in *.
  transitivity (0, 0).
  - apply (Hreach (Z.to_nat xi)); lia.
  - apply rtc_linked_sym; [done|]. apply (Hreach (Z.to_nat yi)); lia.
Qed.
End sidewinder_rows.

(** X19: [sidewinder(grid, odds)] on a new grid returns for every
    [0 <= odds < 1] and any random draws, and then every cell is
    reachable from every other cell, [is_linked] is symmetric, links join
    geographic neighbours only, and the top row is one passage from west
    to east; for any other [odds] (NaN included) it raises AssertionError
    before it touches the grid or the random generator. *)
Theorem sidewinder_connected nr nc g h odds draws :
  fresh nr nc = (Ret g, h) →
  (PrimFloat.leb PrimFloat.zero odds && PrimFloat.ltb odds PrimFloat.one = true →
     ∃ w', sidewinder g odds (mkWorld h draws) = (Ret tt, w')
       ∧ connected g (heap w')
       ∧ (∀ a b, is_linked a b (heap w') = is_linked b a (heap w'))
       ∧ (∀ a b, linked (heap w') a b → adjacent nr nc a b)
       ∧ (∀ j, 0 ≤ j < nc - 1 → linked (heap w') (0, j) (0, j + 1)))
  ∧ (PrimFloat.leb PrimFloat.zero odds && PrimFloat.ltb odds PrimFloat.one = false →
       sidewinder g odds (mkWorld h draws) = (Raise AssertionError, mkWorld h draws)).
Proof.
  intros Hf. pose proof (sw_inv_fresh _ _ _ _ Hf) as Hinv.
  apply fresh_inv in Hf as (Hnr & Hnc & -> & _). split.
  - intros [Hlo Hhi]%andb_true_iff.
    destruct (sidewinder_carves nr nc odds h draws Hnr Hnc Hlo Hhi Hinv)
      as ([] & w' & Hrun & Hw').
    exists w'. split; [done|]. split; [by apply sw_inv_connected|].
    destruct Hw' as (Hm & _ & Hrow0 & _). split_and!.
    + intros a b. rewrite !is_linked_entry. destruct Hm as [_ [Hs _]]. by rewrite (Hs a b).
    + intros a b. by apply (maze_linked_adjacent nr nc).
    + done.
  - intros Hbad. unfold sidewinder, assert.
    destruct (PrimFloat.leb _ _); [|done]. simpl in Hbad. by rewrite Hbad.
Qed.

Lemma sidewinder_connected_witness :
  ∃ w', sidewinder (rect 3 3) 0.5%float
          (mkWorld (fresh 3 3).2
             (tape [3; 3; 4; 5; 0; 1; 4; 2; 6; 0; 7; 1; 9; 0; 2; 1]%nat))
        = (Ret tt, w')
    ∧ connected (rect 3 3) (heap w').
Proof.
  destruct (sidewinder_connected 3 3 (rect 3 3) (fresh 3 3).2 0.5%float
              (tape [3; 3; 4; 5; 0; 1; 4; 2; 6; 0; 7; 1; 9; 0; 2; 1]%nat))
    as [H _]; [by vm_compute|].
  destruct H as (w' & Hrun & Hc & _); [by vm_compute|].
  exists w'. split; [exact Hrun|exact Hc].
Defined.

(** ** recursive_backtracker: what it does guarantee *)

Lemma list_elem_of_delete_ne {A} (l : list A) (k : nat) (t y : A) :
  y ∈ l → l !! k = Some t → y ≠ t → y ∈ delete k l.
Proof.
  intros (j & Hj)%list_elem_of_lookup_1 Hk Hne.
  assert (j ≠ k) as Hjk by (intros ->; congruence).
  destruct (decide (j < k)%nat) as [Hlt|Hge].
  - apply (list_elem_of_lookup_2 _ j). by rewrite list_lookup_delete_lt.
  - apply (list_elem_of_lookup_2 _ (pred j)). rewrite list_lookup_delete_ge by lia.
    by replace (S (pred j)) with j by lia.
Qed.

Lemma is_or_none_spec (o : option ref) (item : ref) :
  is_or_none o item = true ↔ o = None ∨ o = Some item.
Proof.
  unfold is_or_none. destruct o as [n|]; simpl.
  - rewrite orb_false_r, bool_decide_eq_true. naive_solver.
  - naive_solver.
Qed.

(** The flag [S] is only set by an item that fails the test of [N], and
    the flag [N] only by an item that passes it. *)
Lemma rb_flags_spec (visited : list ref) (c : Cell) :
  ((rb_flags visited c).1.1.1 = true →
     north c = None ∨ ∃ n, north c = Some n ∧ n ∈ visited)
  ∧ ((rb_flags visited c).1.1.2 = true → north c ≠ None).
Proof.
  unfold rb_flags. induction visited as [|item visited IH] using rev_ind; [done|].
  rewrite foldl_app. simpl.
  destruct (foldl _ _ visited) as [[[N_ S_] E_] W_]. simpl in IH.
  destruct IH as [IHn IHs].
  destruct (is_or_none (north c) item) eqn:Hn; simpl.
  - split; [|done]. intros _. apply is_or_none_spec in Hn as [Hn|Hn]; [by left|].
    right. exists item. split; [done|]. apply elem_of_app. right. apply list_elem_of_here.
  - assert (north c ≠ None) as Hne.
    { intros Hnone. rewrite Hnone in Hn. done. }
    repeat match goal with
           | |- context [if ?b then _ else _] => destruct b
           end; simpl; (split; [|done]);
      intros HN; (destruct (IHn HN) as [?|(n & ? & ?)]; [by left|]);
      right; exists n; (split; [done|]); apply elem_of_app; by left.
Qed.

Lemma rb_flags_all (visited : list ref) (c : Cell) :
  rb_flags visited c = (true, true, true, true) → ∃ n, north c = Some n ∧ n ∈ visited.
Proof.
  intros Hf. destruct (rb_flags_spec visited c) as [Hn Hs]. rewrite Hf in Hn, Hs.
  destruct Hn as [Hn|Hn]; [done| |done]. by destruct Hs.
Qed.

Section recursive_backtracker.
Context (nr nc : Z) (E : exn → Prop).
Implicit Types (h : Heap) (x y p : ref) (stack visited : list ref).

Lemma rb_inv_push start stack visited top n h :
  top ∈ stack → adjacent nr nc top n →
  rb_inv nr nc start stack visited h →
  rb_inv nr nc start (stack ++ [n]) (visited ++ [n]) (link top n true h).
Proof.
  intros Htop Hadj (Hm & Hst & Hvis & Hl & Hs & Hcol). split_and!.
  - by apply maze_link.
  - intros x [Hx|Hx]%elem_of_app; apply elem_of_app; auto.
  - intros x [Hx|Hx%list_elem_of_singleton]%elem_of_app.
    + destruct (Hvis x Hx) as [? ?]. split; [done|]. by apply rtc_linked_link.
    + subst x. split; [apply Hadj|].
      eapply rtc_r; [apply rtc_linked_link, Hvis, Hst, Htop|]. apply linked_link_eq.
  - intros x y. unfold linked. rewrite entry_link. case_decide as Hd.
    + intros _. rewrite !elem_of_app, !list_elem_of_singleton.
      destruct Hd as [[-> ->]|(_ & -> & ->)]; auto.
    + intros [? ?]%Hl. rewrite !elem_of_app. auto.
  - apply elem_of_app. by left.
  - intros x [Hx|Hx%list_elem_of_singleton]%elem_of_app.
    + destruct (Hcol x Hx) as (y & ? & ? & ?). exists y. split; [|done].
      apply elem_of_app. by left.
    + subst x. exists n. split; [|done]. apply elem_of_app. right. apply list_elem_of_here.
Qed.

(** Backtracking: the cell on top of the stack has a visited north
    neighbour, so the stack keeps a cell for every column it covered. *)
Lemma rb_inv_pop start stack visited (k : nat) top n h :
  stack !! k = Some top → north (h !!! top) = Some n → n ∈ visited →
  rb_inv nr nc start stack visited h →
  rb_inv nr nc start (delete k stack) visited h.
Proof.
  intros Hk Hnorth Hn (Hm & Hst & Hvis & Hl & Hs & Hcol).
  assert (top ∈ stack) as Htop by (by eapply list_elem_of_lookup_2).
  assert (in_grid nr nc top) as Hin by (by apply Hvis, Hst).
  assert (n = (top.1 - 1, top.2)) as Hnn.
  { destruct Hm as [Hw _]. unfold wired, placed in Hw.
    destruct (Hw top Hin) as (_ & _ & _ & Hno & _).
    rewrite Hno in Hnorth. clear -Hnorth. case_decide; congruence. }
  split_and!; try done.
  - intros x Hx%list_elem_of_delete_inv. by apply Hst.
  - intros x Hx. destruct (Hcol x Hx) as (y & Hy & Hy2 & Hy1).
    destruct (decide (y = top)) as [->|Hne].
    + destruct (Hcol n Hn) as (y' & Hy' & Hy2' & Hy1'). subst n. simpl in *.
      exists y'. split; [|lia]. apply (list_elem_of_delete_ne _ _ top); [done..|].
      intros ->. lia.
    + exists y. split; [|done]. by apply (list_elem_of_delete_ne _ _ top).
Qed.

Lemma rb_inv_stack start stack visited h :
  rb_inv nr nc start stack visited h → 0 < len stack.
Proof.
  intros (_ & _ & _ & _ & Hs & Hcol). destruct (Hcol start Hs) as (y & Hy & _).
  destruct stack; [by apply elem_of_nil in Hy|]. unfold len. simpl. lia.
Qed.

Lemma rb_loop_spec fuel start stack visited w :
  rb_inv nr nc start stack visited (heap w) →
  ensures E (rb_loop fuel (rect nr nc) stack visited (len stack - 1)) w
    (λ _ w', ∃ stack' visited', rb_inv nr nc start stack' visited' (heap w')).
Proof.
  revert stack visited w.
  induction fuel as [|fuel IH]; intros stack visited w Hinv; [apply ensures_diverge|].
  cbn [rb_loop].
  destruct (_ <=? _); [|estep; by eauto].
  destruct (_ =? _); [estep; by eauto|].
  pose proof (rb_inv_stack _ _ _ _ Hinv) as Hlen.
  destruct (py_index_lookup stack (len stack - 1)) as (top & Htop & Hk); [lia|].
  rewrite Htop. do 4 estep. unfold id.
  destruct (rb_flags visited _) as [[[N_ S_] E_] W_] eqn:Hflags.
  destruct (N_ && S_ && E_ && W_) eqn:Hall.
  - apply andb_true_iff in Hall as [[[-> ->]%andb_true_iff ->]%andb_true_iff ->].
    apply rb_flags_all in Hflags as (n & Hn & Hnv).
    pose proof (rb_inv_pop start stack visited _ top n (heap w) Hk Hn Hnv Hinv) as Hinv'.
    pose proof (rb_inv_stack _ _ _ _ Hinv') as Hlen'.
    assert (py_del stack (len stack - 1)
            = Ret (delete (Z.to_nat (len stack - 1)) stack)) as ->.
    { rewrite <- (py_del_lookup stack (Z.to_nat (len stack - 1)))
        by (unfold len in *; lia).
      f_equal. lia. }
    do 2 estep. cbv zeta.
    destruct (py_index_lookup (delete (Z.to_nat (len stack - 1)) stack)
                (len (delete (Z.to_nat (len stack - 1)) stack) - 1))
      as (t' & -> & _); [lia|].
    do 2 estep. by apply IH.
  - do 2 estep. cbv zeta. do 4 estep.
    assert (top ∈ stack) as Hts by (by eapply list_elem_of_lookup_2).
    assert (in_grid nr nc top) as Hin.
    { destruct Hinv as (_ & Hst & Hvis & _). by apply Hvis, Hst. }
    assert (maze nr nc (heap (next w))) as Hm by apply Hinv.
    assert (∀ n, adjacent nr nc top n →
              ensures E (liftH (modify (link top n true));;
                         rb_loop fuel (rect nr nc) (stack ++ [n]) (visited ++ [n])
                                 (len (stack ++ [n]) - 1)) (next w)
                (λ _ w', ∃ stack' visited', rb_inv nr nc start stack' visited' (heap w')))
      as Hpush.
    { intros n Hn. do 2 estep. apply IH. simpl. by apply rb_inv_push. }
    unfold id.
    destruct ((_ =? 1) && negb N_); [destruct (north _) as [n1|] eqn:Hn|].
    { apply Hpush. by eapply maze_north. }
    all: destruct ((_ =? 2) && negb S_); [destruct (south _) as [n2|] eqn:Hs|].
    1, 4: by (apply Hpush; by eapply maze_south).
    all: destruct ((_ =? 3) && negb E_); [destruct (east _) as [n3|] eqn:He|].
    1, 4, 7, 10: by (apply Hpush; by eapply maze_east).
    all: destruct ((_ =? 4) && negb W_); [destruct (west _) as [n4|] eqn:Hw|].
    all: try by (apply Hpush; by eapply maze_west).
    all: by apply IH.
Qed.
End recursive_backtracker.

Lemma random_cell_returns nr nc draws h :
  0 < nr → 0 < nc →
  ∃ c, random_cell (rect nr nc) (mkWorld h draws)
       = (Ret c, mkWorld h (λ k, draws (2 + k)%nat))
       ∧ c ∈ cells (rect nr nc).
Proof.
  intros Hnr Hnc. unfold random_cell. simpl num_rows. simpl num_columns.
  rewrite bind_eq, randint_eq by lia. cbv beta iota.
  rewrite bind_eq, randint_eq by lia. cbv beta iota. unfold next. cbn [rnd heap].
  pose proof (Z.mod_pos_bound (Z.of_nat (draws 0%nat)) (nr - 1 - 0 + 1)).
  pose proof (Z.mod_pos_bound (Z.of_nat (draws 1%nat)) (nc - 1 - 0 + 1)).
  eexists. unfold lift_outcome. rewrite grid_get_rows by lia. split; [done|].
  rewrite cells_grid_rows. apply elem_of_index_pairs. split; simpl; lia.
Qed.

(** X20: [recursive_backtracker] on a new grid, started at a cell of the
    grid or at a random one, never raises (the stack is never emptied:
    [stack[i]] and [stack.pop(i)] are always in range), and whenever it
    returns [is_linked] is symmetric, links join geographic neighbours
    only, and every cell that has a passage is reachable from the start
    cell: the passages form one piece, which need not cover the grid. *)
Theorem recursive_backtracker_cluster nr nc g h fuel start draws :
  fresh nr nc = (Ret g, h) →
  (∀ c, start = Some c → c ∈ cells g) →
  match recursive_backtracker fuel g start (mkWorld h draws) with
  | (Ret _, w') =>
      (∀ a b, is_linked a b (heap w') = is_linked b a (heap w'))
      ∧ (∀ a b, linked (heap w') a b → adjacent nr nc a b)
      ∧ ∃ s, s ∈ cells g ∧ (∀ c, start = Some c → s = c)
          ∧ ∀ a b, linked (heap w') a b → rtc (linked (heap w')) s a
  | (Raise _, _) => False
  | (Diverge, _) => True
  end.
Proof.
  intros Hf Hstart. pose proof (fresh_maze _ _ _ _ Hf) as Hm.
  apply fresh_inv in Hf as (Hnr & Hnc & -> & _).
  destruct (unlink_all_maze nr nc h Hm) as (h1 & Hu & Hm1 & Hnone).
  change (ensures (λ _, False)
            (recursive_backtracker fuel (rect nr nc) start) (mkWorld h draws)
            (λ _ w', (∀ a b, is_linked a b (heap w') = is_linked b a (heap w'))
               ∧ (∀ a b, linked (heap w') a b → adjacent nr nc a b)
               ∧ ∃ s, s ∈ cells (rect nr nc) ∧ (∀ c, start = Some c → s = c)
                   ∧ ∀ a b, linked (heap w') a b → rtc (linked (heap w')) s a)).
  unfold recursive_backtracker. estep.
  eapply ensures_mono with
    (Q := λ c w', c ∈ cells (rect nr nc) ∧ (∀ c', start = Some c' → c = c')
                  ∧ heap w' = h).
  { destruct start as [c|].
    - estep. split; [by apply Hstart|]. split; [by intros c' [= ->]|done].
    - apply ensures_returns.
      destruct (random_cell_returns nr nc draws h Hnr Hnc) as (c & Hc & Hin).
      eexists _, _. split; [exact Hc|]. done. }
  intros s w1 (Hs & Hsc & Hw1). cbv beta zeta. estep.
  eapply ensures_liftH; [rewrite Hw1; exact Hu|].
  eapply ensures_mono.
  { change 0 with (len [s] - 1).
    apply (rb_loop_spec nr nc (λ _, False) fuel s). simpl. split_and!.
    - done.
    - done.
    - intros x ->%list_elem_of_singleton. split; [|done].
      rewrite cells_grid_rows in Hs. by apply elem_of_index_pairs in Hs.
    - intros x y Hl. by apply Hnone in Hl.
    - apply list_elem_of_here.
    - intros x ->%list_elem_of_singleton. exists s. split; [apply list_elem_of_here|done]. }
  intros [] w' (stack' & visited' & Hm' & _ & Hvis & Hl & _). split_and!.
  - intros a b. rewrite !is_linked_entry. destruct Hm' as [_ [Hsym _]].
    by rewrite (Hsym a b).
  - intros a b. by apply (maze_linked_adjacent nr nc).
  - exists s. split; [done|]. split; [done|].
    intros a b [Ha _]%Hl. by apply Hvis.
Qed.

Lemma recursive_backtracker_cluster_witness :
  let run := recursive_backtracker 5 (rect 2 2) None
               (mkWorld (fresh 2 2).2 (tape [0; 0; 1; 2; 0]%nat)) in
  run.1 = Ret tt
  ∧ ∃ s, s ∈ cells (rect 2 2)
      ∧ ∀ a b, linked (heap run.2) a b → rtc (linked (heap run.2)) s a.
Proof.
  intros run. split; [by vm_compute|].
  pose proof (recursive_backtracker_cluster 2 2 (rect 2 2) (fresh 2 2).2 5 None
                (tape [0; 0; 1; 2; 0]%nat)) as H.
  assert (run = (Ret tt, run.2)) as Hrun by (by vm_compute).
  fold run in H. rewrite Hrun in H.
  destruct H as (_ & _ & s & Hs & _ & Hl); [by vm_compute|done|].
  exists s. split; [exact Hs|exact Hl].
Defined.
